(** * GSHE: lossy compression of encrypted grey-scale images

    A shallow embedding of the Go package [gshe] (image padding, the
    keystream-backed random source, encryption, compression, decryption
    and Context Adaptive Interpolation) together with the properties
    of its specification.

    Conventions of the embedding.
    - A Go [int] is a [Z]; every product formed under the hypotheses of
      the theorems below is bounded by the length of a slice, so no
      wrap-around of the 64-bit [int] is involved.
    - A Go [byte] is a [Z] in [0, 256); every byte operation writes its
      wrap-around out ([mod 256]).
    - A slice is a [list]; an index or slice expression outside its
      bounds, and the [panic] of a library, is the outcome [Panic].
    - A Go [error] return is the outcome [Err]. *)

From Stdlib Require Import ZArith Lia String.
From stdpp Require Import base option list gmap.

Local Open Scope Z_scope.

(** ** Outcomes of a Go call *)

Inductive result (A : Type) : Type :=
  | Ok (a : A)
  | Err (e : string)
  | Panic.
Arguments Ok {A} a.
Arguments Err {A} e.
Arguments Panic {A}.

#[global] Instance result_ret : MRet result := fun A a => Ok a.
#[global] Instance result_bind : MBind result := fun A B f m =>
  match m with
  | Ok a => f a
  | Err e => Err e
  | Panic => Panic
  end.
#[global] Instance result_fmap : FMap result := fun A B f m =>
  match m with
  | Ok a => Ok (f a)
  | Err e => Err e
  | Panic => Panic
  end.

(** A [for] loop over an explicit list of the values its variable takes. *)
Fixpoint foldM {A S : Type} (body : A -> S -> result S) (xs : list A) (s : S)
  : result S :=
  match xs with
  | [] => Ok s
  | x :: xs' => s' ← body x s; foldM body xs' s'
  end.

(** [for i := 0; i < n; i++]: the values 0, 1, ..., n-1. *)
Definition range (n : Z) : list Z := Z.of_nat <$> seq 0 (Z.to_nat n).

(** [for i := 0; i < n; i += 2]: the values 0, 2, 4, ... below n. *)
Definition range2 (n : Z) : list Z :=
  (fun i => 2 * Z.of_nat i) <$> seq 0 (Z.to_nat ((n + 1) / 2)).

(** [for j := lo; j < hi; j++]. *)
Definition range_from (lo hi : Z) : list Z :=
  (fun i => lo + Z.of_nat i) <$> seq 0 (Z.to_nat (hi - lo)).

(** ** Slices *)

Definition len {A} (l : list A) : Z := Z.of_nat (length l).

(** [l[i]] as an rvalue. *)
Definition index {A} (l : list A) (i : Z) : result A :=
  if i <? 0 then Panic
  else match l !! Z.to_nat i with
       | Some x => Ok x
       | None => Panic
       end.

(** [l[i] = v]. *)
Definition assign {A} (l : list A) (i : Z) (v : A) : result (list A) :=
  if (0 <=? i) && (i <? len l) then Ok (<[Z.to_nat i := v]> l) else Panic.

(** [make([]T, n)] with the zero value [z]. *)
Definition make {A} (z : A) (n : Z) : result (list A) :=
  if n <? 0 then Panic else Ok (replicate (Z.to_nat n) z).

(** ** Bytes *)

Definition is_byte (b : Z) : Prop := 0 <= b < 256.
Definition to_byte (x : Z) : Z := x mod 256.
Definition byte_add (a b : Z) : Z := (a + b) mod 256.
Definition byte_sub (a b : Z) : Z := (a - b) mod 256.
Definition byte_mul (a b : Z) : Z := (a * b) mod 256.
Definition byte_shl (a s : Z) : Z := Z.shiftl a s mod 256.
Definition byte_shr (a s : Z) : Z := Z.shiftr a s.

(** The Go array type [[4]byte]. *)
Record byte4 : Type := B4 { e0 : Z; e1 : Z; e2 : Z; e3 : Z }.

Definition byte4_zero : byte4 := B4 0 0 0 0.
Definition set0 (b : byte4) (v : Z) : byte4 := B4 v (e1 b) (e2 b) (e3 b).
Definition set1 (b : byte4) (v : Z) : byte4 := B4 (e0 b) v (e2 b) (e3 b).
Definition set2 (b : byte4) (v : Z) : byte4 := B4 (e0 b) (e1 b) v (e3 b).
Definition set3 (b : byte4) (v : Z) : byte4 := B4 (e0 b) (e1 b) (e2 b) v.

(** ** Context Adaptive Interpolation *)

Definition absdiff (x y : Z) : Z :=
  if x >? y then byte_sub x y else byte_sub y x.

Definition minmaxmedian (p : byte4) : Z * Z * Z :=
  let '(b0, b1) := if e0 p <? e1 p then (e0 p, e1 p) else (e1 p, e0 p) in
  let '(b2, b3) := if e2 p <? e3 p then (e2 p, e3 p) else (e3 p, e2 p) in
  let '(b0, b2) := if b0 >? b2 then (b2, b0) else (b0, b2) in
  let '(b1, b3) := if b1 >? b3 then (b3, b1) else (b1, b3) in
  (b0, b3, b1).

(** Neighbours are ordered clockwise, starting with the top pixel. *)
Definition cai (neighbors : byte4) (threshold : Z) : Z :=
  let '(min, max, median) := minmaxmedian neighbors in
  if max - min <=? threshold then
    let sum := e0 neighbors + e1 neighbors + e2 neighbors + e3 neighbors in
    to_byte (Z.quot (sum + 2) 4)
  else if absdiff (e1 neighbors) (e3 neighbors)
          - absdiff (e0 neighbors) (e2 neighbors) >? threshold then
    let sum := e0 neighbors + e2 neighbors in
    to_byte (Z.quot (sum + 1) 2)
  else if absdiff (e0 neighbors) (e2 neighbors)
          - absdiff (e1 neighbors) (e3 neighbors) >? threshold then
    let sum := e1 neighbors + e3 neighbors in
    to_byte (Z.quot (sum + 1) 2)
  else median.

(** The decision tree of the specification, in its own words: the
    arithmetic is that of the integers, with no conversion to a byte. *)
Definition cai_spec (N E S W T min max median : Z) : Z :=
  if decide (max - min <= T) then (N + E + S + W + 2) / 4
  else if decide (Z.abs (E - W) - Z.abs (N - S) > T) then (N + S + 1) / 2
  else if decide (Z.abs (N - S) - Z.abs (E - W) > T) then (E + W + 1) / 2
  else median.

Definition min4 (a b c d : Z) : Z := Z.min (Z.min a b) (Z.min c d).
Definition max4 (a b c d : Z) : Z := Z.max (Z.max a b) (Z.max c d).

(** [m] is one of the two middle order statistics of the four values:
    the second or the third entry of their sorted arrangement. *)
Definition middle_of (a b c d m : Z) : Prop :=
  exists s0 s1 s2 s3,
    [a; b; c; d] ≡ₚ [s0; s1; s2; s3] /\
    s0 <= s1 /\ s1 <= s2 /\ s2 <= s3 /\ (m = s1 \/ m = s2).


(** ** More slice operations *)

(** [make([]T, n, c)]: only the [n] elements within the length are
    visible through the slice; the capacity [c] is storage behind it. *)
Definition make_cap {A} (z : A) (n c : Z) : result (list A) :=
  if (n <? 0) || (c <? n) then Panic else Ok (replicate (Z.to_nat n) z).

(** [l[lo:]]: the upper bound of the expression is the length of [l]. *)
Definition slice_from {A} (l : list A) (lo : Z) : result (list A) :=
  if (0 <=? lo) && (lo <=? len l) then Ok (drop (Z.to_nat lo) l) else Panic.

(** [l[:hi]]. *)
Definition slice_to {A} (l : list A) (hi : Z) : result (list A) :=
  if (0 <=? hi) && (hi <=? len l) then Ok (take (Z.to_nat hi) l) else Panic.

(** [l[lo:hi]]; the capacity of [l] is taken to be its length. *)
Definition slice {A} (l : list A) (lo hi : Z) : result (list A) :=
  if (0 <=? lo) && (lo <=? hi) && (hi <=? len l)
  then Ok (take (Z.to_nat (hi - lo)) (drop (Z.to_nat lo) l))
  else Panic.

(** [copy(l[lo:], src)] as seen through [l]: the first
    [min(len(l) - lo, len(src))] elements of [src] land at offset [lo]. *)
Definition copy_at {A} (l : list A) (lo : Z) (src : list A) : list A :=
  let n := Nat.min (length l - Z.to_nat lo) (length src) in
  take (Z.to_nat lo) l ++ take n src ++ drop (Z.to_nat lo + n) l.

(** ** Images *)

Module Image.
Record t : Type := mk {
  Image : list Z;
  Width : Z;
  Height : Z;
  PadWidth : bool;
  PadHeight : bool
}.
End Image.

(** The data-model invariant of an image: row-major bytes, one per pixel. *)
Definition Image_wf (img : Image.t) : Prop :=
  0 <= Image.Width img /\ 0 <= Image.Height img /\
  len (Image.Image img) = Image.Width img * Image.Height img /\
  Forall is_byte (Image.Image img).

(** [NewImage] creates a new image and possibly pads width and height to
    a multiple of 2 with zeros.  Go's [%] is [Z.rem]. *)
Definition NewImage (data : list Z) (width height : Z) : result Image.t :=
  if negb (len data =? width * height) then Err "invalid image data"
  else if (Z.rem width 2 =? 0) && (Z.rem height 2 =? 0) then
    Ok (Image.mk data width height false false)
  else
    let pw := width + Z.rem width 2 in
    let ph := height + Z.rem height 2 in
    padded ← make_cap 0 0 (pw * ph);
    padded ←
      (if negb (Z.rem width 2 =? 0) then
         foldM (fun y padded =>
                  _ ← slice_from padded (y * pw);
                  src ← slice data (y * width) ((y + 1) * width);
                  Ok (copy_at padded (y * pw) src))
               (range height) padded
       else Ok padded);
    Ok (Image.mk padded pw ph
          (negb (Z.rem width 2 =? 0)) (negb (Z.rem height 2 =? 0))).

(** [img.At(x, y)]. *)
Definition At (img : Image.t) (x y : Z) : result Z :=
  index (Image.Image img) (y * Image.Width img + x).

(** What the padding protocol of the specification asks of [NewImage]. *)
Definition padded_spec (data : list Z) (width height : Z) (img : Image.t) : Prop :=
  Image.Width img = width + width mod 2 /\
  Image.Height img = height + height mod 2 /\
  len (Image.Image img) = Image.Width img * Image.Height img /\
  (forall x y, 0 <= x < Image.Width img -> 0 <= y < Image.Height img ->
     At img x y =
       if decide (x < width /\ y < height)
       then index data (y * width + x) else Ok 0) /\
  Image.PadWidth img = bool_decide (width mod 2 <> 0) /\
  Image.PadHeight img = bool_decide (height mod 2 <> 0).

(** ** The keystream and the random source *)

(** Modelled from the spec: the byte stream behind [newRNG], whose source
    file is not among the sources.  The keystream is a function of the
    number of bytes consumed so far; a reader is the keystream and that
    number. *)
Record Reader : Type := mkReader { stream : nat -> Z; pos : nat }.

(** [r.Read(buf)]: the next [len(buf)] keystream bytes. *)
Definition Reader_Read (r : Reader) (buf : list Z) : list Z * Reader :=
  ((fun i => stream r (pos r + i)%nat) <$> seq 0 (length buf),
   mkReader (stream r) (pos r + length buf)).

(** [source.Int63]: eight bytes, big-endian, the top bit masked. *)
Definition Int63 (src : Reader) : Z * Reader :=
  let '(buf, src') := Reader_Read src (replicate 8 0) in
  let b i := nth i buf 0 in
  (Z.lor (Z.shiftl (Z.land (b 0%nat) 127) 56)
     (Z.lor (Z.shiftl (b 1%nat) 48)
        (Z.lor (Z.shiftl (b 2%nat) 40)
           (Z.lor (Z.shiftl (b 3%nat) 32)
              (Z.lor (Z.shiftl (b 4%nat) 24)
                 (Z.lor (Z.shiftl (b 5%nat) 16)
                    (Z.lor (Z.shiftl (b 6%nat) 8) (b 7%nat))))))),
   src').

(** The methods of Go's [math/rand.Rand] that [Intn] goes through, over a
    [Source] that is not a [Source64].  The rejection loops are bounded by
    [fuel]; [None] means the loop was still rejecting draws when the fuel
    ran out. *)
Module rand.

Definition Int31 (src : Reader) : Z * Reader :=
  let '(v, src') := Int63 src in (Z.shiftr v 32, src').

Fixpoint retry (fuel : nat) (draw : Reader -> Z * Reader) (max : Z)
  (src : Reader) : option (Z * Reader) :=
  match fuel with
  | O => None
  | S fuel' =>
      let '(v, src') := draw src in
      if v >? max then retry fuel' draw max src' else Some (v, src')
  end.

Definition Int31n (fuel : nat) (src : Reader) (n : Z)
  : option (result (Z * Reader)) :=
  if n <=? 0 then Some Panic
  else if Z.land n (n - 1) =? 0 then
    let '(v, src') := Int31 src in Some (Ok (Z.land v (n - 1), src'))
  else
    let max := 2 ^ 31 - 1 - (2 ^ 31) mod n in
    '(v, src') ← retry fuel Int31 max src;
    Some (Ok (Z.rem v n, src')).

Definition Int63n (fuel : nat) (src : Reader) (n : Z)
  : option (result (Z * Reader)) :=
  if n <=? 0 then Some Panic
  else if Z.land n (n - 1) =? 0 then
    let '(v, src') := Int63 src in Some (Ok (Z.land v (n - 1), src'))
  else
    let max := 2 ^ 63 - 1 - (2 ^ 63) mod n in
    '(v, src') ← retry fuel Int63 max src;
    Some (Ok (Z.rem v n, src')).

Definition Intn (fuel : nat) (src : Reader) (n : Z)
  : option (result (Z * Reader)) :=
  if n <=? 0 then Some Panic
  else if n <=? 2 ^ 31 - 1 then Int31n fuel src n
  else Int63n fuel src n.

End rand.

(** The bounded integer as the specification words it: the 63-bit value
    of the next eight keystream bytes, reduced modulo [n]. *)
Definition bounded_spec (src : Reader) (n : Z) : Z * Reader :=
  let '(v, src') := Int63 src in (v mod n, src').

(** The [j]-th 31-bit draw from the keystream, counted from [src]. *)
Definition draw31 (src : Reader) (j : nat) : Z :=
  (rand.Int31 (mkReader (stream src) (pos src + 8 * j))).1.

(** The random-number generator as the codec uses it: a deterministic
    state machine that fills buffers ([Read], of the stream behind
    [newRNG]) and draws bounded integers ([Intn], of [math/rand.Rand]).
    [rand.Intn] above keeps drawing while it rejects, so on an arbitrary
    keystream it need not return; the codec is therefore stated over
    every generator that honours the contract of [Intn]: for a positive
    bound [n] it returns an integer of [0, n). *)
Class Rand (R : Type) : Type := {
  Read : R -> list Z -> list Z * R;
  Intn : R -> Z -> Z * R
}.

Class RandLaws (R : Type) `{Rand R} : Prop := {
  Read_length : forall (r : R) (buf : list Z),
    length (Read r buf).1 = length buf;
  Intn_range : forall (r : R) (n : Z), 0 < n -> 0 <= (Intn r n).1 < n
}.

(** [rng.Intn(n)]: panics unless [n] is positive. *)
Definition rand_Intn `{Rand R} (rng : R) (n : Z) : result (Z * R) :=
  if n <=? 0 then Panic else Ok (Intn rng n).

(** A generator over a keystream whose bounded integer is the one the
    specification describes. *)
#[global] Instance Reader_Rand : Rand Reader := {|
  Read := Reader_Read;
  Intn := bounded_spec
|}.

(** [newRNG(key, salt)]: the generator of a key and a salt.  Its source
    file is not among the sources; it is a parameter of the codec. *)
Class KeyedRand (R : Type) `{Rand R} : Type :=
  newRNG : list Z -> list Z -> R.

(** [for i, v := range l]. *)
Definition enumerate {A} (l : list A) : list (Z * A) :=
  imap (fun i x => (Z.of_nat i, x)) l.

(** ** Encryption *)

Module EncryptedImage.
Record t : Type := mk {
  Halfimage : list Z;
  Width : Z;
  Height : Z;
  PadWidth : bool;
  PadHeight : bool;
  Salt : list Z
}.
End EncryptedImage.

(** [p[0], p[n] = p[n], p[0]] on the slice [p = a[off:]]. *)
Definition swap {A} (a : list A) (i j : Z) : result (list A) :=
  x ← index a j;
  y ← index a i;
  a ← assign a i x;
  assign a j y.

(** Permutes the half image [p] consisting of the top left and bottom
    right pixels of each 2x2 block.  The loop variable is the offset of
    the slice [p] within the array it was called on. *)
Definition permuteHalfimage `{Rand R} (p : list Z) (rng : R)
  : result (list Z * R) :=
  foldM (fun off '(p, rng) =>
           let lenp := len p - off in
           '(v, rng) ← rand_Intn rng (Z.quot lenp 2);
           let n := v * 2 in
           p ← swap p (off + 0) (off + n);
           p ← swap p (off + 1) (off + (n + 1));
           Ok (p, rng))
        (range2 (len p)) (p, rng).

(** [Encrypt]; [genSalt] is the outcome of the call of the replaceable
    salt generator.  The conversions [uint(..)] and [int(..)] are the
    identity on the non-negative values the loops give them. *)
Definition Encrypt `{KeyedRand R} (genSalt : result (list Z))
  (img : Image.t) (key : list Z) : result EncryptedImage.t :=
  salt ← genSalt;
  let rng := newRNG key salt in
  mask ← make 0 (Z.quot (len (Image.Image img)) 4);
  let '(mask, rng) := Read rng mask in
  let maskAt x y := index mask ((y / 2 * Image.Width img) / 2 + x / 2) in
  halfimage ← make 0 (Z.quot (len (Image.Image img)) 2);
  let halfimageAt x y := y / 2 * Image.Width img + x in
  halfimage ←
    foldM (fun y halfimage =>
      foldM (fun x halfimage =>
               a ← At img x y;
               m ← maskAt x y;
               halfimage ← assign halfimage (halfimageAt x y) (byte_add a m);
               a ← At img (x + 1) (y + 1);
               m ← maskAt x y;
               assign halfimage (halfimageAt (x + 1) (y + 1)) (byte_add a m))
            (range2 (Image.Width img)) halfimage)
      (range2 (Image.Height img)) halfimage;
  '(halfimage, _) ← permuteHalfimage halfimage rng;
  Ok (EncryptedImage.mk halfimage (Image.Width img) (Image.Height img)
        (Image.PadHeight img) (Image.PadHeight img) salt).

(** ** Compression *)

Module CompressedImage.
Record t : Type := mk {
  Quarterimage : list Z;
  Qtable : list Z;
  EncQdiffs : list Z;
  Salt : list Z;
  Width : Z;
  Height : Z;
  PadWidth : bool;
  PadHeight : bool
}.
End CompressedImage.

(** Same as [CompressedImage], but without encoding the qdiffs. *)
Module compressedImage.
Record t : Type := mk {
  Quarterimage : list Z;
  Qtable : list Z;
  Qdiffs : list Z;
  Salt : list Z;
  Width : Z;
  Height : Z;
  PadWidth : bool;
  PadHeight : bool
}.
End compressedImage.

(** [math/bits.TrailingZeros8]: the number of trailing zero bits of a
    byte; 8 for 0. *)
Fixpoint trailing_zeros (fuel : nat) (i : Z) (x : Z) : Z :=
  match fuel with
  | O => i
  | S fuel' => if Z.testbit x i then i else trailing_zeros fuel' (i + 1) x
  end.
Definition TrailingZeros8 (x : Z) : Z := trailing_zeros 8 0 x.

(** [math/bits.OnesCount8]: the number of one bits of a byte. *)
Definition OnesCount8 (x : Z) : Z :=
  foldr (fun i acc => Z.b2z (Z.testbit x i) + acc) 0 (range 8).

Definition makeQtable (distortions : list Z) (quantization : Z)
  : result (list Z) :=
  let logq := to_byte (TrailingZeros8 quantization) in
  qtable ← make 0 (Z.shiftr 256 logq);
  foldM (fun k qtable =>
           qtable ← assign qtable k (byte_shl (to_byte k) logq);
           foldM (fun j qtable =>
                    dj ← index distortions j;
                    qk ← index qtable k;
                    dq ← index distortions qk;
                    if dj <? dq
                    then assign qtable k (byte_add (byte_shl (to_byte k) logq) j)
                    else Ok qtable)
                 (range_from 1 quantization) qtable)
        (range (len qtable)) qtable.

(** The accumulation of the distortions (the third loop of [compress]). *)
Definition accumulate (diffs : list Z) (quantization : Z) : result (list Z) :=
  distortions ← make 0 256;
  let logq := TrailingZeros8 quantization in
  let maskq := byte_sub quantization 1 in
  foldM (fun v distortions =>
           let k := byte_shr v logq in
           let i := byte_shl k logq in
           foldM (fun j distortions =>
                    let distortion := Z.land (byte_sub v j) maskq in
                    d ← index distortions (byte_add i j);
                    assign distortions (byte_add i j)
                      (d + byte_mul distortion distortion))
                 (range_from 0 quantization) distortions)
        diffs distortions.

(** This is the entire compression except without fselib encoding. *)
Definition compress (img : EncryptedImage.t) (quantization : Z)
  : result compressedImage.t :=
  let half := EncryptedImage.Halfimage img in
  diffs ← make 0 (Z.quot (len half) 2);
  diffs ← foldM (fun i diffs =>
                   a ← index half (i + 1);
                   b ← index half i;
                   assign diffs (Z.quot i 2) (byte_sub a b))
                (range2 (len half)) diffs;
  if negb (OnesCount8 quantization =? 1)
  then Err "quantization must be power of 2"
  else
    distortions ← accumulate diffs quantization;
    let logq := TrailingZeros8 quantization in
    qdiffs ← make 0 (len diffs);
    qdiffs ← foldM (fun '(i, v) qdiffs => assign qdiffs i (byte_shr v logq))
                   (enumerate diffs) qdiffs;
    quarterimage ← make 0 (len diffs);
    quarterimage ← foldM (fun i quarterimage =>
                            a ← index half (2 * i);
                            assign quarterimage i a)
                         (range (len quarterimage)) quarterimage;
    qtable ← makeQtable distortions quantization;
    Ok (compressedImage.mk quarterimage qtable qdiffs
          (EncryptedImage.Salt img)
          (EncryptedImage.Width img) (EncryptedImage.Height img)
          (EncryptedImage.PadHeight img) (EncryptedImage.PadHeight img)).

(** The entropy coder [fselib], a parameter of the codec: [Encode dst src]
    and [Decode dst src] return the number of bytes written and the
    destination buffer after the call, or the error of the coder. *)
Class fselib : Type := {
  Encode : list Z -> list Z -> result (Z * list Z);
  Decode : list Z -> list Z -> result (Z * list Z)
}.

(** The codec round-trips: what [Compress] encodes into a buffer of the
    length of its input, [Decrypt] decodes from the written prefix. *)
Class fselib_roundtrip `{fselib} : Prop :=
  roundtrip : forall src : list Z,
    exists n dst,
      Encode (replicate (length src) 0) src = Ok (n, dst) /\
      0 <= n <= len dst /\
      exists dst',
        Decode (replicate (length src) 0) (take (Z.to_nat n) dst)
          = Ok (len src, dst') /\
        take (length src) dst' = src.

(** Quantization must be a power of 2. *)
Definition Compress `{fselib} (img : EncryptedImage.t) (quantization : Z)
  : result CompressedImage.t :=
  comp ← compress img quantization;
  encqdiffs ← make 0 (len (compressedImage.Qdiffs comp));
  '(n, encqdiffs) ← Encode encqdiffs (compressedImage.Qdiffs comp);
  encqdiffs ← slice_to encqdiffs n;
  Ok (CompressedImage.mk (compressedImage.Quarterimage comp)
        (compressedImage.Qtable comp) encqdiffs
        (EncryptedImage.Salt img)
        (compressedImage.Width comp) (compressedImage.Height comp)
        (compressedImage.PadWidth comp) (compressedImage.PadHeight comp)).

(** ** Decryption *)

(** The first two loops of [unpermuteBlocks]: the identity indices, then
    the swaps of the permutation replayed on them.  The loop variable of
    the second loop is the offset of the slice [s] within [indices]. *)
Definition shuffledIndices `{Rand R} (n : Z) (rng : R) : result (list Z * R) :=
  indices ← make 0 n;
  indices ← foldM (fun i indices => assign indices i i)
                  (range (len indices)) indices;
  foldM (fun off '(indices, rng) =>
           let lens := len indices - off in
           '(n, rng) ← rand_Intn rng lens;
           indices ← swap indices (off + 0) (off + n);
           Ok (indices, rng))
        (range (len indices)) (indices, rng).

(** Unpermutes the 2x2 blocks according to [rng], which must match the
    state used in [permuteHalfimage]. *)
Definition unpermuteBlocks `{Rand R} (blocks : list byte4) (rng : R)
  : result (list byte4 * R) :=
  '(indices, rng) ← shuffledIndices (len blocks) rng;
  ret ← make byte4_zero (len blocks);
  ret ← foldM (fun '(i, v) ret => b ← index blocks i; assign ret v b)
              (enumerate indices) ret;
  Ok (ret, rng).

(** [unpermuteBlocks] over a store of block arrays: [blocks] is the
    address of the caller's array, the result the address of the array
    the function allocates. *)
Definition alloc (h : gmap nat (list byte4)) (a : list byte4)
  : nat * gmap nat (list byte4) :=
  let l := fresh (dom h) in (l, <[l := a]> h).

Definition load (h : gmap nat (list byte4)) (l : nat) : result (list byte4) :=
  match h !! l with
  | Some a => Ok a
  | None => Panic
  end.

Definition unpermuteBlocks_store `{Rand R} (blocks : nat) (rng : R)
  (h : gmap nat (list byte4)) : result (nat * R * gmap nat (list byte4)) :=
  input ← load h blocks;
  '(indices, rng) ← shuffledIndices (len input) rng;
  fresh_ret ← make byte4_zero (len input);
  let '(ret, h) := alloc h fresh_ret in
  h ← foldM (fun '(i, v) h =>
               src ← load h blocks;
               b ← index src i;
               dst ← load h ret;
               dst ← assign dst v b;
               Ok (<[ret := dst]> h))
            (enumerate indices) h;
  Ok (ret, rng, h).

(** [blocks[i][1] = v] and [blocks[i][2] = v]. *)
Definition assign1 (blocks : list byte4) (i : Z) (v : Z) : result (list byte4) :=
  b ← index blocks i; assign blocks i (set1 b v).
Definition assign2 (blocks : list byte4) (i : Z) (v : Z) : result (list byte4) :=
  b ← index blocks i; assign blocks i (set2 b v).

(** Interpolates the blocks with [cai].  On the image border the missing
    neighbours are taken from the current block. *)
Definition interpolateBlocks (blocks : list byte4) (bw bh threshold : Z)
  : result (list byte4) :=
  foldM (fun y blocks =>
    foldM (fun x blocks =>
             let i := y * bw + x in
             let up := (y - 1) * bw + x in
             let right := y * bw + x + 1 in
             let down := (y + 1) * bw + x in
             let left := y * bw + x - 1 in
             bi ← index blocks i;
             let neighbors := B4 0 0 (e3 bi) (e0 bi) in
             n0 ← (if y >? 0 then e3 <$> index blocks up
                   else e3 <$> index blocks i);
             let neighbors := set0 neighbors n0 in
             n1 ← (if x <? bw - 1 then e0 <$> index blocks right
                   else e0 <$> index blocks i);
             let neighbors := set1 neighbors n1 in
             blocks ← assign1 blocks i (cai neighbors threshold);
             bi ← index blocks i;
             let neighbors := B4 (e0 bi) (e3 bi) 0 0 in
             n2 ← (if y <? bh - 1 then e0 <$> index blocks down
                   else e0 <$> index blocks i);
             let neighbors := set2 neighbors n2 in
             n3 ← (if x >? 0 then e3 <$> index blocks left
                   else e3 <$> index blocks i);
             let neighbors := set3 neighbors n3 in
             assign2 blocks i (cai neighbors threshold))
          (range bw) blocks)
    (range bh) blocks.

(** This is the entire decryption except without fselib decoding. *)
Definition decrypt `{KeyedRand R} (img : compressedImage.t) (key : list Z)
  : result Image.t :=
  let quarter := compressedImage.Quarterimage img in
  blocks ← make byte4_zero (len quarter);
  blocks ← foldM (fun i blocks =>
                    q ← index quarter i;
                    b ← index blocks i;
                    blocks ← assign blocks i (set0 b q);
                    q ← index quarter i;
                    d ← index (compressedImage.Qdiffs img) i;
                    t ← index (compressedImage.Qtable img) d;
                    b ← index blocks i;
                    assign blocks i (set3 b (byte_add q t)))
                 (range (len blocks)) blocks;
  let rng := newRNG key (compressedImage.Salt img) in
  mask ← make 0 (len quarter);
  let '(mask, rng) := Read rng mask in
  '(blocks, _) ← unpermuteBlocks blocks rng;
  blocks ← foldM (fun '(i, v) blocks =>
                    b ← index blocks i;
                    blocks ← assign blocks i (set0 b (byte_sub (e0 b) v));
                    b ← index blocks i;
                    assign blocks i (set3 b (byte_sub (e3 b) v)))
                 (enumerate mask) blocks;
  let threshold := 20 in
  let bw := Z.quot (compressedImage.Width img) 2 in
  let bh := Z.quot (compressedImage.Height img) 2 in
  blocks ← interpolateBlocks blocks bw bh threshold;
  image ← make 0 (len quarter * 4);
  let imageAt x y := y * compressedImage.Width img + x in
  image ←
    foldM (fun y image =>
      foldM (fun x image =>
               b ← index blocks (y * bw + x);
               image ← assign image (imageAt (2 * x) (2 * y)) (e0 b);
               b ← index blocks (y * bw + x);
               image ← assign image (imageAt (2 * x + 1) (2 * y)) (e1 b);
               b ← index blocks (y * bw + x);
               image ← assign image (imageAt (2 * x) (2 * y + 1)) (e2 b);
               b ← index blocks (y * bw + x);
               assign image (imageAt (2 * x + 1) (2 * y + 1)) (e3 b))
            (range bw) image)
      (range bh) image;
  Ok (Image.mk image (compressedImage.Width img) (compressedImage.Height img)
        (compressedImage.PadWidth img) (compressedImage.PadHeight img)).

Definition Decrypt `{KeyedRand R, fselib} (img : CompressedImage.t)
  (key : list Z) : result Image.t :=
  qdiffs ← make 0 (len (CompressedImage.Quarterimage img));
  '(n, qdiffs) ← Decode qdiffs (CompressedImage.EncQdiffs img);
  qdiffs ← slice_to qdiffs n;
  decrypt (compressedImage.mk (CompressedImage.Quarterimage img)
             (CompressedImage.Qtable img) qdiffs
             (CompressedImage.Salt img)
             (CompressedImage.Width img) (CompressedImage.Height img)
             (CompressedImage.PadHeight img) (CompressedImage.PadHeight img))
          key.

(** ** Generators and codecs for running the model

    A keystream that cycles through the bytes of the key followed by
    those of the salt, and a codec that stores its input unchanged. *)
Definition cyclic_stream (key salt : list Z) (i : nat) : Z :=
  nth (i mod (length (key ++ salt))) (key ++ salt) 0.

#[global] Instance cyclic_newRNG : KeyedRand Reader :=
  fun key salt => mkReader (cyclic_stream key salt) 0.

Definition stored : fselib := {|
  Encode := fun dst src => Ok (len src, src);
  Decode := fun dst src => Ok (len src, src)
|}.

(** ** The permutation, as a sequence of swaps

    Both [permuteHalfimage] and [unpermuteBlocks] draw the bounds
    [m, m-1, ..., 1] and, at step [i], exchange the entries [i] and
    [i + v_i] of an array of [m] units. *)

Definition lswap {A} (l : list A) (i j : nat) : list A :=
  match l !! i, l !! j with
  | Some x, Some y => <[j := x]> (<[i := y]> l)
  | _, _ => l
  end.

Fixpoint apply_swaps {A} (off : nat) (vs : list Z) (l : list A) : list A :=
  match vs with
  | [] => l
  | v :: vs' => apply_swaps (S off) vs' (lswap l off (off + Z.to_nat v))
  end.

Fixpoint draws `{Rand R} (m : nat) (rng : R) : list Z * R :=
  match m with
  | O => ([], rng)
  | S m' =>
      let '(v, rng) := Intn rng (Z.of_nat m) in
      let '(vs, rng) := draws m' rng in
      (v :: vs, rng)
  end.

(** The pairs of a half image as blocks, [mk] giving the block of the
    two kept pixels. *)
Definition blocks_with (mk : Z -> Z -> byte4) (p : list Z) : list byte4 :=
  (fun i => mk (p !!! (2 * i)%nat) (p !!! (2 * i + 1)%nat))
    <$> seq 0 (length p / 2).

(** The blocks as the test of the permutation lays them out. *)
Definition blocks_of (p : list Z) : list byte4 :=
  blocks_with (fun a b => B4 a b 0 0) p.

(** ** Vocabulary of the statements *)

(** [q] is a power of two, as the specification says. *)
Definition power_of_two (q : Z) : Prop := exists k, 0 <= k /\ q = 2 ^ k.

Definition advance (src : Reader) (n : nat) : Reader :=
  mkReader (stream src) (pos src + n).

(** The eight bytes assembled big-endian, the top bit of the first byte
    masked off: the words of the specification. *)
Definition big_endian63 (src : Reader) : Z :=
  let b i := stream src (pos src + i)%nat in
  (b 0%nat mod 128) * 2 ^ 56 + b 1%nat * 2 ^ 48 + b 2%nat * 2 ^ 40
  + b 3%nat * 2 ^ 32 + b 4%nat * 2 ^ 24 + b 5%nat * 2 ^ 16
  + b 6%nat * 2 ^ 8 + b 7%nat.

(** The largest 31-bit draw that [Int31n] accepts for the bound [n]. *)
Definition reject_bound (n : Z) : Z := 2 ^ 31 - 1 - (2 ^ 31) mod n.

#[global] Instance byte4_inhabited : Inhabited byte4 := populate byte4_zero.

(** The transposition of two indices. *)
Definition transpose (i j k : nat) : nat :=
  if decide (k = j) then i else if decide (k = i) then j else k.

(** The draws stay in range: at step [i] of [m] the draw is below [m - i]. *)
Definition in_range (off m : nat) (vs : list Z) : Prop :=
  length vs = (m - off)%nat /\
  forall i v, vs !! i = Some v -> 0 <= v < Z.of_nat (m - off - i).

(** The indices [0, 1, ..., n-1]. *)
Definition iota (n : nat) : list Z := Z.of_nat <$> seq 0 n.

(** The entry the specification asks of the quantization table at bucket
    [k]: the value [(k << logq) + j] for the smallest [j] in [0, q) that
    minimizes [distortions[(k << logq) + j]] over the bucket. *)
Definition bucket_entry (distortions : list Z) (q k v : Z) : Prop :=
  let base := Z.shiftl k (TrailingZeros8 q) in
  exists j, 0 <= j < q /\ v = base + j /\
    (forall j', 0 <= j' < q ->
       distortions !!! Z.to_nat (base + j) <= distortions !!! Z.to_nat (base + j')) /\
    (forall j', 0 <= j' < j ->
       distortions !!! Z.to_nat (base + j) < distortions !!! Z.to_nat (base + j')).

(** The element of a slice at an [int] index, for statements. *)
Definition elem `{Inhabited A} (l : list A) (i : Z) : A := l !!! Z.to_nat i.

(** The neighbours (N, E, S, W) that [interpolateBlocks] hands to [cai]
    for the top right and for the bottom left pixel of the block at
    block coordinates (x, y), read off the kept pixels of the blocks
    [u]: on the border a missing neighbour is replaced by a kept pixel
    of the block itself. *)
Definition neighbors_tr (u : list byte4) (bw y x : Z) : byte4 :=
  B4 (if y >? 0 then e3 (elem u ((y - 1) * bw + x)) else e3 (elem u (y * bw + x)))
     (if x <? bw - 1 then e0 (elem u (y * bw + x + 1)) else e0 (elem u (y * bw + x)))
     (e3 (elem u (y * bw + x)))
     (e0 (elem u (y * bw + x))).

Definition neighbors_bl (u : list byte4) (bw bh y x : Z) : byte4 :=
  B4 (e0 (elem u (y * bw + x)))
     (e3 (elem u (y * bw + x)))
     (if y <? bh - 1 then e0 (elem u ((y + 1) * bw + x)) else e0 (elem u (y * bw + x)))
     (if x >? 0 then e3 (elem u (y * bw + x - 1)) else e3 (elem u (y * bw + x))).

(** The block of a pair after the first loop of [decrypt] at
    quantization 1, where the table is the identity: the top left pixel
    and the bottom right one rebuilt from the difference. *)
Definition rebuilt (a b : Z) : byte4 := B4 a 0 0 (byte_add a (byte_sub b a)).

(** The pixel of an image at (x, y), for statements. *)
Definition pixel (img : Image.t) (x y : Z) : Z :=
  elem (Image.Image img) (y * Image.Width img + x).

(** The neighbours of the top right and of the bottom left pixel of the
    block at block coordinates (bx, by) in terms of the kept pixels of
    the image, with the border rule of [interpolateBlocks]. *)
Definition kept_around_tr (img : Image.t) (bx by_ : Z) : byte4 :=
  B4 (if by_ >? 0 then pixel img (2 * bx + 1) (2 * by_ - 1)
      else pixel img (2 * bx + 1) (2 * by_ + 1))
     (if bx <? Z.quot (Image.Width img) 2 - 1 then pixel img (2 * bx + 2) (2 * by_)
      else pixel img (2 * bx) (2 * by_))
     (pixel img (2 * bx + 1) (2 * by_ + 1))
     (pixel img (2 * bx) (2 * by_)).

Definition kept_around_bl (img : Image.t) (bx by_ : Z) : byte4 :=
  B4 (pixel img (2 * bx) (2 * by_))
     (pixel img (2 * bx + 1) (2 * by_ + 1))
     (if by_ <? Z.quot (Image.Height img) 2 - 1 then pixel img (2 * bx) (2 * by_ + 2)
      else pixel img (2 * bx) (2 * by_))
     (if bx >? 0 then pixel img (2 * bx - 1) (2 * by_ + 1)
      else pixel img (2 * bx + 1) (2 * by_ + 1)).

(** ** Data of the test suite *)

(** The 24 arrangements of 1, 2, 3, 4 of [TestMinMaxMedian]. *)
Definition arrangements_1234 : list byte4 :=
  [B4 1 2 3 4; B4 1 2 4 3; B4 2 1 3 4; B4 2 1 4 3; B4 1 3 2 4; B4 1 3 4 2;
   B4 3 1 2 4; B4 3 1 4 2; B4 1 4 2 3; B4 1 4 3 2; B4 4 1 2 3; B4 4 1 3 2;
   B4 2 3 1 4; B4 2 3 4 1; B4 3 2 1 4; B4 3 2 4 1; B4 2 4 1 3; B4 2 4 3 1;
   B4 4 2 1 3; B4 4 2 3 1; B4 3 4 1 2; B4 3 4 2 1; B4 4 3 1 2; B4 4 3 2 1].

(** The 16x16 image of [TestDecryptGradient]: horizontal stripes of
    g, 2g, ..., 14g for g = 21 (in byte arithmetic), the first and the
    last row repeating their neighbour. *)
Definition gradient : list Z :=
  (fun i =>
     let y := Z.of_nat i / 16 in
     if y =? 0 then 21
     else if y =? 15 then byte_mul 14 21
     else byte_mul y 21) <$> seq 0 256.

(** ** Vocabulary of the further properties *)

(** The swaps of [apply_swaps] taken back, the last one first. *)
Fixpoint undo_swaps {A} (off : nat) (vs : list Z) (l : list A) : list A :=
  match vs with
  | [] => l
  | v :: vs' => lswap (undo_swaps (S off) vs' l) off (off + Z.to_nat v)
  end.

(** The half image of a sequence of blocks laid out as [blocks_of] reads
    them: the two kept pixels of each block, one block after the other. *)
Definition pairs_of (bs : list byte4) : list Z :=
  bs ≫= (fun b => [e0 b; e1 b]).

(** The block of a pair after the first loop of [decrypt] for a table
    [qtable] of the quantization [2 ^ logq]: the top left pixel, and the
    bottom right one rebuilt from the table entry of the bucket of the
    difference. *)
Definition rebuilt_with (qtable : list Z) (logq : Z) (a b : Z) : byte4 :=
  B4 a 0 0 (byte_add a (elem qtable (byte_shr (byte_sub b a) logq))).

(** The differences that [compress] takes, pair by pair, of a half
    image, and the same differences taken block by block, in image
    order, between the bottom right and the top left pixel of an
    image. *)
Definition pair_diffs (p : list Z) : list Z :=
  (fun b => byte_sub (e1 b) (e0 b)) <$> blocks_of p.

Definition block_diffs (img : Image.t) : list Z :=
  let bw := Z.quot (Image.Width img) 2 in
  let bh := Z.quot (Image.Height img) 2 in
  (fun i => byte_sub (pixel img (2 * (i mod bw) + 1) (2 * (i / bw) + 1))
                     (pixel img (2 * (i mod bw)) (2 * (i / bw))))
    <$> range (bh * bw).

(** The share of a difference [v] in entry [c] of the distortions that
    [compress] accumulates: when [v] lies in the bucket of [c], the
    square, as a byte, of [(v - c) mod q]; nothing otherwise. *)
Definition distortion_of (q v c : Z) : Z :=
  if v / q =? c / q
  then byte_mul ((v - c) mod q) ((v - c) mod q)
  else 0.

(** ** The command-line tool

    [image.Gray] of Go's standard library as the tool uses it: the
    pixels, the stride between two rows and the bounds.  [Rect], [Dx],
    [Dy], [NewGray], [PixOffset] and [GrayAt] follow package [image]. *)

Module Gray.
Record t : Type := mk {
  Pix : list Z;
  Stride : Z;
  MinX : Z; MinY : Z; MaxX : Z; MaxY : Z
}.
End Gray.

Definition Dx (g : Gray.t) : Z := Gray.MaxX g - Gray.MinX g.
Definition Dy (g : Gray.t) : Z := Gray.MaxY g - Gray.MinY g.



Definition imageFromGray (img : Gray.t) : result Image.t :=
  NewImage (Gray.Pix img) (Dx img) (Dy img).


(** The modes of [main]; 0 stands for no mode. *)
Definition modeEncrypt : Z := 1.
Definition modeCompress : Z := 2.
Definition modeDecrypt : Z := 3.

(** What [main] does instead of running a mode: it prints a message and
    the usage, and returns. *)
Inductive stop : Type := Usage (message : string).

(** The choice of the mode in [main]: the mode flags are counted, the
    last one set wins, more than one is refused; with no flag the
    extension [ext] of the input decides. *)
Definition selectMode (encrypt decrypt compress : bool) (ext : string)
  : stop + Z :=
  let modes := 0 in
  let mode := 0 in
  let '(modes, mode) := if encrypt then (modes + 1, modeEncrypt) else (modes, mode) in
  let '(modes, mode) := if decrypt then (modes + 1, modeDecrypt) else (modes, mode) in
  let '(modes, mode) := if compress then (modes + 1, modeCompress) else (modes, mode) in
  if modes >? 1 then inl (Usage "multiple modes specified")
  else if mode =? 0 then
    if (ext =? ".gse")%string then inr modeCompress
    else if (ext =? ".gsc")%string then inr modeDecrypt
    else if (ext =? ".png")%string then inr modeEncrypt
    else if (ext =? ".gif")%string then inr modeEncrypt
    else if (ext =? ".jpg")%string then inr modeEncrypt
    else if (ext =? ".jpeg")%string then inr modeEncrypt
    else inl (Usage "unknown file type")
  else inr mode.

(** The extension of the default output of a mode. *)
Definition outext (mode : Z) : string :=
  if mode =? modeEncrypt then "gse"
  else if mode =? modeCompress then "gsc"
  else if mode =? modeDecrypt then "png"
  else "".

(** The compress mode of [main] on a decoded encrypted image: the check
    of the flag [-q], an unsigned integer, comes before the mode runs;
    [uint8] truncates. *)
Definition compressMode `{fselib} (quantization : Z) (enc : EncryptedImage.t)
  : stop + result CompressedImage.t :=
  if quantization >? 255 then inl (Usage "invalid quantization")
  else inr (Compress enc (to_byte quantization)).

(** The encrypt mode of [main] on a decoded grayscale image. *)
Definition encryptMode `{KeyedRand R} (genSalt : result (list Z))
  (src : Gray.t) (key : list Z) : result EncryptedImage.t :=
  img ← imageFromGray src;
  Encrypt genSalt img key.
Lemma absdiff_abs x y : is_byte x -> is_byte y -> absdiff x y = Z.abs (x - y).
Proof.
  unfold absdiff, byte_sub, is_byte. intros Hx Hy.
  destruct (Z.gtb_spec x y).
  - rewrite Z.mod_small by lia. lia.
  - rewrite Z.mod_small by lia. lia.
Qed.

Lemma minmaxmedian_min a b c d :
  (minmaxmedian (B4 a b c d)).1.1 = min4 a b c d.
Proof.
  unfold minmaxmedian, min4; simpl.
  destruct (Z.ltb_spec a b), (Z.ltb_spec c d); simpl;
    repeat match goal with |- context [?x >? ?y] => destruct (Z.gtb_spec x y) end;
    simpl; lia.
Qed.

Lemma minmaxmedian_max a b c d :
  (minmaxmedian (B4 a b c d)).1.2 = max4 a b c d.
Proof.
  unfold minmaxmedian, max4; simpl.
  destruct (Z.ltb_spec a b), (Z.ltb_spec c d); simpl;
    repeat match goal with |- context [?x >? ?y] => destruct (Z.gtb_spec x y) end;
    simpl; lia.
Qed.

Lemma middle_of_intro a b c d s0 s1 s2 s3 :
  [a; b; c; d] ≡ₚ [s0; s1; s2; s3] ->
  s0 <= s1 -> s0 <= s2 -> s1 <= s3 -> s2 <= s3 ->
  middle_of a b c d s1.
Proof.
  intros Hp H01 H02 H13 H23.
  destruct (Z.le_gt_cases s1 s2).
  - exists s0, s1, s2, s3. repeat split; auto.
  - exists s0, s2, s1, s3. repeat split; auto; try lia.
    rewrite Hp. apply perm_skip, perm_swap.
Qed.

Lemma minmaxmedian_median a b c d :
  middle_of a b c d (minmaxmedian (B4 a b c d)).2.
Proof.
  unfold minmaxmedian; simpl.
  destruct (Z.ltb_spec a b), (Z.ltb_spec c d); simpl;
    repeat match goal with |- context [?x >? ?y] => destruct (Z.gtb_spec x y) end;
    simpl;
    match goal with
    | |- middle_of _ _ _ _ ?m =>
        let try_with s0 s2 s3 :=
          (apply (middle_of_intro a b c d s0 m s2 s3);
           [solve_Permutation | lia ..]) in
        let pick k := first [k a | k b | k c | k d] in
        pick ltac:(fun s0 => pick ltac:(fun s2 => pick ltac:(fun s3 =>
          try_with s0 s2 s3)))
    end.
Qed.

(** ** Context Adaptive Interpolation *)

Lemma to_byte_small x : 0 <= x < 256 -> to_byte x = x.
Proof. intros. unfold to_byte. apply Z.mod_small. lia. Qed.

Lemma quot_div_nonneg a b : 0 <= a -> 0 < b -> Z.quot a b = a / b.
Proof. intros. apply Z.quot_div_nonneg; lia. Qed.

Lemma avg4_byte a b c d :
  is_byte a -> is_byte b -> is_byte c -> is_byte d ->
  to_byte (Z.quot (a + b + c + d + 2) 4) = (a + b + c + d + 2) / 4 /\
  min4 a b c d <= (a + b + c + d + 2) / 4 <= max4 a b c d.
Proof.
  unfold is_byte, min4, max4. intros.
  rewrite quot_div_nonneg by lia.
  assert (min4 a b c d <= (a + b + c + d + 2) / 4 <= max4 a b c d) as Hb.
  { unfold min4, max4. Z.div_mod_to_equations. lia. }
  unfold min4, max4 in Hb. split; [apply to_byte_small|]; lia.
Qed.

Lemma avg2_byte a b :
  is_byte a -> is_byte b ->
  to_byte (Z.quot (a + b + 1) 2) = (a + b + 1) / 2 /\
  Z.min a b <= (a + b + 1) / 2 <= Z.max a b.
Proof.
  unfold is_byte. intros.
  rewrite quot_div_nonneg by lia.
  assert (Z.min a b <= (a + b + 1) / 2 <= Z.max a b) as Hb.
  { Z.div_mod_to_equations. lia. }
  split; [apply to_byte_small|]; lia.
Qed.

Lemma cai_unfold N E S W T :
  is_byte N -> is_byte E -> is_byte S -> is_byte W ->
  cai (B4 N E S W) T =
    cai_spec N E S W T (min4 N E S W) (max4 N E S W)
      (minmaxmedian (B4 N E S W)).2.
Proof.
  intros HN HE HS HW. unfold cai, cai_spec.
  pose proof (minmaxmedian_min N E S W) as Hmin.
  pose proof (minmaxmedian_max N E S W) as Hmax.
  destruct (minmaxmedian (B4 N E S W)) as [[mn mx] med]. simpl in *. subst.
  rewrite !absdiff_abs by assumption.
  destruct (avg4_byte N E S W HN HE HS HW) as [-> _].
  destruct (avg2_byte N S HN HS) as [-> _].
  destruct (avg2_byte E W HE HW) as [-> _].
  destruct (Z.leb_spec (max4 N E S W - min4 N E S W) T); case_decide; try lia; auto.
  repeat match goal with
         | |- context [?x >? ?y] => destruct (Z.gtb_spec x y)
         end; repeat case_decide; try lia; auto.
Qed.

(** C5. For four neighbour bytes (N, E, S, W) and any threshold T, [cai]
    follows the four-case decision tree: the rounded mean of the four
    when max - min <= T, else the rounded mean of N and S when
    |E-W| - |N-S| > T, else the rounded mean of E and W when
    |N-S| - |E-W| > T, else the median; where the minimum and maximum of
    [minmaxmedian] are the true ones and its median is one of the two
    middle order statistics. *)
Theorem cai_decision_tree (N E S W T : Z) :
  is_byte N -> is_byte E -> is_byte S -> is_byte W ->
  let '(min, max, median) := minmaxmedian (B4 N E S W) in
  min = min4 N E S W /\ max = max4 N E S W /\
  middle_of N E S W median /\
  cai (B4 N E S W) T = cai_spec N E S W T min max median.
Proof.
  intros HN HE HS HW.
  pose proof (minmaxmedian_min N E S W) as Hmin.
  pose proof (minmaxmedian_max N E S W) as Hmax.
  pose proof (minmaxmedian_median N E S W) as Hmed.
  pose proof (cai_unfold N E S W T HN HE HS HW) as Hcai.
  destruct (minmaxmedian (B4 N E S W)) as [[mn mx] med]. simpl in *.
  subst. auto.
Qed.

Lemma cai_decision_tree_witness :
  let '(min, max, median) := minmaxmedian (B4 10 200 30 90) in
  min = min4 10 200 30 90 /\ max = max4 10 200 30 90 /\
  middle_of 10 200 30 90 median /\
  cai (B4 10 200 30 90) 20 = cai_spec 10 200 30 90 20 min max median.
Proof.
  apply (cai_decision_tree 10 200 30 90 20); unfold is_byte; lia.
Defined.

Lemma middle_of_bounds a b c d m :
  middle_of a b c d m -> min4 a b c d <= m <= max4 a b c d.
Proof.
  intros (s0 & s1 & s2 & s3 & Hp & H01 & H12 & H23 & Hm).
  assert (forall x, x ∈ [s0; s1; s2; s3] -> min4 a b c d <= x <= max4 a b c d)
    as Hall.
  { intros x Hx. rewrite <- Hp in Hx. unfold min4, max4.
    repeat (apply elem_of_cons in Hx as [-> | Hx]); try lia.
    inversion Hx. }
  destruct Hm as [-> | ->]; apply Hall; rewrite !elem_of_cons; auto.
Qed.

(** C9. For four neighbour bytes and a non-negative threshold the byte
    [cai] returns lies between the minimum and the maximum of the
    neighbours, and none of the three conversions of a rounded mean to a
    byte truncates. *)
Theorem cai_between_min_max (N E S W T : Z) :
  is_byte N -> is_byte E -> is_byte S -> is_byte W -> 0 <= T ->
  min4 N E S W <= cai (B4 N E S W) T <= max4 N E S W /\
  to_byte (Z.quot (N + E + S + W + 2) 4) = Z.quot (N + E + S + W + 2) 4 /\
  to_byte (Z.quot (N + S + 1) 2) = Z.quot (N + S + 1) 2 /\
  to_byte (Z.quot (E + W + 1) 2) = Z.quot (E + W + 1) 2.
Proof.
  intros HN HE HS HW HT.
  destruct (avg4_byte N E S W HN HE HS HW) as [E4 B4'].
  destruct (avg2_byte N S HN HS) as [ENS BNS].
  destruct (avg2_byte E W HE HW) as [EEW BEW].
  split.
  - rewrite cai_unfold by assumption. unfold cai_spec.
    pose proof (middle_of_bounds _ _ _ _ _ (minmaxmedian_median N E S W)).
    repeat case_decide; try assumption; unfold min4, max4 in *; lia.
  - unfold is_byte in *.
    rewrite E4, ENS, EEW, !quot_div_nonneg by lia. auto.
Qed.

Lemma cai_between_min_max_witness :
  min4 10 200 30 90 <= cai (B4 10 200 30 90) 20 <= max4 10 200 30 90 /\
  to_byte (Z.quot (10 + 200 + 30 + 90 + 2) 4) = Z.quot (10 + 200 + 30 + 90 + 2) 4 /\
  to_byte (Z.quot (10 + 30 + 1) 2) = Z.quot (10 + 30 + 1) 2 /\
  to_byte (Z.quot (200 + 90 + 1) 2) = Z.quot (200 + 90 + 1) 2.
Proof.
  apply (cai_between_min_max 10 200 30 90 20); unfold is_byte; lia.
Defined.

(** ** Loops and slices *)

Lemma len_nonneg {A} (l : list A) : 0 <= len l.
Proof. unfold len. lia. Qed.

Lemma len_replicate {A} (z : A) (n : nat) : len (replicate n z) = Z.of_nat n.
Proof. unfold len. by rewrite length_replicate. Qed.

Lemma len_insert {A} (l : list A) (i : nat) (v : A) : len (<[i:=v]> l) = len l.
Proof. unfold len. by rewrite length_insert. Qed.

Lemma make_Ok {A} (z : A) (n : Z) :
  0 <= n -> make z n = Ok (replicate (Z.to_nat n) z).
Proof. intros. unfold make. destruct (Z.ltb_spec n 0); [lia | done]. Qed.

Lemma index_Ok {A} (l : list A) (i : Z) (x : A) :
  0 <= i -> l !! Z.to_nat i = Some x -> index l i = Ok x.
Proof.
  intros Hi Hl. unfold index. destruct (Z.ltb_spec i 0); [lia|]. by rewrite Hl.
Qed.

Lemma index_in_range {A} (l : list A) (i : Z) :
  0 <= i < len l -> exists x, index l i = Ok x /\ l !! Z.to_nat i = Some x.
Proof.
  intros Hi. unfold len in Hi.
  destruct (lookup_lt_is_Some_2 l (Z.to_nat i)) as [x Hx]; [lia|].
  exists x. split; [apply index_Ok; [lia | done] | done].
Qed.

Lemma assign_Ok {A} (l : list A) (i : Z) (v : A) :
  0 <= i < len l -> assign l i v = Ok (<[Z.to_nat i := v]> l).
Proof.
  intros Hi. unfold assign.
  destruct (Z.leb_spec 0 i), (Z.ltb_spec i (len l)); simpl; try lia; done.
Qed.

Lemma slice_to_Ok {A} (l : list A) (n : Z) :
  0 <= n <= len l -> slice_to l n = Ok (take (Z.to_nat n) l).
Proof.
  intros Hn. unfold slice_to.
  destruct (Z.leb_spec 0 n), (Z.leb_spec n (len l)); simpl; try lia; done.
Qed.

Lemma foldM_fmap {A B S} (body : B -> S -> result S) (f : A -> B)
  (xs : list A) (s : S) :
  foldM body (f <$> xs) s = foldM (fun x => body (f x)) xs s.
Proof.
  revert s. induction xs as [|x xs IH]; intros s; simpl; [done|].
  destruct (body (f x) s); simpl; auto.
Qed.

(** The invariant rule of a counted loop. *)
Lemma foldM_seq_inv {S} (P : nat -> S -> Prop) (body : nat -> S -> result S)
  (a n : nat) (s : S) :
  P a s ->
  (forall i s, (a <= i < a + n)%nat -> P i s ->
     exists s', body i s = Ok s' /\ P (Datatypes.S i) s') ->
  exists s', foldM body (seq a n) s = Ok s' /\ P (a + n)%nat s'.
Proof.
  revert a s. induction n as [|n IH]; intros a s HP Hstep; simpl.
  - exists s. by rewrite Nat.add_0_r.
  - destruct (Hstep a s) as (s1 & -> & HP1); [lia | done |]. simpl.
    destruct (IH (Datatypes.S a) s1) as (s2 & -> & HP2); [done | |].
    + intros i s' Hi. apply Hstep. lia.
    + exists s2. split; [done|]. by replace (a + Datatypes.S n)%nat
        with (Datatypes.S a + n)%nat by lia.
Qed.

Lemma foldM_range_inv {S} (P : Z -> S -> Prop) (body : Z -> S -> result S)
  (n : Z) (s : S) :
  0 <= n -> P 0 s ->
  (forall i s, 0 <= i < n -> P i s -> exists s', body i s = Ok s' /\ P (i + 1) s') ->
  exists s', foldM body (range n) s = Ok s' /\ P n s'.
Proof.
  intros Hn HP Hstep. unfold range. rewrite foldM_fmap.
  destruct (foldM_seq_inv (fun i => P (Z.of_nat i))
              (fun i => body (Z.of_nat i)) 0 (Z.to_nat n) s) as (s' & Hs' & HP').
  - done.
  - intros i s0 Hi HPi. destruct (Hstep (Z.of_nat i) s0) as (s1 & ? & ?);
      [lia | done |].
    exists s1. split; [done|]. by replace (Z.of_nat (Datatypes.S i))
      with (Z.of_nat i + 1) by lia.
  - exists s'. split; [done|]. by replace n with (Z.of_nat (0 + Z.to_nat n)) by lia.
Qed.

Lemma range2_range (n : Z) : range2 n = (fun i => 2 * i) <$> range ((n + 1) / 2).
Proof. unfold range2, range. rewrite <- list_fmap_compose. done. Qed.

Lemma foldM_range2_inv {S} (P : Z -> S -> Prop) (body : Z -> S -> result S)
  (m : Z) (s : S) :
  0 <= m -> P 0 s ->
  (forall i s, 0 <= i < m -> P i s ->
     exists s', body (2 * i) s = Ok s' /\ P (i + 1) s') ->
  exists s', foldM body (range2 (2 * m)) s = Ok s' /\ P m s'.
Proof.
  intros Hm HP Hstep. rewrite range2_range, foldM_fmap.
  replace ((2 * m + 1) / 2) with m by (Z.div_mod_to_equations; lia).
  by apply foldM_range_inv.
Qed.

(** The loop over [for i, v := range l]. *)
Lemma foldM_enumerate_inv {A S} (P : Z -> S -> Prop)
  (body : Z * A -> S -> result S) (l : list A) (s : S) :
  P 0 s ->
  (forall i v s, 0 <= i -> l !! Z.to_nat i = Some v -> P i s ->
     exists s', body (i, v) s = Ok s' /\ P (i + 1) s') ->
  exists s', foldM body (enumerate l) s = Ok s' /\ P (len l) s'.
Proof.
  unfold enumerate, len.
  assert (forall (k : nat) s,
    P (Z.of_nat k) s ->
    (forall i v s, l !! i = Some v -> P (Z.of_nat (k + i)) s ->
       exists s', body (Z.of_nat (k + i)%nat, v) s = Ok s'
                  /\ P (Z.of_nat (k + i) + 1) s') ->
    exists s', foldM body (imap (fun i x => (Z.of_nat (k + i), x)) l) s = Ok s'
               /\ P (Z.of_nat (k + length l)) s') as Hgen.
  { induction l as [|v l IH]; intros k s0 HP Hstep; simpl.
    - exists s0. by rewrite Nat.add_0_r.
    - destruct (Hstep 0%nat v s0) as (s1 & Hs1 & HP1);
        [done | by rewrite Nat.add_0_r |].
      rewrite Hs1. simpl.
      destruct (IH (Datatypes.S k) s1) as (s2 & Hs2 & HP2).
      + rewrite Nat.add_0_r in HP1. by replace (Z.of_nat (Datatypes.S k))
          with (Z.of_nat k + 1) by lia.
      + intros i w s' Hi HPi.
        replace (Datatypes.S k + i)%nat with (k + Datatypes.S i)%nat in * by lia.
        by apply Hstep.
      + exists s2. split.
        * rewrite <- Hs2. f_equal. apply imap_ext. intros i x _. simpl.
          do 2 f_equal. lia.
        * by replace (k + Datatypes.S (length l))%nat
            with (Datatypes.S k + length l)%nat by lia. }
  intros HP Hstep. apply (Hgen 0%nat s HP).
  intros i v s0 Hi HPi. simpl in *. apply Hstep; [lia | | done].
  by rewrite Nat2Z.id.
Qed.

Lemma bind_Ok_inv {A B} (m : result A) (f : A -> result B) (b : B) :
  m ≫= f = Ok b -> exists a, m = Ok a /\ f a = Ok b.
Proof. destruct m as [a| |]; simpl; [eauto | done | done]. Qed.

Lemma foldM_preserve {A S} (P : S -> Prop) (body : A -> S -> result S)
  (xs : list A) (s s' : S) :
  P s -> (forall x s s', P s -> body x s = Ok s' -> P s') ->
  foldM body xs s = Ok s' -> P s'.
Proof.
  intros HP Hstep. revert s HP. induction xs as [|x xs IH]; intros s HP; simpl.
  - by intros [= <-].
  - intros (s1 & H1 & H2)%bind_Ok_inv. eauto.
Qed.

(** ** NewImage *)

Lemma copy_at_nil {A} (lo : Z) (src : list A) : copy_at [] lo src = [].
Proof. unfold copy_at. simpl. by rewrite take_nil, drop_nil. Qed.

(** Whenever a dimension is odd, the image [NewImage] returns holds no
    pixel at all: the padded buffer is made with length 0. *)
Lemma NewImage_odd_empty data width height img :
  NewImage data width height = Ok img ->
  Z.rem width 2 <> 0 \/ Z.rem height 2 <> 0 ->
  Image.Image img = [].
Proof.
  unfold NewImage. intros H Hodd.
  destruct (negb _); [done|].
  destruct (Z.eqb_spec (Z.rem width 2) 0), (Z.eqb_spec (Z.rem height 2) 0);
    simpl in H; try lia.
  all: apply bind_Ok_inv in H as (padded & Hmk & H);
    unfold make_cap in Hmk; destruct (_ || _); [done|]; simpl in Hmk;
    injection Hmk as <-.
  1: by injection H as <-.
  all: apply bind_Ok_inv in H as (padded' & Hloop & H); injection H as <-; simpl;
    eapply (foldM_preserve (fun p => p = [])); [done | | exact Hloop];
    intros y s s' -> (? & _ & (? & _ & [= <-])%bind_Ok_inv)%bind_Ok_inv;
    apply copy_at_nil.
Qed.

(** C6. On the 1x1 image [7] the code returns a 2x2 image with both pad
    flags set but an empty pixel array, which is not the padded image the
    claim describes; on the 1x2 image [7; 8] it panics on the slice
    expression [padded[y*pw:]] of the second row. *)
Theorem NewImage_odd_loses_pixels :
  NewImage [7] 1 1 = Ok (Image.mk [] 2 2 true true) /\
  ~ padded_spec [7] 1 1 (Image.mk [] 2 2 true true) /\
  NewImage [7; 8] 1 2 = Panic.
Proof.
  split; [reflexivity|]. split; [|reflexivity].
  intros (_ & _ & Hlen & _). simpl in Hlen. discriminate.
Qed.

(** ** Compression *)

Lemma index_total `{Inhabited A} (l : list A) (i : Z) :
  0 <= i < len l -> index l i = Ok (l !!! Z.to_nat i).
Proof.
  intros Hi. destruct (index_in_range l i Hi) as (x & -> & Hx).
  by rewrite (list_lookup_total_correct _ _ _ Hx).
Qed.

Lemma foldM_total {A S} (P : S -> Prop) (body : A -> S -> result S)
  (xs : list A) (s : S) :
  P s ->
  (forall x s, x ∈ xs -> P s -> exists s', body x s = Ok s' /\ P s') ->
  exists s', foldM body xs s = Ok s' /\ P s'.
Proof.
  revert s. induction xs as [|x xs IH]; intros s HP Hstep; simpl.
  - eauto.
  - destruct (Hstep x s) as (s1 & -> & HP1); [by left | done |]. simpl.
    apply IH; [done|]. intros. apply Hstep; [by right | done].
Qed.

Lemma elem_of_range_from (lo hi j : Z) :
  j ∈ range_from lo hi -> lo <= j < hi.
Proof.
  unfold range_from. intros (i & -> & Hi%elem_of_seq)%list_elem_of_fmap. lia.
Qed.

Lemma elem_of_range (n j : Z) : j ∈ range n -> 0 <= j < n.
Proof.
  unfold range. intros (i & -> & Hi%elem_of_seq)%list_elem_of_fmap. lia.
Qed.

Lemma byte_add_is_byte a b : is_byte (byte_add a b).
Proof. unfold is_byte, byte_add. apply Z.mod_pos_bound. lia. Qed.

Lemma byte_sub_is_byte a b : is_byte (byte_sub a b).
Proof. unfold is_byte, byte_sub. apply Z.mod_pos_bound. lia. Qed.

Lemma byte_shl_is_byte a s : is_byte (byte_shl a s).
Proof. unfold is_byte, byte_shl. apply Z.mod_pos_bound. lia. Qed.

(** The first loop of [compress]: the differences of the pairs. *)
Lemma compress_diffs (half : list Z) (n : nat) :
  length half = (2 * n)%nat ->
  exists diffs,
    foldM (fun i diffs =>
             a ← index half (i + 1);
             b ← index half i;
             assign diffs (Z.quot i 2) (byte_sub a b))
          (range2 (len half)) (replicate n 0) = Ok diffs /\
    length diffs = n /\
    forall i, (i < n)%nat ->
      diffs !! i = Some (byte_sub (half !!! (2 * i + 1)%nat) (half !!! (2 * i)%nat)).
Proof.
  intros Hlen.
  assert (len half = 2 * Z.of_nat n) as Hl by (unfold len; lia).
  rewrite Hl.
  destruct (foldM_range2_inv
    (fun i (d : list Z) => length d = n /\
       forall j, (Z.of_nat j < i) ->
         d !! j = Some (byte_sub (half !!! (2 * j + 1)%nat) (half !!! (2 * j)%nat)))
    (fun i diffs =>
       a ← index half (i + 1); b ← index half i;
       assign diffs (Z.quot i 2) (byte_sub a b))
    (Z.of_nat n) (replicate n 0)) as (d & Hd & Hlen' & Hd').
  - lia.
  - cbv beta. split; [by rewrite length_replicate | intros; lia].
  - cbv beta. intros i d Hi [Hdl Hdj].
    rewrite !index_total by lia. simpl.
    rewrite Z.mul_comm, Z.quot_mul by lia.
    rewrite assign_Ok by (unfold len; lia).
    eexists. split; [done|]. split; [by rewrite length_insert|].
    intros j Hj. destruct (decide (j = Z.to_nat i)) as [->|Hne].
    + rewrite list_lookup_insert_eq by lia. do 3 f_equal; lia.
    + rewrite list_lookup_insert_ne by lia. apply Hdj. lia.
  - exists d. split; [done|]. split; [done|]. intros i Hi. apply Hd'. lia.
Qed.

Lemma accumulate_Ok (diffs : list Z) (q : Z) :
  exists d, accumulate diffs q = Ok d /\ length d = 256%nat.
Proof.
  unfold accumulate. rewrite make_Ok by lia. simpl.
  apply (foldM_total (fun d : list Z => length d = 256%nat)).
  - done.
  - intros v d _ Hd. apply (foldM_total (fun d : list Z => length d = 256%nat));
      [done|].
    intros j d' _ Hd'.
    pose proof (byte_add_is_byte (byte_shl (byte_shr v (TrailingZeros8 q))
                                    (TrailingZeros8 q)) j) as Hb.
    unfold is_byte in Hb.
    rewrite index_total by (unfold len; lia). simpl.
    rewrite assign_Ok by (unfold len; lia).
    eexists. split; [done|]. by rewrite length_insert.
Qed.

Lemma makeQtable_Ok (distortions : list Z) (q : Z) :
  length distortions = 256%nat -> q <= 256 ->
  exists t, makeQtable distortions q = Ok t /\
    len t = Z.shiftr 256 (to_byte (TrailingZeros8 q)) /\ Forall is_byte t.
Proof.
  intros Hd Hq. unfold makeQtable.
  set (logq := to_byte (TrailingZeros8 q)).
  assert (0 <= Z.shiftr 256 logq) as Hnn by (apply Z.shiftr_nonneg; lia).
  rewrite make_Ok by done. simpl.
  set (L := Z.to_nat (Z.shiftr 256 logq)).
  pose (P := fun t : list Z => length t = L /\ Forall is_byte t).
  destruct (foldM_total P
    (fun k qtable =>
       qtable ← assign qtable k (byte_shl (to_byte k) logq);
       foldM (fun j qtable =>
                dj ← index distortions j;
                qk ← index qtable k;
                dq ← index distortions qk;
                if dj <? dq
                then assign qtable k (byte_add (byte_shl (to_byte k) logq) j)
                else Ok qtable)
             (range_from 1 q) qtable)
    (range (len (replicate L 0))) (replicate L 0)) as (t & Ht & Htl & Htb).
  - split; [by rewrite length_replicate|]. apply Forall_replicate.
    unfold is_byte; lia.
  - intros k t Hk%elem_of_range [Htl Htb]. rewrite len_replicate in Hk.
    rewrite assign_Ok by (unfold len; lia). simpl.
    apply (foldM_total P).
    + split; [by rewrite length_insert|].
      apply Forall_insert; [done | apply byte_shl_is_byte].
    + intros j t' Hj%elem_of_range_from [Htl' Htb'].
      assert (is_byte (t' !!! Z.to_nat k)) as Hb.
      { eapply Forall_lookup_1; [exact Htb'|].
        apply list_lookup_lookup_total_lt. lia. }
      unfold is_byte in Hb.
      rewrite (index_total t') by (unfold len; lia). simpl.
      rewrite !index_total by (unfold len; lia). simpl.
      destruct (_ <? _).
      * rewrite assign_Ok by (unfold len; lia). eexists. split; [done|].
        split; [by rewrite length_insert|].
        apply Forall_insert; [done | apply byte_add_is_byte].
      * eexists. split; [done|]. done.
  - exists t. split; [done|]. split; [|done]. unfold len. lia.
Qed.

Lemma compress_qdiffs (diffs : list Z) (logq : Z) :
  exists qdiffs,
    foldM (fun '(i, v) qdiffs => assign qdiffs i (byte_shr v logq))
          (enumerate diffs) (replicate (length diffs) 0) = Ok qdiffs /\
    length qdiffs = length diffs /\
    forall i, (i < length diffs)%nat ->
      qdiffs !! i = Some (byte_shr (diffs !!! i) logq).
Proof.
  destruct (foldM_enumerate_inv
    (fun i (d : list Z) => length d = length diffs /\
       forall j, (Z.of_nat j < i) -> d !! j = Some (byte_shr (diffs !!! j) logq))
    (fun '(i, v) qdiffs => assign qdiffs i (byte_shr v logq))
    diffs (replicate (length diffs) 0)) as (d & Hd & Hlen' & Hd').
  - split; [by rewrite length_replicate | intros; lia].
  - cbv beta. intros i v d Hi Hv [Hdl Hdj].
    apply lookup_lt_Some in Hv as Hlt.
    rewrite assign_Ok by (unfold len; lia).
    eexists. split; [done|]. split; [by rewrite length_insert|].
    intros j Hj. destruct (decide (j = Z.to_nat i)) as [->|Hne].
    + rewrite list_lookup_insert_eq by lia.
      by rewrite (list_lookup_total_correct _ _ _ Hv).
    + rewrite list_lookup_insert_ne by lia. apply Hdj. lia.
  - exists d. split; [done|]. split; [done|]. intros i Hi. apply Hd'.
    unfold len. lia.
Qed.

Lemma compress_quarter (half : list Z) (n : nat) :
  length half = (2 * n)%nat ->
  exists quarter,
    foldM (fun i quarterimage =>
             a ← index half (2 * i);
             assign quarterimage i a)
          (range (Z.of_nat n)) (replicate n 0) = Ok quarter /\
    length quarter = n /\
    forall i, (i < n)%nat -> quarter !! i = Some (half !!! (2 * i)%nat).
Proof.
  intros Hlen.
  destruct (foldM_range_inv
    (fun i (d : list Z) => length d = n /\
       forall j, (Z.of_nat j < i) -> d !! j = Some (half !!! (2 * j)%nat))
    (fun i quarterimage => a ← index half (2 * i); assign quarterimage i a)
    (Z.of_nat n) (replicate n 0)) as (d & Hd & Hlen' & Hd').
  - lia.
  - split; [by rewrite length_replicate | intros; lia].
  - cbv beta. intros i d Hi [Hdl Hdj].
    rewrite index_total by (unfold len; lia). simpl.
    rewrite assign_Ok by (unfold len; lia).
    eexists. split; [done|]. split; [by rewrite length_insert|].
    intros j Hj. destruct (decide (j = Z.to_nat i)) as [->|Hne].
    + rewrite list_lookup_insert_eq by lia. do 2 f_equal. lia.
    + rewrite list_lookup_insert_ne by lia. apply Hdj. lia.
  - exists d. split; [done|]. split; [done|]. intros i Hi. apply Hd'. lia.
Qed.

(** What [compress] returns on a half image of [n] pairs when the
    quantization passes the check. *)
Lemma compress_spec (img : EncryptedImage.t) (q : Z) (n : nat) :
  length (EncryptedImage.Halfimage img) = (2 * n)%nat ->
  OnesCount8 q = 1 -> q <= 256 ->
  exists quarter qdiffs d qtable,
    compress img q =
      Ok (compressedImage.mk quarter qtable qdiffs (EncryptedImage.Salt img)
            (EncryptedImage.Width img) (EncryptedImage.Height img)
            (EncryptedImage.PadHeight img) (EncryptedImage.PadHeight img)) /\
    length quarter = n /\ length qdiffs = n /\
    (forall i, (i < n)%nat ->
       quarter !! i = Some (EncryptedImage.Halfimage img !!! (2 * i)%nat)) /\
    (forall i, (i < n)%nat ->
       qdiffs !! i =
         Some (byte_shr
                 (byte_sub (EncryptedImage.Halfimage img !!! (2 * i + 1)%nat)
                    (EncryptedImage.Halfimage img !!! (2 * i)%nat))
                 (TrailingZeros8 q))) /\
    length d = 256%nat /\ makeQtable d q = Ok qtable.
Proof.
  intros Hlen Hq Hq'. unfold compress.
  destruct (compress_diffs _ n Hlen) as (diffs & Hdiffs & Hdl & Hdv).
  assert (len (EncryptedImage.Halfimage img) = 2 * Z.of_nat n) as Hl
    by (unfold len; lia).
  assert (Z.quot (len (EncryptedImage.Halfimage img)) 2 = Z.of_nat n) as ->
    by (rewrite Hl, Z.mul_comm, Z.quot_mul; lia).
  rewrite make_Ok by lia. cbn [mbind result_bind]. rewrite Nat2Z.id.
  rewrite Hdiffs. cbn [mbind result_bind].
  rewrite Hq. cbn [negb Z.eqb Pos.eqb].
  destruct (accumulate_Ok diffs q) as (d & -> & Hd). cbn [mbind result_bind].
  destruct (compress_qdiffs diffs (TrailingZeros8 q)) as (qdiffs & Hqd & Hql & Hqv).
  rewrite make_Ok by apply len_nonneg. cbn [mbind result_bind].
  replace (Z.to_nat (len diffs)) with (length diffs) by (unfold len; lia).
  rewrite Hqd. cbn [mbind result_bind].
  destruct (compress_quarter _ n Hlen) as (quarter & Hqu & Hqul & Hquv).
  rewrite len_replicate, Hdl, Hqu. cbn [mbind result_bind].
  destruct (makeQtable_Ok d q Hd Hq') as (t & Ht & _). rewrite Ht.
  cbn [mbind result_bind].
  exists quarter, qdiffs, d, t. repeat split; try done; try lia.
  intros i Hi. rewrite Hqv by lia. do 2 f_equal.
  apply list_lookup_total_correct. by apply Hdv.
Qed.

(** ** The quantization check *)

Lemma OnesCount8_table :
  forallb (fun q => Bool.eqb (OnesCount8 q =? 1)
                      (existsb (Z.eqb q) [1; 2; 4; 8; 16; 32; 64; 128]))
          (range 256) = true.
Proof. vm_compute. reflexivity. Qed.

Lemma OnesCount8_one (q : Z) :
  0 <= q < 256 ->
  (OnesCount8 q = 1 <-> q ∈ [1; 2; 4; 8; 16; 32; 64; 128]).
Proof.
  intros Hq. pose proof OnesCount8_table as Ht.
  rewrite forallb_forall in Ht. specialize (Ht q).
  rewrite <- Z.eqb_eq.
  assert (In q (range 256)) as Hin.
  { unfold range. apply in_map_iff. exists (Z.to_nat q).
    split; [lia|]. apply in_seq. lia. }
  apply Ht, Bool.eqb_prop in Hin. rewrite Hin.
  rewrite existsb_exists. split.
  - intros (x & Hx%list_elem_of_In & ->%Z.eqb_eq). done.
  - intros Hx. exists q. split; [by apply list_elem_of_In | apply Z.eqb_refl].
Qed.

Lemma power_of_two_byte (q : Z) :
  0 <= q < 256 ->
  (power_of_two q <-> q ∈ [1; 2; 4; 8; 16; 32; 64; 128]).
Proof.
  intros Hq. split.
  - intros (k & Hk & ->).
    assert (k < 8) as Hk8.
    { destruct (Z.lt_ge_cases k 8) as [|Hge]; [done|].
      pose proof (Z.pow_le_mono_r 2 8 k ltac:(lia) Hge). lia. }
    assert (k = 0 \/ k = 1 \/ k = 2 \/ k = 3 \/ k = 4 \/ k = 5 \/ k = 6 \/ k = 7)
      as Hcases by lia.
    repeat destruct Hcases as [-> | Hcases]; try subst k; simpl;
      rewrite !elem_of_cons; auto 10.
  - rewrite !elem_of_cons, elem_of_nil.
    intros [->|[->|[->|[->|[->|[->|[->|[->|[]]]]]]]]];
      [exists 0 | exists 1 | exists 2 | exists 3 | exists 4 | exists 5
      | exists 6 | exists 7]; split; (lia || reflexivity).
Qed.

Lemma compress_invalid (img : EncryptedImage.t) (q : Z) (n : nat) :
  length (EncryptedImage.Halfimage img) = (2 * n)%nat ->
  OnesCount8 q <> 1 ->
  compress img q = Err "quantization must be power of 2".
Proof.
  intros Hlen Hq. unfold compress.
  destruct (compress_diffs _ n Hlen) as (diffs & Hdiffs & _).
  assert (Z.quot (len (EncryptedImage.Halfimage img)) 2 = Z.of_nat n) as ->.
  { unfold len. rewrite Hlen, Nat2Z.inj_mul, Z.mul_comm, Z.quot_mul; lia. }
  rewrite make_Ok by lia. cbn [mbind result_bind]. rewrite Nat2Z.id.
  rewrite Hdiffs. cbn [mbind result_bind].
  by destruct (Z.eqb_spec (OnesCount8 q) 1).
Qed.

(** C8. For an encrypted image (a half image of two bytes per block) and
    a [uint8] quantization q, [compress] returns an error exactly when q
    is zero or not a power of two, and [Compress] returns that error as
    well (with a codec that round-trips, in no other case); otherwise
    [compress] returns a compressed image.  The values that pass are
    exactly 1, 2, 4, ..., 128, and no byte above 128 is a power of two. *)
Theorem compress_error_iff `{fselib} (img : EncryptedImage.t) (q : Z) :
  0 <= q < 256 ->
  Nat.Even (length (EncryptedImage.Halfimage img)) ->
  ((q = 0 \/ ~ power_of_two q) <-> exists e, compress img q = Err e) /\
  ((q = 0 \/ ~ power_of_two q) -> exists e, Compress img q = Err e) /\
  (fselib_roundtrip ->
   ((q = 0 \/ ~ power_of_two q) <-> exists e, Compress img q = Err e)) /\
  (~ (q = 0 \/ ~ power_of_two q) <-> exists c, compress img q = Ok c) /\
  (~ (q = 0 \/ ~ power_of_two q) <-> q ∈ [1; 2; 4; 8; 16; 32; 64; 128]) /\
  (128 < q -> ~ power_of_two q).
Proof.
  intros Hq [n Hn].
  pose proof (power_of_two_byte q Hq) as Hpow.
  pose proof (OnesCount8_one q Hq) as Hones.
  assert (~ power_of_two 0) as H0.
  { intros (k & Hk & Hk'). pose proof (Z.pow_pos_nonneg 2 k). lia. }
  assert ((q = 0 \/ ~ power_of_two q) <-> OnesCount8 q <> 1) as Hinv.
  { rewrite Hones, <- Hpow. split; [intros [-> | ?]; auto | auto]. }
  assert (OnesCount8 q <> 1 -> compress img q = Err "quantization must be power of 2")
    as Herr by (apply (compress_invalid img q n); lia).
  assert (OnesCount8 q = 1 -> exists c, compress img q = Ok c) as Hok.
  { intros H1. destruct (compress_spec img q n) as (a & b & c & d & -> & _);
      [lia | done | lia | eauto]. }
  repeat split.
  - intros ?%Hinv. eauto.
  - intros [e He]. apply Hinv. intros H1. destruct (Hok H1) as [c Hc]. congruence.
  - intros ?%Hinv. unfold Compress. rewrite Herr by done. simpl. eauto.
  - intros ?%Hinv. unfold Compress. rewrite Herr by done. simpl. eauto.
  - intros [e He]. apply Hinv. intros Hone. destruct (Hok Hone) as [c Hc].
    unfold Compress in He. rewrite Hc in He. cbn [mbind result_bind] in He.
    rewrite make_Ok in He by apply len_nonneg. cbn [mbind result_bind] in He.
    destruct (roundtrip (compressedImage.Qdiffs c)) as (k & dst & Hk & Hr & _).
    unfold len at 1 in He. rewrite Nat2Z.id, Hk in He.
    cbn [mbind result_bind] in He. rewrite slice_to_Ok in He by done.
    discriminate.
  - intros Hv. apply Hok. rewrite Hinv in Hv.
    destruct (decide (OnesCount8 q = 1)); [done | tauto].
  - intros [c Hc] ?%Hinv. rewrite Herr in Hc by done. done.
  - intros Hv. destruct (decide (q ∈ [1; 2; 4; 8; 16; 32; 64; 128]));
      [done|]. exfalso. apply Hv. right. by rewrite Hpow.
  - intros Hin [-> | Hn']; [|by apply Hn', Hpow].
    rewrite !elem_of_cons, elem_of_nil in Hin. lia.
  - intros Hgt Hp%Hpow. rewrite !elem_of_cons, elem_of_nil in Hp. lia.
Qed.

Lemma compress_error_iff_witness :
  let img := EncryptedImage.mk [0; 3; 0; 0] 2 4 false false (replicate 16 0) in
  ((6 = 0 \/ ~ power_of_two 6) <-> exists e, compress img 6 = Err e) /\
  ((6 = 0 \/ ~ power_of_two 6) -> exists e, @Compress stored img 6 = Err e) /\
  (@fselib_roundtrip stored ->
   ((6 = 0 \/ ~ power_of_two 6) <-> exists e, @Compress stored img 6 = Err e)) /\
  (~ (6 = 0 \/ ~ power_of_two 6) <-> exists c, compress img 6 = Ok c) /\
  (~ (6 = 0 \/ ~ power_of_two 6) <-> 6 ∈ [1; 2; 4; 8; 16; 32; 64; 128]) /\
  (128 < 6 -> ~ power_of_two 6).
Proof.
  apply (@compress_error_iff stored
           (EncryptedImage.mk [0; 3; 0; 0] 2 4 false false (replicate 16 0)) 6).
  - lia.
  - exists 2%nat. reflexivity.
Defined.

(** ** The keystream source and [math/rand] *)

Lemma lor_shiftl_add (hi lo k : Z) :
  0 <= k -> 0 <= lo < 2 ^ k -> Z.lor (Z.shiftl hi k) lo = hi * 2 ^ k + lo.
Proof.
  intros Hk Hlo. rewrite <- Z.shiftl_mul_pow2 by done.
  rewrite <- Z.add_lor_land.
  assert (Z.land (Z.shiftl hi k) lo = 0) as ->; [|lia].
  apply Z.bits_inj'. intros i Hi. rewrite Z.land_spec, Z.bits_0.
  destruct (Z.lt_ge_cases i k).
  - by rewrite Z.shiftl_spec_low.
  - rewrite <- (Z.mod_small lo (2 ^ k)) by done.
    rewrite Z.mod_pow2_bits_high by lia. apply andb_false_r.
Qed.

Lemma Int63_advance (src : Reader) : (Int63 src).2 = advance src 8.
Proof. reflexivity. Qed.

Lemma Int63_big_endian (src : Reader) :
  (forall i, is_byte (stream src i)) ->
  (Int63 src).1 = big_endian63 src /\ 0 <= (Int63 src).1 < 2 ^ 63.
Proof.
  intros Hb. unfold Int63, big_endian63. cbn.
  pose proof (Hb (pos src + 0)%nat) as H0. pose proof (Hb (pos src + 1)%nat) as H1.
  pose proof (Hb (pos src + 2)%nat) as H2. pose proof (Hb (pos src + 3)%nat) as H3.
  pose proof (Hb (pos src + 4)%nat) as H4. pose proof (Hb (pos src + 5)%nat) as H5.
  pose proof (Hb (pos src + 6)%nat) as H6. pose proof (Hb (pos src + 7)%nat) as H7.
  unfold is_byte in *.
  change 127 with (Z.ones 7). rewrite Z.land_ones by lia.
  change (2 ^ 7) with 128.
  pose proof (Z.mod_pos_bound (stream src (pos src + 0)) 128 ltac:(lia)) as Hm.
  rewrite (lor_shiftl_add _ _ 8) by lia.
  rewrite (lor_shiftl_add _ _ 16) by lia.
  rewrite (lor_shiftl_add _ _ 24) by lia.
  rewrite (lor_shiftl_add _ _ 32) by lia.
  rewrite (lor_shiftl_add _ _ 40) by lia.
  rewrite (lor_shiftl_add _ _ 48) by lia.
  rewrite (lor_shiftl_add _ _ 56) by lia.
  lia.
Qed.

Lemma draw31_advance (src : Reader) (j : nat) :
  draw31 (advance src 8) j = draw31 src (Datatypes.S j).
Proof.
  unfold draw31, advance. cbn [stream pos].
  by replace (pos src + 8 + 8 * j)%nat with (pos src + 8 * Datatypes.S j)%nat by lia.
Qed.

Lemma Int31_draw (src : Reader) : rand.Int31 src = (draw31 src 0, advance src 8).
Proof.
  unfold draw31. replace (pos src + 8 * 0)%nat with (pos src) by lia.
  by destruct src.
Qed.

Lemma draw31_range (src : Reader) (j : nat) :
  (forall i, is_byte (stream src i)) ->
  draw31 src j = (Int63 (advance src (8 * j))).1 / 2 ^ 32 /\
  0 <= draw31 src j < 2 ^ 31.
Proof.
  intros Hb. unfold draw31, rand.Int31.
  change (mkReader (stream src) (pos src + 8 * j)) with (advance src (8 * j)).
  destruct (Int63_big_endian (advance src (8 * j)) Hb) as [_ Hr].
  destruct (Int63 (advance src (8 * j))) as [v s]. simpl in *.
  rewrite Z.shiftr_div_pow2 by lia. split; [done|].
  Z.div_mod_to_equations. lia.
Qed.

(** The rejection loop stops at the first draw that does not exceed
    [max], having consumed eight bytes per draw. *)
Lemma retry_first_accepted (k fuel : nat) (max : Z) (src : Reader) :
  (forall j, (j < k)%nat -> draw31 src j > max) ->
  draw31 src k <= max ->
  (k < fuel)%nat ->
  rand.retry fuel rand.Int31 max src
    = Some (draw31 src k, advance src (8 * (k + 1))).
Proof.
  revert fuel src. induction k as [|k IH]; intros fuel src Hrej Hacc Hfuel.
  - destruct fuel as [|fuel]; [lia|]. cbn [rand.retry]. rewrite Int31_draw.
    destruct (Z.gtb_spec (draw31 src 0) max); [lia | reflexivity].
  - destruct fuel as [|fuel]; [lia|]. cbn [rand.retry]. rewrite Int31_draw.
    destruct (Z.gtb_spec (draw31 src 0) max) as [_|Hle].
    + rewrite (IH fuel (advance src 8)).
      * rewrite draw31_advance. do 2 f_equal. unfold advance. cbn [stream pos].
        f_equal. lia.
      * intros j Hj. rewrite draw31_advance. apply Hrej. lia.
      * rewrite draw31_advance. exact Hacc.
      * lia.
    + specialize (Hrej 0%nat). lia.
Qed.

Lemma land_bound (a b : Z) : 0 <= a -> 0 <= b -> 0 <= Z.land a b <= b.
Proof.
  intros Ha Hb. split; [apply Z.land_nonneg; auto|].
  rewrite <- (Z2N.id a), <- (Z2N.id b) at 1 by done.
  rewrite <- N2Z.inj_land.
  pose proof (N.land_le_r (Z.to_N a) (Z.to_N b)). lia.
Qed.

(** Whatever the rejection loop returns is one of the 31-bit draws, and
    the keystream has advanced by eight bytes per draw made. *)
Lemma retry_returns_a_draw (fuel : nat) (max : Z) (src src' : Reader) (v : Z) :
  rand.retry fuel rand.Int31 max src = Some (v, src') ->
  exists j, v = draw31 src j /\ src' = advance src (8 * (j + 1)).
Proof.
  revert src. induction fuel as [|fuel IH]; intros src; [done|].
  cbn [rand.retry]. rewrite Int31_draw.
  destruct (Z.gtb_spec (draw31 src 0) max) as [_|_].
  - intros (j & -> & ->)%IH. exists (S j). rewrite draw31_advance.
    split; [done|]. unfold advance. cbn [stream pos]. f_equal. lia.
  - intros [= <- <-]. by exists 0%nat.
Qed.

(** [rand.Intn] honours the contract the codec relies on: whenever it
    returns, the result lies in [0, n). *)
Lemma rand_Intn_contract (fuel : nat) (src src' : Reader) (n v : Z) :
  (forall i, is_byte (stream src i)) ->
  1 <= n <= 2 ^ 31 - 1 ->
  rand.Intn fuel src n = Some (Ok (v, src')) ->
  0 <= v < n /\ exists j, src' = advance src (8 * (j + 1)).
Proof.
  intros Hb Hn. unfold rand.Intn, rand.Int31n.
  destruct (Z.leb_spec n 0); [lia|].
  destruct (Z.leb_spec n (2 ^ 31 - 1)); [|lia].
  destruct (Z.eqb_spec (Z.land n (n - 1)) 0) as [Hpow|Hnpow].
  - rewrite Int31_draw. intros [= <- <-].
    destruct (draw31_range src 0 Hb) as [_ Hd].
    pose proof (land_bound (draw31 src 0) (n - 1)).
    split; [lia | by exists 0%nat].
  - destruct (rand.retry fuel rand.Int31 _ src) as [[w s]|] eqn:Hretry; [|done].
    cbn [mbind option_bind]. intros [= <- <-].
    apply retry_returns_a_draw in Hretry as (j & -> & ->).
    destruct (draw31_range src j Hb) as [_ Hd].
    rewrite Z.rem_mod_nonneg by lia.
    split; [apply Z.mod_pos_bound; lia | by exists j].
Qed.

(** C4, as the claim states it, fails: on the keystream whose first eight
    bytes are 0 0 0 0 0 0 0 1 and the bound 3 the 63-bit integer is 1, so
    the claim gives 1 mod 3 = 1, while [Intn] reduces the top 31 bits
    (which are 0) and returns 0. *)
Lemma Intn_is_not_Int63_mod_n :
  ~ (forall (src : Reader) (n : Z) (fuel : nat),
       (forall i, is_byte (stream src i)) -> 1 <= n -> (0 < fuel)%nat ->
       rand.Intn fuel src n = Some (Ok (bounded_spec src n))).
Proof.
  intros H.
  specialize (H (mkReader (fun i => if (i =? 7)%nat then 1 else 0) 0%nat) 3 1%nat).
  assert (forall i : nat, is_byte (if (i =? 7)%nat then 1 else 0)) as Hb.
  { intros i. unfold is_byte. destruct (i =? 7)%nat; lia. }
  specialize (H Hb ltac:(lia) ltac:(lia)).
  apply (f_equal (fun r => match r with
                           | Some (Ok (v, _)) => v
                           | _ => -1
                           end)) in H.
  vm_compute in H. discriminate.
Qed.

(** C4, amended. [source.Int63] is the next eight keystream bytes
    assembled big-endian with the top bit of the first byte masked off, a
    non-negative integer below 2^63, and consumes exactly eight bytes.
    The bounded integer [Intn(n)], for 1 <= n < 2^31, is taken from the
    top 31 bits of such draws: when n & (n-1) = 0 (a power of two) it is
    those bits masked with n-1, after one draw; otherwise the draws whose
    top 31 bits exceed 2^31 - 1 - (2^31 mod n) are rejected and it is the
    top 31 bits of the first accepted draw modulo n, eight bytes being
    consumed per draw made.  In both cases it lies in [0, n). *)
Theorem Intn_from_keystream (src : Reader) (n : Z) (k fuel : nat) :
  (forall i, is_byte (stream src i)) ->
  1 <= n <= 2 ^ 31 - 1 ->
  (forall j, (j < k)%nat -> draw31 src j > reject_bound n) ->
  draw31 src k <= reject_bound n ->
  (k < fuel)%nat ->
  (Int63 src).1 = big_endian63 src /\
  0 <= (Int63 src).1 < 2 ^ 63 /\
  (Int63 src).2 = advance src 8 /\
  draw31 src 0 = (Int63 src).1 / 2 ^ 32 /\
  exists v src',
    rand.Intn fuel src n = Some (Ok (v, src')) /\
    0 <= v < n /\
    if Z.land n (n - 1) =? 0
    then v = Z.land (draw31 src 0) (n - 1) /\ src' = advance src 8
    else v = draw31 src k mod n /\ src' = advance src (8 * (k + 1)).
Proof.
  intros Hb Hn Hrej Hacc Hfuel.
  destruct (Int63_big_endian src Hb) as [Hbe Hr].
  split; [done|]. split; [done|]. split; [apply Int63_advance|].
  split.
  { pose proof (Int31_draw src) as E. unfold rand.Int31 in E.
    destruct (Int63 src) as [v s]. injection E as E _. cbn [fst].
    rewrite <- E. apply Z.shiftr_div_pow2. lia. }
  unfold rand.Intn.
  destruct (Z.leb_spec n 0); [lia|].
  destruct (Z.leb_spec n (2 ^ 31 - 1)); [|lia].
  unfold rand.Int31n.
  destruct (Z.leb_spec n 0); [lia|].
  destruct (Z.eqb_spec (Z.land n (n - 1)) 0) as [Hpow|Hnpow].
  - rewrite Int31_draw. eexists _, _. split; [reflexivity|]. split; [|done].
    destruct (draw31_range src 0 Hb) as [_ Hd].
    pose proof (land_bound (draw31 src 0) (n - 1)). lia.
  - fold (reject_bound n).
    rewrite (retry_first_accepted k fuel (reject_bound n) src Hrej Hacc Hfuel).
    cbn [mbind option_bind].
    destruct (draw31_range src k Hb) as [_ Hd].
    rewrite Z.rem_mod_nonneg by lia.
    eexists _, _. split; [reflexivity|]. split; [|done].
    apply Z.mod_pos_bound. lia.
Qed.

Lemma Intn_from_keystream_witness :
  let src := mkReader (fun i => if (i <? 8)%nat then 255 else 7) 0%nat in
  (Int63 src).1 = big_endian63 src /\
  0 <= (Int63 src).1 < 2 ^ 63 /\
  (Int63 src).2 = advance src 8 /\
  draw31 src 0 = (Int63 src).1 / 2 ^ 32 /\
  exists v src',
    rand.Intn 2 src 3 = Some (Ok (v, src')) /\
    0 <= v < 3 /\
    if Z.land 3 (3 - 1) =? 0
    then v = Z.land (draw31 src 0) (3 - 1) /\ src' = advance src 8
    else v = draw31 src 1 mod 3 /\ src' = advance src (8 * (1 + 1)).
Proof.
  apply (Intn_from_keystream
           (mkReader (fun i => if (i <? 8)%nat then 255 else 7) 0%nat) 3 1 2).
  - intros i. unfold is_byte. cbn [stream]. destruct (i <? 8)%nat; lia.
  - lia.
  - intros j Hj. assert (j = 0%nat) as -> by lia. vm_compute. reflexivity.
  - vm_compute. discriminate.
  - lia.
Defined.

(** ** The permutation and its inverse *)

Section Swaps.
Context {A : Type}.
Implicit Types l : list A.

Lemma length_lswap l i j : length (lswap l i j) = length l.
Proof.
  unfold lswap. destruct (l !! i), (l !! j); try done.
  by rewrite !length_insert.
Qed.

Lemma transpose_involutive i j k : transpose i j (transpose i j k) = k.
Proof. unfold transpose. repeat case_decide; congruence. Qed.

Lemma transpose_lt i j k n :
  (i < n)%nat -> (j < n)%nat -> (k < n)%nat -> (transpose i j k < n)%nat.
Proof. unfold transpose. repeat case_decide; lia. Qed.

Lemma lookup_lswap l i j k :
  (i < length l)%nat -> (j < length l)%nat ->
  lswap l i j !! k = l !! transpose i j k.
Proof.
  intros Hi Hj. unfold lswap, transpose.
  destruct (lookup_lt_is_Some_2 l i Hi) as [x Hx].
  destruct (lookup_lt_is_Some_2 l j Hj) as [y Hy].
  rewrite Hx, Hy.
  destruct (decide (k = j)) as [->|Hkj].
  - by rewrite list_lookup_insert_eq by (rewrite length_insert; lia).
  - rewrite list_lookup_insert_ne by done.
    destruct (decide (k = i)) as [->|Hki].
    + by rewrite list_lookup_insert_eq by lia.
    + by rewrite list_lookup_insert_ne by done.
Qed.

Lemma lswap_elem_of l i j x :
  (i < length l)%nat -> (j < length l)%nat ->
  x ∈ lswap l i j <-> x ∈ l.
Proof.
  intros Hi Hj. rewrite !list_elem_of_lookup. split; intros [k Hk].
  - exists (transpose i j k). by rewrite <- lookup_lswap.
  - exists (transpose i j k).
    by rewrite lookup_lswap, transpose_involutive.
Qed.

Lemma lswap_NoDup l i j :
  (i < length l)%nat -> (j < length l)%nat ->
  NoDup l -> NoDup (lswap l i j).
Proof.
  intros Hi Hj. rewrite !NoDup_alt. intros Hnd a b x Ha Hb.
  rewrite lookup_lswap in Ha, Hb by done.
  pose proof (Hnd _ _ _ Ha Hb) as E.
  apply (f_equal (transpose i j)) in E.
  by rewrite !transpose_involutive in E.
Qed.

Lemma swap_Ok l (i j : Z) :
  0 <= i < len l -> 0 <= j < len l ->
  swap l i j = Ok (lswap l (Z.to_nat i) (Z.to_nat j)).
Proof.
  intros Hi Hj. unfold swap, lswap.
  destruct (index_in_range l j Hj) as (x & -> & Hx).
  destruct (index_in_range l i Hi) as (y & -> & Hy).
  cbn [mbind result_bind]. rewrite assign_Ok by done. cbn [mbind result_bind].
  rewrite assign_Ok by (by rewrite len_insert).
  by rewrite Hx, Hy.
Qed.

Lemma length_apply_swaps off vs l :
  length (apply_swaps off vs l) = length l.
Proof.
  revert off l. induction vs as [|v vs IH]; intros off l; simpl; [done|].
  by rewrite IH, length_lswap.
Qed.

End Swaps.

Lemma lswap_fmap {A B} (f : A -> B) (l : list A) (i j : nat) :
  f <$> lswap l i j = lswap (f <$> l) i j.
Proof.
  unfold lswap. rewrite !list_lookup_fmap.
  destruct (l !! i), (l !! j); simpl; try done.
  by rewrite !list_fmap_insert.
Qed.

Lemma apply_swaps_fmap {A B} (f : A -> B) (off : nat) (vs : list Z) (l : list A) :
  f <$> apply_swaps off vs l = apply_swaps off vs (f <$> l).
Proof.
  revert off l. induction vs as [|v vs IH]; intros off l; simpl; [done|].
  by rewrite IH, lswap_fmap.
Qed.

Lemma draws_in_range `{RandLaws R} (m : nat) (rng : R) :
  in_range 0 m (draws m rng).1.
Proof.
  revert rng. induction m as [|m IH]; intros rng.
  - split; [done | intros i v; simpl; by rewrite lookup_nil].
  - cbn [draws].
    pose proof (Intn_range rng (Z.of_nat (S m)) ltac:(lia)) as Hv.
    destruct (Intn rng (Z.of_nat (S m))) as [v rng1].
    specialize (IH rng1). destruct (draws m rng1) as [vs rng2].
    destruct IH as [Hl Hr]. cbn [fst] in *. split.
    + simpl. rewrite Hl. lia.
    + intros [|i] w; simpl.
      * intros [= <-]. lia.
      * intros Hw. apply Hr in Hw. lia.
Qed.

Lemma in_range_cons off m v vs :
  in_range off m (v :: vs) ->
  (off < m)%nat /\ 0 <= v < Z.of_nat (m - off) /\ in_range (S off) m vs.
Proof.
  intros [Hl Hr]. simpl in Hl. split; [lia|]. split.
  - specialize (Hr 0%nat v eq_refl). by rewrite Nat.sub_0_r in Hr.
  - split; [lia|]. intros i w Hw. specialize (Hr (S i) w Hw).
    by replace (m - S off - i)%nat with (m - off - S i)%nat by lia.
Qed.

Lemma apply_swaps_elem_of {A} (off : nat) (vs : list Z) (l : list A) (x : A) :
  in_range off (length l) vs ->
  x ∈ apply_swaps off vs l <-> x ∈ l.
Proof.
  revert off l. induction vs as [|v vs IH]; intros off l Hr; simpl; [done|].
  apply in_range_cons in Hr as (Hoff & Hv & Hr).
  rewrite IH by (by rewrite length_lswap).
  apply lswap_elem_of; lia.
Qed.

Lemma apply_swaps_NoDup {A} (off : nat) (vs : list Z) (l : list A) :
  in_range off (length l) vs -> NoDup l -> NoDup (apply_swaps off vs l).
Proof.
  revert off l. induction vs as [|v vs IH]; intros off l Hr Hnd; simpl; [done|].
  apply in_range_cons in Hr as (Hoff & Hv & Hr).
  apply IH; [by rewrite length_lswap|].
  apply lswap_NoDup; [lia | lia | done].
Qed.

Lemma lookup_total_lswap `{Inhabited A} (l : list A) (i j k : nat) :
  (i < length l)%nat -> (j < length l)%nat ->
  lswap l i j !!! k = l !!! transpose i j k.
Proof.
  intros Hi Hj. by rewrite !list_lookup_total_alt, lookup_lswap.
Qed.

Lemma lookup_iota (n i : nat) : (i < n)%nat -> iota n !! i = Some (Z.of_nat i).
Proof.
  intros Hi. unfold iota. rewrite list_lookup_fmap, lookup_seq_lt by done. done.
Qed.

Lemma length_iota (n : nat) : length (iota n) = n.
Proof. unfold iota. by rewrite length_fmap, length_seq. Qed.

Lemma elem_of_iota (n : nat) (x : Z) : x ∈ iota n <-> 0 <= x < Z.of_nat n.
Proof.
  unfold iota. rewrite list_elem_of_fmap. split.
  - intros (i & -> & Hi%elem_of_seq). lia.
  - intros Hx. exists (Z.to_nat x). split; [lia|]. apply elem_of_seq. lia.
Qed.

Lemma NoDup_iota (n : nat) : NoDup (iota n).
Proof.
  unfold iota. apply NoDup_fmap_2; [|apply NoDup_seq].
  intros a b. lia.
Qed.

(** The loop that fills [indices] with the identity. *)
Lemma identity_loop (n : nat) :
  foldM (fun i indices => assign indices i i) (range (Z.of_nat n))
        (replicate n 0) = Ok (iota n).
Proof.
  destruct (foldM_range_inv
    (fun i (l : list Z) => length l = n /\
       forall j, Z.of_nat j < i -> l !! j = Some (Z.of_nat j))
    (fun i indices => assign indices i i) (Z.of_nat n) (replicate n 0))
    as (l & -> & Hl & Hv).
  - lia.
  - split; [by rewrite length_replicate | intros; lia].
  - cbv beta. intros i l Hi [Hl Hv].
    rewrite assign_Ok by (unfold len; lia).
    eexists. split; [done|]. split; [by rewrite length_insert|].
    intros j Hj. destruct (decide (j = Z.to_nat i)) as [->|Hne].
    + rewrite list_lookup_insert_eq by lia. f_equal. lia.
    + rewrite list_lookup_insert_ne by lia. apply Hv. lia.
  - f_equal. apply list_eq. intros j.
    destruct (decide (j < n)%nat).
    + rewrite lookup_iota by done. apply Hv. lia.
    + rewrite !lookup_ge_None_2; [done | rewrite length_iota; lia | lia].
Qed.

Section Permutation.
Context `{RandLaws R}.

(** The loop of [unpermuteBlocks] that replays the swaps on the indices. *)
Lemma index_swaps_loop (k off : nat) (l : list Z) (rng : R) :
  (off + k)%nat = length l ->
  foldM (fun off '(indices, rng) =>
           let lens := len indices - off in
           '(n, rng) ← rand_Intn rng lens;
           indices ← swap indices (off + 0) (off + n);
           Ok (indices, rng))
        (Z.of_nat <$> seq off k) (l, rng)
  = Ok (apply_swaps off (draws k rng).1 l, (draws k rng).2).
Proof.
  revert off l rng. induction k as [|k IH]; intros off l rng Hlen; [done|].
  cbn [seq fmap list_fmap foldM draws].
  assert (len l - Z.of_nat off = Z.of_nat (S k)) as -> by (unfold len; lia).
  unfold rand_Intn. destruct (Z.leb_spec (Z.of_nat (S k)) 0); [lia|].
  pose proof (Intn_range rng (Z.of_nat (S k)) ltac:(lia)) as Hv.
  destruct (Intn rng (Z.of_nat (S k))) as [v rng1]. cbn [fst] in Hv.
  cbn [mbind result_bind].
  rewrite swap_Ok by (unfold len; lia). cbn [mbind result_bind].
  replace (Z.to_nat (Z.of_nat off + 0)) with off by lia.
  replace (Z.to_nat (Z.of_nat off + v)) with (off + Z.to_nat v)%nat by lia.
  rewrite IH by (rewrite length_lswap; lia).
  by destruct (draws k rng1).
Qed.

Lemma shuffledIndices_spec (n : nat) (rng : R) :
  shuffledIndices (Z.of_nat n) rng
  = Ok (apply_swaps 0 (draws n rng).1 (iota n), (draws n rng).2).
Proof.
  unfold shuffledIndices. rewrite make_Ok by lia. cbn [mbind result_bind].
  rewrite Nat2Z.id, len_replicate, identity_loop. cbn [mbind result_bind].
  unfold range, len. rewrite length_iota, Nat2Z.id.
  apply index_swaps_loop. by rewrite length_iota.
Qed.

(** The last loop of [unpermuteBlocks]: block [i] goes to [indices[i]]. *)
Lemma scatter_loop (X : list Z) (Y : list byte4) (n : nat) :
  length X = n -> length Y = n -> NoDup X ->
  (forall x, x ∈ X -> 0 <= x < Z.of_nat n) ->
  exists ret,
    foldM (fun '(i, v) ret => b ← index Y i; assign ret v b)
          (enumerate X) (replicate n byte4_zero) = Ok ret /\
    length ret = n /\
    forall i x, X !! i = Some x -> ret !! Z.to_nat x = Y !! i.
Proof.
  intros HX HY Hnd Hrange.
  destruct (foldM_enumerate_inv
    (fun i (ret : list byte4) => length ret = n /\
       forall j x, Z.of_nat j < i -> X !! j = Some x ->
                   ret !! Z.to_nat x = Y !! j)
    (fun '(i, v) ret => b ← index Y i; assign ret v b)
    X (replicate n byte4_zero)) as (ret & Hret & Hl & Hv).
  - split; [by rewrite length_replicate | intros; lia].
  - cbv beta. intros i v ret Hi Hiv [Hl Hv].
    apply lookup_lt_Some in Hiv as Hlt.
    pose proof (Hrange v ltac:(by eapply list_elem_of_lookup_2)) as Hvr.
    destruct (index_in_range Y i ltac:(unfold len; lia)) as (b & -> & Hb).
    cbn [mbind result_bind]. rewrite assign_Ok by (unfold len; lia).
    eexists. split; [done|]. split; [by rewrite length_insert|].
    intros j x Hj Hjx. destruct (decide (j = Z.to_nat i)) as [->|Hne].
    + assert (x = v) as -> by congruence.
      rewrite list_lookup_insert_eq by lia. done.
    + assert (x <> v) as Hxv.
      { intros ->. apply Hne. eapply NoDup_lookup; eauto. }
      pose proof (Hrange x ltac:(by eapply list_elem_of_lookup_2)).
      rewrite list_lookup_insert_ne by lia. apply Hv; [lia | done].
  - exists ret. split; [done|]. split; [done|]. intros i x Hix.
    apply (Hv i x); [|done]. apply lookup_lt_Some in Hix. unfold len. lia.
Qed.

Lemma shuffled_facts (n : nat) (rng : R) :
  let X := apply_swaps 0 (draws n rng).1 (iota n) in
  length X = n /\ NoDup X /\ (forall x, x ∈ X <-> 0 <= x < Z.of_nat n).
Proof.
  pose proof (draws_in_range n rng) as Hr. cbv zeta.
  split; [by rewrite length_apply_swaps, length_iota|]. split.
  - apply apply_swaps_NoDup; [by rewrite length_iota | apply NoDup_iota].
  - intros x. rewrite apply_swaps_elem_of by (by rewrite length_iota).
    apply elem_of_iota.
Qed.

(** [unpermuteBlocks] returns on every input. *)
Lemma unpermuteBlocks_total (Y : list byte4) (rng : R) :
  exists out,
    unpermuteBlocks Y rng = Ok (out, (draws (length Y) rng).2) /\
    length out = length Y.
Proof.
  unfold unpermuteBlocks, len. rewrite shuffledIndices_spec.
  cbn [mbind result_bind]. rewrite make_Ok by lia.
  cbn [mbind result_bind]. rewrite Nat2Z.id.
  destruct (shuffled_facts (length Y) rng) as (HXl & HXnd & HXr).
  destruct (scatter_loop _ Y (length Y) HXl eq_refl HXnd) as (ret & -> & Hl & _).
  { intros x. apply HXr. }
  cbn [mbind result_bind]. eauto.
Qed.

(** Undoing the swaps: [unpermuteBlocks] on the swapped blocks, with the
    generator in the state the swaps were drawn from, gives the blocks
    back. *)
Lemma unpermuteBlocks_apply_swaps (bs : list byte4) (rng : R) :
  unpermuteBlocks (apply_swaps 0 (draws (length bs) rng).1 bs) rng
  = Ok (bs, (draws (length bs) rng).2).
Proof.
  set (n := length bs). set (vs := (draws n rng).1).
  set (Y := apply_swaps 0 vs bs).
  assert (length Y = n) as HYl by (unfold Y; by rewrite length_apply_swaps).
  unfold unpermuteBlocks, len. rewrite HYl, shuffledIndices_spec.
  cbn [mbind result_bind]. rewrite make_Ok by lia.
  cbn [mbind result_bind]. rewrite Nat2Z.id.
  destruct (shuffled_facts n rng) as (HXl & HXnd & HXr).
  fold vs in HXl, HXnd, HXr |- *. set (X := apply_swaps 0 vs (iota n)) in *.
  destruct (scatter_loop X Y n HXl HYl HXnd) as (ret & -> & Hl & Hv).
  { intros x. apply HXr. }
  cbn [mbind result_bind]. do 2 f_equal.
  assert (Y = (fun x => bs !!! Z.to_nat x) <$> X) as HY.
  { unfold Y, X. rewrite apply_swaps_fmap. f_equal.
    apply list_eq. intros j. unfold iota.
    rewrite <- list_fmap_compose, list_lookup_fmap.
    destruct (decide (j < n)%nat).
    - rewrite lookup_seq_lt by done. simpl. rewrite Nat2Z.id.
      by apply list_lookup_lookup_total_lt.
    - rewrite lookup_seq_ge by lia. apply lookup_ge_None_2. unfold n in *. lia. }
  apply list_eq. intros j. destruct (decide (j < n)%nat) as [Hj|Hj].
  - assert (Z.of_nat j ∈ X) as Hin by (apply HXr; lia).
    apply list_elem_of_lookup in Hin as [i Hi].
    specialize (Hv i _ Hi). rewrite Nat2Z.id in Hv. rewrite Hv, HY.
    rewrite list_lookup_fmap, Hi. simpl. rewrite Nat2Z.id.
    symmetry. by apply list_lookup_lookup_total_lt.
  - rewrite !lookup_ge_None_2; [done | unfold n in *; lia | lia].
Qed.

End Permutation.

Lemma half_length_div (p : list Z) (n : nat) :
  length p = (2 * n)%nat -> (length p / 2)%nat = n.
Proof. intros ->. by rewrite Nat.mul_comm, Nat.div_mul. Qed.

Lemma length_blocks_with mk (p : list Z) :
  length (blocks_with mk p) = (length p / 2)%nat.
Proof. unfold blocks_with. by rewrite length_fmap, length_seq. Qed.

Lemma lookup_blocks_with mk (p : list Z) (i : nat) :
  (i < length p / 2)%nat ->
  blocks_with mk p !! i = Some (mk (p !!! (2 * i)%nat) (p !!! (2 * i + 1)%nat)).
Proof.
  intros Hi. unfold blocks_with. by rewrite list_lookup_fmap, lookup_seq_lt.
Qed.

(** Swapping the two bytes of a pair one after the other swaps the pair. *)
Lemma blocks_with_lswap mk (p : list Z) (o v n : nat) :
  length p = (2 * n)%nat -> (o + v < n)%nat ->
  blocks_with mk (lswap (lswap p (2 * o) (2 * o + 2 * v))
                        (2 * o + 1) (2 * o + (2 * v + 1)))
  = lswap (blocks_with mk p) o (o + v).
Proof.
  intros Hlen Hov. apply list_eq. intros i.
  destruct (decide (i < n)%nat) as [Hi|Hi].
  - rewrite lookup_lswap by (rewrite length_blocks_with, (half_length_div p n); lia).
    rewrite !lookup_blocks_with
      by (rewrite ?length_lswap, (half_length_div p n) by done;
          try apply transpose_lt; lia).
    rewrite !lookup_total_lswap by (rewrite ?length_lswap; lia).
    f_equal. unfold transpose.
    f_equal; f_equal; repeat case_decide; lia.
  - rewrite !lookup_ge_None_2; [done | |];
      rewrite ?length_lswap, length_blocks_with, ?length_lswap,
        (half_length_div p n) by done; lia.
Qed.

Section PermuteHalfimage.
Context `{RandLaws R}.

Lemma permute_loop (k off n : nat) (p : list Z) (rng : R) :
  length p = (2 * n)%nat -> (off + k)%nat = n ->
  exists p',
    foldM (fun off '(p, rng) =>
             let lenp := len p - off in
             '(v, rng) ← rand_Intn rng (Z.quot lenp 2);
             let n := v * 2 in
             p ← swap p (off + 0) (off + n);
             p ← swap p (off + 1) (off + (n + 1));
             Ok (p, rng))
          ((fun i => 2 * Z.of_nat i) <$> seq off k) (p, rng)
      = Ok (p', (draws k rng).2) /\
    length p' = (2 * n)%nat /\
    forall mk, blocks_with mk p'
               = apply_swaps off (draws k rng).1 (blocks_with mk p).
Proof.
  revert off p rng. induction k as [|k IH]; intros off p rng Hlen Hoff.
  { exists p. done. }
  cbn [seq fmap list_fmap foldM draws].
  assert (Z.quot (len p - 2 * Z.of_nat off) 2 = Z.of_nat (S k)) as ->.
  { unfold len. replace (Z.of_nat (length p) - 2 * Z.of_nat off)
      with (Z.of_nat (S k) * 2) by lia. apply Z.quot_mul. lia. }
  unfold rand_Intn. destruct (Z.leb_spec (Z.of_nat (S k)) 0); [lia|].
  pose proof (Intn_range rng (Z.of_nat (S k)) ltac:(lia)) as Hv.
  destruct (Intn rng (Z.of_nat (S k))) as [v rng1]. cbn [fst] in Hv.
  cbn [mbind result_bind].
  rewrite swap_Ok by (unfold len; lia). cbn [mbind result_bind].
  rewrite swap_Ok by (unfold len; rewrite length_lswap; lia).
  cbn [mbind result_bind].
  replace (Z.to_nat (2 * Z.of_nat off + 0)) with (2 * off)%nat by lia.
  replace (Z.to_nat (2 * Z.of_nat off + v * 2))
    with (2 * off + 2 * Z.to_nat v)%nat by lia.
  replace (Z.to_nat (2 * Z.of_nat off + 1)) with (2 * off + 1)%nat by lia.
  replace (Z.to_nat (2 * Z.of_nat off + (v * 2 + 1)))
    with (2 * off + (2 * Z.to_nat v + 1))%nat by lia.
  set (p1 := lswap (lswap p _ _) _ _).
  destruct (IH (S off) p1 rng1) as (p' & Hp' & Hl' & Hb').
  { unfold p1. by rewrite !length_lswap. }
  { lia. }
  exists p'. destruct (draws k rng1) as [vs rng2]. cbn [fst snd] in *.
  split; [done|]. split; [done|]. intros mk. rewrite Hb'. unfold p1.
  rewrite (blocks_with_lswap mk p off (Z.to_nat v) n) by (done || lia). done.
Qed.

(** What [permuteHalfimage] does to a half image of [n] pairs. *)
Lemma permuteHalfimage_spec (p : list Z) (n : nat) (rng : R) :
  length p = (2 * n)%nat ->
  exists p',
    permuteHalfimage p rng = Ok (p', (draws n rng).2) /\
    length p' = (2 * n)%nat /\
    forall mk, blocks_with mk p'
               = apply_swaps 0 (draws n rng).1 (blocks_with mk p).
Proof.
  intros Hlen. unfold permuteHalfimage, range2.
  replace (Z.to_nat ((len p + 1) / 2)) with n
    by (unfold len; Z.div_mod_to_equations; lia).
  by apply permute_loop.
Qed.

(** Permuting a half image and unpermuting its blocks, whatever the
    layout [mk] of a pair within a block, gives the blocks of the
    original; both consume the generator alike. *)
Lemma permute_unpermute_with mk (p : list Z) (rng : R) :
  Nat.Even (length p) ->
  exists p' rng',
    permuteHalfimage p rng = Ok (p', rng') /\
    length p' = length p /\
    unpermuteBlocks (blocks_with mk p') rng = Ok (blocks_with mk p, rng').
Proof.
  intros [n Hn].
  destruct (permuteHalfimage_spec p n rng Hn) as (p' & Hp' & Hl' & Hb').
  exists p', (draws n rng).2. split; [done|]. split; [lia|].
  rewrite Hb'.
  pose proof (unpermuteBlocks_apply_swaps (blocks_with mk p) rng) as Hu.
  by rewrite length_blocks_with, (half_length_div p n Hn) in Hu.
Qed.

(** C2. For an even-length byte array p and a deterministic generator,
    [permuteHalfimage] followed by [unpermuteBlocks] on the resulting
    two-byte blocks, with the generator in the state the permutation
    started from, recovers the original block sequence. *)
Theorem permute_then_unpermute (p : list Z) (rng : R) :
  Nat.Even (length p) ->
  exists p' rng',
    permuteHalfimage p rng = Ok (p', rng') /\
    length p' = length p /\
    unpermuteBlocks (blocks_of p') rng = Ok (blocks_of p, rng').
Proof. apply permute_unpermute_with. Qed.

End PermuteHalfimage.

(** ** [unpermuteBlocks] and the caller's array *)

#[global] Instance Reader_RandLaws : RandLaws Reader.
Proof.
  split.
  - intros r buf. simpl. unfold Reader_Read. simpl.
    by rewrite length_fmap, length_seq.
  - intros r n Hn. simpl. unfold bounded_spec.
    destruct (Int63 r) as [v r']. simpl. apply Z.mod_pos_bound. lia.
Qed.

Lemma permute_then_unpermute_witness :
  let p := [68; 111; 32; 73; 32; 108; 111; 111] in
  let rng := cyclic_newRNG [73; 32; 97; 109] (replicate 16 0) in
  exists p' rng',
    permuteHalfimage p rng = Ok (p', rng') /\
    length p' = length p /\
    unpermuteBlocks (blocks_of p') rng = Ok (blocks_of p, rng').
Proof.
  apply (@permute_then_unpermute Reader Reader_Rand Reader_RandLaws
           [68; 111; 32; 73; 32; 108; 111; 111]
           (cyclic_newRNG [73; 32; 97; 109] (replicate 16 0))).
  exists 4%nat. reflexivity.
Defined.

Lemma foldM_cons {A S} (body : A -> S -> result S) (x : A) (xs : list A) (s : S) :
  foldM body (x :: xs) s = body x s ≫= foldM body xs.
Proof. reflexivity. Qed.

Lemma scatter_store (input : list byte4) (blocks ret : nat)
  (h0 : gmap nat (list byte4)) (xs : list (Z * Z)) :
  h0 !! blocks = Some input -> ret <> blocks ->
  forall r,
  foldM (fun '(i, v) h =>
           src ← load h blocks;
           b ← index src i;
           dst ← load h ret;
           dst ← assign dst v b;
           Ok (<[ret := dst]> h))
        xs (<[ret := r]> h0)
  = (fun r' => <[ret := r']> h0)
      <$> foldM (fun '(i, v) ret => b ← index input i; assign ret v b) xs r.
Proof.
  intros Hin Hne.
  assert (forall i v r,
    (src ← load (<[ret := r]> h0) blocks;
     b ← index src i;
     dst ← load (<[ret := r]> h0) ret;
     dst ← assign dst v b;
     Ok (<[ret := dst]> (<[ret := r]> h0)))
    = (fun r' => <[ret := r']> h0) <$> (b ← index input i; assign r v b))
    as Hstep.
  { intros i v r. unfold load.
    rewrite (lookup_insert_ne h0 ret blocks), Hin by done.
    cbn [mbind result_bind].
    destruct (index input i) as [b| |]; [|done|done]. cbn [mbind result_bind].
    rewrite lookup_insert_eq. cbn [mbind result_bind].
    destruct (assign r v b) as [r1| |]; [|done|done].
    cbn [mbind result_bind fmap result_fmap]. by rewrite insert_insert_eq. }
  induction xs as [|[i v] xs IH]; intros r; [done|].
  rewrite !foldM_cons, Hstep.
  destruct (index input i ≫= _) as [r1| |]; [|done|done].
  cbn [mbind result_bind fmap result_fmap]. apply IH.
Qed.

(** C10. [unpermuteBlocks] never mutates its input: run on a store where
    [blocks] holds the caller's array, it returns the address of an array
    that was not allocated before the call and holds the unpermuted
    blocks, and every array of the store before the call, the input
    among them, is unchanged after it. *)
Theorem unpermuteBlocks_keeps_input `{RandLaws R} (blocks : nat) (rng : R)
  (h : gmap nat (list byte4)) (input : list byte4) :
  h !! blocks = Some input ->
  exists ret rng' h' out,
    unpermuteBlocks_store blocks rng h = Ok (ret, rng', h') /\
    h !! ret = None /\
    ret <> blocks /\
    h' !! blocks = Some input /\
    (forall l, l <> ret -> h' !! l = h !! l) /\
    h' !! ret = Some out /\
    unpermuteBlocks input rng = Ok (out, rng').
Proof.
  intros Hin.
  destruct (unpermuteBlocks_total input rng) as (out & Hout & Hlen).
  pose proof Hout as Hpure. unfold unpermuteBlocks in Hout.
  assert (load h blocks = Ok input) as Hload by (unfold load; by rewrite Hin).
  unfold unpermuteBlocks_store. rewrite Hload. cbn [mbind result_bind].
  destruct (shuffledIndices (len input) rng) as [[indices rng1]| |];
    [|done|done]. cbn [mbind result_bind] in *.
  destruct (make byte4_zero (len input)) as [r0| |]; [|done|done].
  cbn [mbind result_bind] in *. unfold alloc.
  set (ret := fresh (dom h)).
  assert (h !! ret = None) as Hfresh.
  { apply not_elem_of_dom. apply is_fresh. }
  assert (ret <> blocks) as Hne by congruence.
  rewrite (scatter_store input blocks ret h (enumerate indices) Hin Hne r0).
  destruct (foldM _ (enumerate indices) r0) as [r1| |]; [|done|done].
  cbn [mbind result_bind fmap result_fmap] in *.
  injection Hout as -> ->.
  exists ret, (draws (length input) rng).2, (<[ret := out]> h), out.
  split; [done|]. split; [done|]. split; [done|].
  split; [by rewrite lookup_insert_ne|].
  split; [intros l Hl; by rewrite lookup_insert_ne|].
  split; [by rewrite lookup_insert_eq | done].
Qed.

Lemma unpermuteBlocks_keeps_input_witness :
  let input := [B4 1 0 0 2; B4 3 0 0 4; B4 5 0 0 6] in
  let h : gmap nat (list byte4) := <[7%nat := input]> ∅ in
  let rng := cyclic_newRNG [73; 32; 97; 109] (replicate 16 0) in
  exists ret rng' h' out,
    unpermuteBlocks_store 7%nat rng h = Ok (ret, rng', h') /\
    h !! ret = None /\
    ret <> 7%nat /\
    h' !! 7%nat = Some input /\
    (forall l, l <> ret -> h' !! l = h !! l) /\
    h' !! ret = Some out /\
    unpermuteBlocks input rng = Ok (out, rng').
Proof.
  apply (@unpermuteBlocks_keeps_input Reader Reader_Rand Reader_RandLaws 7%nat
           (cyclic_newRNG [73; 32; 97; 109] (replicate 16 0))
           (<[7%nat := [B4 1 0 0 2; B4 3 0 0 4; B4 5 0 0 6]]> ∅)
           [B4 1 0 0 2; B4 3 0 0 4; B4 5 0 0 6]).
  reflexivity.
Defined.

(** ** The quantization table *)

(** C3. On the half image [0; 3; 0; 0] (differences 3 and 0) at
    quantization 2 the accumulated distortions are 1 at index 2 and 0 at
    index 3, so the entry of bucket 1 should be 3; [makeQtable] compares
    [distortions[j]] of bucket 0 instead of the bucket's own entry and
    leaves the entry at 2. *)
Theorem makeQtable_reads_bucket_zero :
  let img := EncryptedImage.mk [0; 3; 0; 0] 2 4 false false (replicate 16 0) in
  exists c d,
    compress img 2 = Ok c /\
    accumulate [3; 0] 2 = Ok d /\
    makeQtable d 2 = Ok (compressedImage.Qtable c) /\
    d !! 2%nat = Some 1 /\ d !! 3%nat = Some 0 /\
    compressedImage.Qtable c !! 1%nat = Some 2 /\
    bucket_entry d 2 1 3 /\
    ~ bucket_entry d 2 1 2.
Proof.
  cbv zeta. eexists _, _.
  split; [vm_compute; reflexivity|].
  split; [vm_compute; reflexivity|].
  split; [vm_compute; reflexivity|].
  split; [reflexivity|]. split; [reflexivity|]. split; [reflexivity|].
  split.
  - exists 1. split; [lia|]. split; [reflexivity|]. split.
    + intros j' Hj'. assert (j' = 0 \/ j' = 1) as [-> | ->] by lia;
        vm_compute; discriminate.
    + intros j' Hj'. assert (j' = 0) as -> by lia. vm_compute. reflexivity.
  - unfold bucket_entry. change (Z.shiftl 1 (TrailingZeros8 2)) with 2.
    intros (j & Hj & Hv & Hmin & _).
    assert (j = 0) as -> by lia.
    specialize (Hmin 1 ltac:(lia)). vm_compute in Hmin. by apply Hmin.
Qed.

(** ** The shape metadata *)

Ltac inv_binds H :=
  repeat first
    [ apply bind_Ok_inv in H as (? & ? & H)
    | match type of H with
      | context [let '(_, _) := ?e in _] => destruct e
      end ].

Lemma Encrypt_shape `{KeyedRand R} genSalt (img : Image.t) (key : list Z)
  (enc : EncryptedImage.t) :
  Encrypt genSalt img key = Ok enc ->
  EncryptedImage.Width enc = Image.Width img /\
  EncryptedImage.Height enc = Image.Height img /\
  EncryptedImage.PadWidth enc = Image.PadHeight img /\
  EncryptedImage.PadHeight enc = Image.PadHeight img.
Proof.
  unfold Encrypt. intros Henc. inv_binds Henc. by injection Henc as <-.
Qed.

Lemma compress_shape (img : EncryptedImage.t) (q : Z) (c : compressedImage.t) :
  compress img q = Ok c ->
  compressedImage.Width c = EncryptedImage.Width img /\
  compressedImage.Height c = EncryptedImage.Height img /\
  compressedImage.PadWidth c = EncryptedImage.PadHeight img /\
  compressedImage.PadHeight c = EncryptedImage.PadHeight img.
Proof.
  unfold compress. intros Hc. inv_binds Hc.
  destruct (negb _); [done|]. inv_binds Hc. by injection Hc as <-.
Qed.

Lemma decrypt_shape `{KeyedRand R} (c : compressedImage.t) (key : list Z)
  (img : Image.t) :
  decrypt c key = Ok img ->
  Image.Width img = compressedImage.Width c /\
  Image.Height img = compressedImage.Height c /\
  Image.PadWidth img = compressedImage.PadWidth c /\
  Image.PadHeight img = compressedImage.PadHeight c.
Proof.
  unfold decrypt. intros Hd. inv_binds Hd. by injection Hd as <-.
Qed.

Lemma Decrypt_shape `{KeyedRand R, fselib} (c : CompressedImage.t)
  (key : list Z) (img : Image.t) :
  Decrypt c key = Ok img ->
  Image.Width img = CompressedImage.Width c /\
  Image.Height img = CompressedImage.Height c /\
  Image.PadWidth img = CompressedImage.PadHeight c /\
  Image.PadHeight img = CompressedImage.PadHeight c.
Proof.
  unfold Decrypt. intros Hd. inv_binds Hd. by injection Hd as <-.
Qed.

(** C7. [Encrypt] copies the width, the height and [PadHeight] through,
    but fills [PadWidth] from the [PadHeight] of its input: a 1x2 image
    padded to 2x2 (PadWidth set, PadHeight clear) comes out with PadWidth
    clear, and so does the image [NewImage] returns for a width of 1 and
    a height of 0.  [compress] and [Decrypt] do the same to their
    inputs. *)
Theorem PadWidth_taken_from_PadHeight :
  let img := Image.mk [7; 0; 9; 0] 2 2 true false in
  let key := [73; 32; 97; 109] in
  let salt := replicate 16 0 in
  (exists enc,
     Encrypt (Ok salt) img key = Ok enc /\
     Image.PadWidth img = true /\ EncryptedImage.PadWidth enc = false) /\
  (exists img0 enc,
     NewImage [] 1 0 = Ok img0 /\
     Encrypt (Ok salt) img0 key = Ok enc /\
     Image.PadWidth img0 = true /\ EncryptedImage.PadWidth enc = false) /\
  (exists c,
     compress (EncryptedImage.mk [7; 9] 2 2 true false salt) 1 = Ok c /\
     compressedImage.PadWidth c = false) /\
  (exists dec,
     @Decrypt _ _ cyclic_newRNG stored
       (CompressedImage.mk [7] (iota 256) [2] salt 2 2 true false) key
       = Ok dec /\
     Image.PadWidth dec = false).
Proof.
  cbv zeta. split; [|split; [|split]].
  - eexists. split; [vm_compute; reflexivity|]. split; reflexivity.
  - eexists _, _. split; [reflexivity|].
    split; [vm_compute; reflexivity|]. split; reflexivity.
  - eexists. split; [vm_compute; reflexivity|]. reflexivity.
  - eexists. split; [vm_compute; reflexivity|]. reflexivity.
Qed.

(** ** Loops over the grid of blocks *)

Lemma index_elem `{Inhabited A} (l : list A) (i : Z) :
  0 <= i < len l -> index l i = Ok (elem l i).
Proof. apply index_total. Qed.

Lemma elem_insert_eq `{Inhabited A} (l : list A) (i : Z) (v : A) :
  0 <= i < len l -> elem (<[Z.to_nat i := v]> l) i = v.
Proof.
  intros Hi. unfold elem. apply list_lookup_total_insert_eq. unfold len in Hi. lia.
Qed.

Lemma elem_insert_ne `{Inhabited A} (l : list A) (i j : Z) (v : A) :
  0 <= i -> 0 <= j -> i <> j -> elem (<[Z.to_nat i := v]> l) j = elem l j.
Proof.
  intros Hi Hj Hne. unfold elem. apply list_lookup_total_insert_ne. lia.
Qed.

Lemma elem_lookup `{Inhabited A} (l : list A) (i : Z) :
  0 <= i < len l -> l !! Z.to_nat i = Some (elem l i).
Proof.
  intros Hi. unfold elem. apply list_lookup_lookup_total_lt. unfold len in Hi. lia.
Qed.

Lemma grid_inj (bw y x y0 x0 : Z) :
  0 <= x < bw -> 0 <= x0 < bw -> y * bw + x = y0 * bw + x0 -> y = y0 /\ x = x0.
Proof.
  intros Hx Hx0 Heq.
  assert (y = y0) as ->; [|lia].
  destruct (Z.lt_trichotomy y y0) as [Hlt|[->|Hgt]]; [|done|]; nia.
Qed.

Lemma grid_lt (bw bh y x : Z) :
  0 <= y < bh -> 0 <= x < bw -> 0 <= y * bw + x < bh * bw.
Proof. intros. nia. Qed.

(** The invariant rule of the row-major double loop over the blocks:
    [P k] holds when [k] blocks have been processed. *)
Lemma foldM_grid_inv {S} (P : Z -> S -> Prop) (body : Z -> Z -> S -> result S)
  (bw bh : Z) (s : S) :
  0 <= bw -> 0 <= bh -> P 0 s ->
  (forall y x s, 0 <= y < bh -> 0 <= x < bw -> P (y * bw + x) s ->
     exists s', body y x s = Ok s' /\ P (y * bw + x + 1) s') ->
  exists s',
    foldM (fun y s => foldM (fun x s => body y x s) (range bw) s) (range bh) s
      = Ok s' /\ P (bh * bw) s'.
Proof.
  intros Hbw Hbh HP Hstep.
  apply (foldM_range_inv (fun y s => P (y * bw) s)); [done | done |].
  intros y s0 Hy HPy.
  destruct (foldM_range_inv (fun x s => P (y * bw + x) s)
              (fun x s => body y x s) bw s0) as (s1 & Hs1 & HP1).
  - done.
  - by rewrite Z.add_0_r.
  - intros x s1 Hx HPx. rewrite Z.add_assoc. by apply Hstep.
  - exists s1. split; [done|]. by replace ((y + 1) * bw) with (y * bw + bw) by lia.
Qed.

(** The same for the loops that step by two over the pixels. *)
Lemma foldM_grid2_inv {S} (P : Z -> S -> Prop) (body : Z -> Z -> S -> result S)
  (bw bh : Z) (s : S) :
  0 <= bw -> 0 <= bh -> P 0 s ->
  (forall y x s, 0 <= y < bh -> 0 <= x < bw -> P (y * bw + x) s ->
     exists s', body (2 * y) (2 * x) s = Ok s' /\ P (y * bw + x + 1) s') ->
  exists s',
    foldM (fun y s => foldM (fun x s => body y x s) (range2 (2 * bw)) s)
          (range2 (2 * bh)) s
      = Ok s' /\ P (bh * bw) s'.
Proof.
  intros Hbw Hbh HP Hstep.
  apply (foldM_range2_inv (fun y s => P (y * bw) s)); [done | done |].
  intros y s0 Hy HPy.
  destruct (foldM_range2_inv (fun x s => P (y * bw + x) s)
              (fun x s => body (2 * y) x s) bw s0) as (s1 & Hs1 & HP1).
  - done.
  - by rewrite Z.add_0_r.
  - intros x s1 Hx HPx. rewrite Z.add_assoc. by apply Hstep.
  - exists s1. split; [done|]. by replace ((y + 1) * bw) with (y * bw + bw) by lia.
Qed.

(** ** Encryption: masking the kept pixels *)

Lemma byte_sub_add (a m : Z) : is_byte a -> byte_sub (byte_add a m) m = a.
Proof.
  unfold is_byte, byte_sub, byte_add. intros Ha.
  rewrite Zminus_mod_idemp_l. replace (a + m - m) with a by lia.
  apply Z.mod_small. lia.
Qed.

Lemma byte_add_sub (a b : Z) : is_byte b -> byte_add a (byte_sub b a) = b.
Proof.
  unfold is_byte, byte_sub, byte_add. intros Hb.
  rewrite Zplus_mod_idemp_r. replace (a + (b - a)) with b by lia.
  apply Z.mod_small. lia.
Qed.

Lemma encrypt_fill (image mask : list Z) (bw bh : Z) :
  0 <= bw -> 0 <= bh ->
  len image = (2 * bw) * (2 * bh) -> len mask = bw * bh ->
  exists h0,
    foldM (fun y halfimage =>
      foldM (fun x halfimage =>
               a ← index image (y * (2 * bw) + x);
               m ← index mask ((y / 2 * (2 * bw)) / 2 + x / 2);
               halfimage ← assign halfimage (y / 2 * (2 * bw) + x) (byte_add a m);
               a ← index image ((y + 1) * (2 * bw) + (x + 1));
               m ← index mask ((y / 2 * (2 * bw)) / 2 + x / 2);
               assign halfimage ((y + 1) / 2 * (2 * bw) + (x + 1)) (byte_add a m))
            (range2 (2 * bw)) halfimage)
      (range2 (2 * bh)) (replicate (Z.to_nat (2 * (bh * bw))) 0) = Ok h0 /\
    len h0 = 2 * (bh * bw) /\
    forall y x, 0 <= y < bh -> 0 <= x < bw ->
      elem h0 (2 * (y * bw + x))
        = byte_add (elem image (2 * y * (2 * bw) + 2 * x)) (elem mask (y * bw + x)) /\
      elem h0 (2 * (y * bw + x) + 1)
        = byte_add (elem image ((2 * y + 1) * (2 * bw) + (2 * x + 1)))
                   (elem mask (y * bw + x)).
Proof.
  intros Hbw Hbh Hli Hlm.
  set (F := fun (h : list Z) (y x : Z) =>
    elem h (2 * (y * bw + x))
      = byte_add (elem image (2 * y * (2 * bw) + 2 * x)) (elem mask (y * bw + x)) /\
    elem h (2 * (y * bw + x) + 1)
      = byte_add (elem image ((2 * y + 1) * (2 * bw) + (2 * x + 1)))
                 (elem mask (y * bw + x))).
  destruct (foldM_grid2_inv
    (fun k (h : list Z) => len h = 2 * (bh * bw) /\
       forall y x, 0 <= y -> 0 <= x < bw -> y * bw + x < k -> F h y x)
    (fun y x halfimage =>
       a ← index image (y * (2 * bw) + x);
       m ← index mask ((y / 2 * (2 * bw)) / 2 + x / 2);
       halfimage ← assign halfimage (y / 2 * (2 * bw) + x) (byte_add a m);
       a ← index image ((y + 1) * (2 * bw) + (x + 1));
       m ← index mask ((y / 2 * (2 * bw)) / 2 + x / 2);
       assign halfimage ((y + 1) / 2 * (2 * bw) + (x + 1)) (byte_add a m))
    bw bh (replicate (Z.to_nat (2 * (bh * bw))) 0)) as (h0 & Hh0 & Hl0 & HF0).
  - done.
  - done.
  - split; [rewrite len_replicate; nia|]. intros y x Hy Hx Hk. nia.
  - intros y x h Hy Hx [Hl HF].
    pose proof (grid_lt bw bh y x Hy Hx) as Hg.
    assert (2 * y / 2 = y) as Ey by (Z.div_mod_to_equations; lia).
    assert ((2 * y + 1) / 2 = y) as Ey1 by (Z.div_mod_to_equations; lia).
    assert (2 * x / 2 = x) as Ex by (Z.div_mod_to_equations; lia).
    assert (y * (2 * bw) / 2 = y * bw) as Eyb.
    { replace (y * (2 * bw)) with (y * bw * 2) by lia. apply Z.div_mul. lia. }
    rewrite Ey, Ey1, Ex, Eyb.
    replace (y * (2 * bw) + 2 * x) with (2 * (y * bw + x)) by lia.
    replace (y * (2 * bw) + (2 * x + 1)) with (2 * (y * bw + x) + 1) by lia.
    rewrite !(index_elem image) by nia. cbn [mbind result_bind].
    rewrite !(index_elem mask) by lia. cbn [mbind result_bind].
    rewrite assign_Ok by lia. cbn [mbind result_bind].
    rewrite assign_Ok by (rewrite len_insert; lia).
    eexists. split; [done|]. split; [by rewrite !len_insert|].
    intros y' x' Hy' Hx' Hk.
    destruct (decide (y' * bw + x' = y * bw + x)) as [Heq|Hne].
    + apply grid_inj in Heq as [-> ->]; [|done|done]. split.
      * rewrite elem_insert_ne by lia. rewrite elem_insert_eq by lia. done.
      * rewrite elem_insert_eq by (rewrite len_insert; lia). done.
    + destruct (HF y' x' Hy' Hx' ltac:(lia)) as [HFa HFb]. split.
      * rewrite !elem_insert_ne by lia. done.
      * rewrite !elem_insert_ne by lia. done.
  - exists h0. split; [done|]. split; [done|].
    intros y x Hy Hx. apply HF0; [lia | done | ].
    pose proof (grid_lt bw bh y x Hy Hx). lia.
Qed.

(** ** Decryption: the loops of [decrypt] *)

(** The first loop: the kept pixels of each block, the bottom right one
    rebuilt from the quantized difference. *)
Lemma decrypt_blocks_loop (quarter qdiffs qtable : list Z) (n : nat) :
  length quarter = n -> length qdiffs = n ->
  (forall i, (i < n)%nat -> 0 <= qdiffs !!! i < len qtable) ->
  exists b,
    foldM (fun i blocks =>
             q ← index quarter i;
             b ← index blocks i;
             blocks ← assign blocks i (set0 b q);
             q ← index quarter i;
             d ← index qdiffs i;
             t ← index qtable d;
             b ← index blocks i;
             assign blocks i (set3 b (byte_add q t)))
          (range (Z.of_nat n)) (replicate n byte4_zero) = Ok b /\
    length b = n /\
    forall i, (i < n)%nat ->
      b !! i = Some (B4 (quarter !!! i) 0 0
                        (byte_add (quarter !!! i)
                           (qtable !!! Z.to_nat (qdiffs !!! i)))).
Proof.
  intros Hq Hd Hr.
  destruct (foldM_range_inv
    (fun i (b : list byte4) => length b = n /\
       (forall j, Z.of_nat j < i ->
          b !! j = Some (B4 (quarter !!! j) 0 0
                            (byte_add (quarter !!! j)
                               (qtable !!! Z.to_nat (qdiffs !!! j))))) /\
       (forall j, i <= Z.of_nat j -> (j < n)%nat -> b !! j = Some byte4_zero))
    (fun i blocks =>
       q ← index quarter i;
       b ← index blocks i;
       blocks ← assign blocks i (set0 b q);
       q ← index quarter i;
       d ← index qdiffs i;
       t ← index qtable d;
       b ← index blocks i;
       assign blocks i (set3 b (byte_add q t)))
    (Z.of_nat n) (replicate n byte4_zero)) as (b & Hb & Hl & Hv & _).
  - lia.
  - split; [by rewrite length_replicate|]. split; [intros; lia|].
    intros j _ Hj. by apply lookup_replicate_2.
  - cbv beta. intros i b Hi (Hl & Hdone & Htodo).
    specialize (Hr (Z.to_nat i) ltac:(lia)).
    rewrite !(index_total quarter) by (unfold len; lia). cbn [mbind result_bind].
    rewrite (index_total b) by (unfold len; lia). cbn [mbind result_bind].
    rewrite assign_Ok by (unfold len; lia). cbn [mbind result_bind].
    rewrite (index_total qdiffs) by (unfold len; lia). cbn [mbind result_bind].
    rewrite (index_total qtable) by done. cbn [mbind result_bind].
    rewrite index_total by (rewrite len_insert; unfold len; lia).
    cbn [mbind result_bind].
    rewrite assign_Ok by (rewrite len_insert; unfold len; lia).
    eexists. split; [done|]. split; [by rewrite !length_insert|]. split.
    + intros j Hj. destruct (decide (j = Z.to_nat i)) as [->|Hne].
      * rewrite list_lookup_insert_eq by (rewrite length_insert; lia).
        rewrite list_lookup_total_insert_eq by lia.
        rewrite (list_lookup_total_correct b (Z.to_nat i) byte4_zero)
          by (apply Htodo; lia). done.
      * rewrite !list_lookup_insert_ne by lia. apply Hdone. lia.
    + intros j Hj Hjn. rewrite !list_lookup_insert_ne by lia. apply Htodo; lia.
  - exists b. split; [done|]. split; [done|]. intros i Hi. apply Hv. lia.
Qed.

(** The loop that takes the mask off the kept pixels. *)
Lemma decrypt_unmask_loop (mask : list Z) (u0 : list byte4) (n : nat) :
  length mask = n -> length u0 = n ->
  exists u,
    foldM (fun '(i, v) blocks =>
             b ← index blocks i;
             blocks ← assign blocks i (set0 b (byte_sub (e0 b) v));
             b ← index blocks i;
             assign blocks i (set3 b (byte_sub (e3 b) v)))
          (enumerate mask) u0 = Ok u /\
    length u = n /\
    forall i, (i < n)%nat ->
      u !! i = Some (B4 (byte_sub (e0 (u0 !!! i)) (mask !!! i))
                        (e1 (u0 !!! i)) (e2 (u0 !!! i))
                        (byte_sub (e3 (u0 !!! i)) (mask !!! i))).
Proof.
  intros Hm Hu.
  destruct (foldM_enumerate_inv
    (fun i (u : list byte4) => length u = n /\
       (forall j, Z.of_nat j < i ->
          u !! j = Some (B4 (byte_sub (e0 (u0 !!! j)) (mask !!! j))
                            (e1 (u0 !!! j)) (e2 (u0 !!! j))
                            (byte_sub (e3 (u0 !!! j)) (mask !!! j)))) /\
       (forall j, i <= Z.of_nat j -> u !! j = u0 !! j))
    (fun '(i, v) blocks =>
       b ← index blocks i;
       blocks ← assign blocks i (set0 b (byte_sub (e0 b) v));
       b ← index blocks i;
       assign blocks i (set3 b (byte_sub (e3 b) v)))
    mask u0) as (u & Hu' & Hl & Hv & _).
  - split; [done|]. split; [intros; lia | done].
  - cbv beta. intros i v u Hi Hiv (Hl & Hdone & Htodo).
    apply lookup_lt_Some in Hiv as Hlt.
    rewrite (index_total u) by (unfold len; lia). cbn [mbind result_bind].
    rewrite assign_Ok by (unfold len; lia). cbn [mbind result_bind].
    rewrite index_total by (rewrite len_insert; unfold len; lia).
    cbn [mbind result_bind].
    rewrite assign_Ok by (rewrite len_insert; unfold len; lia).
    eexists. split; [done|]. split; [by rewrite !length_insert|]. split.
    + intros j Hj. destruct (decide (j = Z.to_nat i)) as [->|Hne].
      * rewrite list_lookup_insert_eq by (rewrite length_insert; lia).
        rewrite list_lookup_total_insert_eq by lia.
        rewrite (list_lookup_total_correct mask (Z.to_nat i) v) by done.
        assert (u !!! Z.to_nat i = u0 !!! Z.to_nat i) as ->.
        { rewrite !list_lookup_total_alt. f_equal. apply Htodo. lia. }
        done.
      * rewrite !list_lookup_insert_ne by lia. apply Hdone. lia.
    + intros j Hj. rewrite !list_lookup_insert_ne by lia. apply Htodo; lia.
  - exists u. split; [done|]. split; [done|]. intros i Hi. apply Hv.
    unfold len. lia.
Qed.

Lemma pick_index {A B} `{Inhabited A} (f : A -> B) (c : bool) (s : list A)
  (a b : Z) :
  (c = true -> 0 <= a < len s) -> (c = false -> 0 <= b < len s) ->
  (if c then f <$> index s a else f <$> index s b)
  = Ok (if c then f (elem s a) else f (elem s b)).
Proof.
  intros Ha Hb. destruct c; rewrite index_elem by auto; done.
Qed.

Lemma cell_ne (w py px py' px' : Z) :
  0 <= px < w -> 0 <= px' < w -> py <> py' \/ px <> px' ->
  py * w + px <> py' * w + px'.
Proof. intros Hp Hp' Hne Heq. apply grid_inj in Heq; lia. Qed.

Ltac grid_side :=
  let Hc := fresh "Hc" in
  intros Hc; try apply Z.gtb_lt in Hc; try apply Z.ltb_lt in Hc;
  first [lia | nia].

(** [interpolateBlocks] keeps the two kept pixels of every block and
    fills the two others with [cai] of the kept pixels around them. *)
Lemma interpolateBlocks_spec (u : list byte4) (bw bh T : Z) :
  0 <= bw -> 0 <= bh -> len u = bh * bw ->
  exists w,
    interpolateBlocks u bw bh T = Ok w /\
    len w = bh * bw /\
    forall y x, 0 <= y < bh -> 0 <= x < bw ->
      e0 (elem w (y * bw + x)) = e0 (elem u (y * bw + x)) /\
      e1 (elem w (y * bw + x)) = cai (neighbors_tr u bw y x) T /\
      e2 (elem w (y * bw + x)) = cai (neighbors_bl u bw bh y x) T /\
      e3 (elem w (y * bw + x)) = e3 (elem u (y * bw + x)).
Proof.
  intros Hbw Hbh Hlu. unfold interpolateBlocks.
  set (kept := fun s : list byte4 =>
    forall i, 0 <= i < bh * bw ->
      e0 (elem s i) = e0 (elem u i) /\ e3 (elem s i) = e3 (elem u i)).
  match goal with
  | |- exists w, foldM (fun y _ => foldM (fun x b => @?body y x b) _ _) _ _ = _ /\ _ =>
    destruct (foldM_grid_inv
      (fun k (s : list byte4) => len s = bh * bw /\ kept s /\
         forall y x, 0 <= y -> 0 <= x < bw -> y * bw + x < k ->
           e1 (elem s (y * bw + x)) = cai (neighbors_tr u bw y x) T /\
           e2 (elem s (y * bw + x)) = cai (neighbors_bl u bw bh y x) T)
      body bw bh u) as (w & Hw & Hlw & Hkw & Hiw)
  end.
  - done.
  - done.
  - split; [done|]. split; [by intros i Hi|]. intros y x Hy Hx Hk. nia.
  - cbv beta. intros y x s Hy Hx (Hls & Hks & His).
    pose proof (grid_lt bw bh y x Hy Hx) as Hg.
    set (i := y * bw + x) in *.
    rewrite (pick_index e3 (y >? 0) s) by grid_side.
    rewrite (pick_index e0 (x <? bw - 1) s) by grid_side.
    unfold assign1. rewrite !(index_elem s i) by lia. cbn [mbind result_bind].
    rewrite assign_Ok by lia. cbn [mbind result_bind].
    set (v1 := cai _ T).
    set (s1 := <[Z.to_nat i := set1 (elem s i) v1]> s).
    assert (len s1 = bh * bw) as Hls1 by (unfold s1; by rewrite len_insert).
    assert (kept s1) as Hks1.
    { intros j Hj. unfold s1. destruct (decide (j = i)) as [->|Hne].
      - rewrite elem_insert_eq by lia. cbn [set1 e0 e3]. by apply Hks.
      - rewrite elem_insert_ne by lia. by apply Hks. }
    rewrite (pick_index e0 (y <? bh - 1) s1) by grid_side.
    rewrite (pick_index e3 (x >? 0) s1) by grid_side.
    unfold assign2. rewrite !(index_elem s1 i) by lia. cbn [mbind result_bind].
    rewrite assign_Ok by lia.
    set (v2 := cai _ T).
    eexists. split; [done|]. split; [by rewrite len_insert|]. split.
    { intros j Hj. destruct (decide (j = i)) as [->|Hne].
      - rewrite elem_insert_eq by lia. cbn [set2 e0 e3]. by apply Hks1.
      - rewrite elem_insert_ne by lia. by apply Hks1. }
    assert (v1 = cai (neighbors_tr u bw y x) T) as Hv1.
    { unfold v1, neighbors_tr, set0, set1. fold i. cbn [e0 e1 e2 e3].
      destruct (Hks i ltac:(lia)) as [-> ->].
      f_equal. f_equal.
      - destruct (Z.gtb_spec y 0); [|done]. apply Hks. nia.
      - destruct (Z.ltb_spec x (bw - 1)); [|done]. apply Hks. nia. }
    assert (v2 = cai (neighbors_bl u bw bh y x) T) as Hv2.
    { unfold v2, neighbors_bl, set2, set3. fold i. cbn [e0 e1 e2 e3].
      destruct (Hks1 i ltac:(lia)) as [-> ->].
      f_equal. f_equal.
      - destruct (Z.ltb_spec y (bh - 1)); [|done]. apply Hks1. nia.
      - destruct (Z.gtb_spec x 0); [|done]. apply Hks1. nia. }
    intros y' x' Hy' Hx' Hk.
    destruct (decide (y' * bw + x' = i)) as [Heq|Hne].
    + unfold i in Heq. apply grid_inj in Heq as [-> ->]; [|done|done]. fold i.
      rewrite elem_insert_eq by lia. unfold s1.
      rewrite elem_insert_eq by lia. cbn [set1 set2 e1 e2]. done.
    + assert (0 <= y' * bw + x') by nia.
      rewrite elem_insert_ne by lia. unfold s1.
      rewrite elem_insert_ne by lia. apply His; [done | done | lia].
  - exists w. split; [done|]. split; [done|]. intros y x Hy Hx.
    pose proof (grid_lt bw bh y x Hy Hx) as Hg.
    destruct (Hkw (y * bw + x) Hg) as [Hk0 Hk3].
    destruct (Hiw y x ltac:(lia) Hx ltac:(lia)) as [Hi1 Hi2].
    done.
Qed.

(** The last loops of [decrypt]: the four pixels of each block written
    at their places of the row-major image of width [2 * bw]. *)
Lemma decrypt_output_loop (w : list byte4) (bw bh : Z) :
  0 <= bw -> 0 <= bh -> len w = bh * bw ->
  exists image,
    foldM (fun y image =>
      foldM (fun x image =>
               b ← index w (y * bw + x);
               image ← assign image (2 * y * (2 * bw) + 2 * x) (e0 b);
               b ← index w (y * bw + x);
               image ← assign image (2 * y * (2 * bw) + (2 * x + 1)) (e1 b);
               b ← index w (y * bw + x);
               image ← assign image ((2 * y + 1) * (2 * bw) + 2 * x) (e2 b);
               b ← index w (y * bw + x);
               assign image ((2 * y + 1) * (2 * bw) + (2 * x + 1)) (e3 b))
            (range bw) image)
      (range bh) (replicate (Z.to_nat (bh * bw * 4)) 0) = Ok image /\
    len image = bh * bw * 4 /\
    forall y x, 0 <= y < bh -> 0 <= x < bw ->
      elem image (2 * y * (2 * bw) + 2 * x) = e0 (elem w (y * bw + x)) /\
      elem image (2 * y * (2 * bw) + (2 * x + 1)) = e1 (elem w (y * bw + x)) /\
      elem image ((2 * y + 1) * (2 * bw) + 2 * x) = e2 (elem w (y * bw + x)) /\
      elem image ((2 * y + 1) * (2 * bw) + (2 * x + 1)) = e3 (elem w (y * bw + x)).
Proof.
  intros Hbw Hbh Hlw.
  set (F := fun (im : list Z) (y x : Z) =>
    elem im (2 * y * (2 * bw) + 2 * x) = e0 (elem w (y * bw + x)) /\
    elem im (2 * y * (2 * bw) + (2 * x + 1)) = e1 (elem w (y * bw + x)) /\
    elem im ((2 * y + 1) * (2 * bw) + 2 * x) = e2 (elem w (y * bw + x)) /\
    elem im ((2 * y + 1) * (2 * bw) + (2 * x + 1)) = e3 (elem w (y * bw + x))).
  match goal with
  | |- exists image, foldM (fun y _ => foldM (fun x b => @?body y x b) _ _) _ _ = _ /\ _ =>
    destruct (foldM_grid_inv
      (fun k (im : list Z) => len im = bh * bw * 4 /\
         forall y x, 0 <= y -> 0 <= x < bw -> y * bw + x < k -> F im y x)
      body bw bh (replicate (Z.to_nat (bh * bw * 4)) 0)) as (im & Him & Hl & HF)
  end.
  - done.
  - done.
  - split; [rewrite len_replicate; nia|]. intros y x Hy Hx Hk. nia.
  - cbv beta. intros y x im Hy Hx [Hl HF'].
    pose proof (grid_lt bw bh y x Hy Hx) as Hg.
    assert (0 <= 2 * y * (2 * bw) + 2 * x /\
            (2 * y + 1) * (2 * bw) + (2 * x + 1) < bh * bw * 4) as Hc by nia.
    rewrite !(index_elem w) by lia. cbn [mbind result_bind].
    rewrite assign_Ok by lia. cbn [mbind result_bind].
    rewrite assign_Ok by (rewrite !len_insert; lia). cbn [mbind result_bind].
    rewrite assign_Ok by (rewrite !len_insert; lia). cbn [mbind result_bind].
    rewrite assign_Ok by (rewrite !len_insert; lia).
    eexists. split; [done|]. split; [by rewrite !len_insert|].
    intros y' x' Hy' Hx' Hk.
    destruct (decide (y' * bw + x' = y * bw + x)) as [Heq|Hne].
    + apply grid_inj in Heq as [-> ->]; [|done|done]. unfold F.
      split; [|split; [|split]].
      * rewrite !elem_insert_ne by lia. by rewrite elem_insert_eq by lia.
      * rewrite !elem_insert_ne by lia.
        by rewrite elem_insert_eq by (rewrite !len_insert; lia).
      * rewrite !elem_insert_ne by lia.
        by rewrite elem_insert_eq by (rewrite !len_insert; lia).
      * by rewrite elem_insert_eq by (rewrite !len_insert; lia).
    + assert (y' <> y \/ x' <> x) as Hd.
      { destruct (decide (y' = y)) as [->|]; [|by left].
        right. intros ->. done. }
      assert (0 <= 2 * y' * (2 * bw) + 2 * x') by nia.
      destruct (HF' y' x' Hy' Hx' ltac:(lia)) as (H0 & H1 & H2 & H3).
      unfold F.
      rewrite !elem_insert_ne
        by first [ lia | nia | apply cell_ne; lia ].
      done.
  - exists im. split; [done|]. split; [done|].
    intros y x Hy Hx. apply HF; [lia | done |].
    pose proof (grid_lt bw bh y x Hy Hx). lia.
Qed.

(** ** The pipeline at quantization 1 *)

Lemma makeQtable_one (d : list Z) : makeQtable d 1 = Ok (iota 256).
Proof. reflexivity. Qed.

Lemma elem_iota (n : nat) (i : Z) : 0 <= i < Z.of_nat n -> elem (iota n) i = i.
Proof.
  intros Hi. unfold elem. apply list_lookup_total_correct.
  rewrite lookup_iota by lia. f_equal. lia.
Qed.

Section Pipeline.
Context `{RandLaws R} `{!KeyedRand R}.

(** What [Encrypt] returns on a well-formed image of [bw] by [bh]
    blocks: the masked kept pixels, pair by pair, under the swaps drawn
    after the mask. *)
Lemma Encrypt_spec (img : Image.t) (key salt : list Z) (bw bh : Z) :
  0 <= bw -> 0 <= bh ->
  Image.Width img = 2 * bw -> Image.Height img = 2 * bh ->
  len (Image.Image img) = Image.Width img * Image.Height img ->
  let n := Z.to_nat (bh * bw) in
  let mask := (Read (newRNG key salt) (replicate n 0)).1 in
  let rng1 := (Read (newRNG key salt) (replicate n 0)).2 in
  exists h0 p',
    Encrypt (Ok salt) img key
      = Ok (EncryptedImage.mk p' (Image.Width img) (Image.Height img)
              (Image.PadHeight img) (Image.PadHeight img) salt) /\
    length p' = (2 * n)%nat /\
    (forall mk, blocks_with mk p'
                = apply_swaps 0 (draws n rng1).1 (blocks_with mk h0)) /\
    len h0 = 2 * (bh * bw) /\
    forall y x, 0 <= y < bh -> 0 <= x < bw ->
      elem h0 (2 * (y * bw + x))
        = byte_add (pixel img (2 * x) (2 * y)) (elem mask (y * bw + x)) /\
      elem h0 (2 * (y * bw + x) + 1)
        = byte_add (pixel img (2 * x + 1) (2 * y + 1)) (elem mask (y * bw + x)).
Proof.
  intros Hbw Hbh HW HH Hlen n mask rng1.
  assert (0 <= bh * bw) as HN by nia.
  assert (len (Image.Image img) = (bh * bw) * 4) as Hlen4 by (rewrite Hlen; nia).
  unfold Encrypt. cbn [mbind result_bind].
  rewrite Hlen4, Z.quot_mul by lia.
  replace (Z.quot (bh * bw * 4) 2) with (2 * (bh * bw))
    by (apply Z.quot_unique_exact; lia).
  rewrite !make_Ok by lia. cbn [mbind result_bind]. fold n.
  pose proof (Read_length (newRNG key salt) (replicate n 0)) as Hml.
  rewrite length_replicate in Hml.
  fold mask in Hml. unfold rng1.
  destruct (Read (newRNG key salt) (replicate n 0)) as [mask0 r1] eqn:ERead.
  subst mask. cbn [fst snd] in *. unfold At. rewrite HW, HH.
  destruct (encrypt_fill (Image.Image img) mask0 bw bh Hbw Hbh)
    as (h0 & Hh0 & Hl0 & HF0).
  { rewrite Hlen, HW, HH. done. }
  { unfold len. lia. }
  rewrite Hh0. cbn [mbind result_bind].
  destruct (permuteHalfimage_spec h0 n r1) as (p' & Hp' & Hlp' & Hbp').
  { unfold len in Hl0. lia. }
  rewrite Hp'. cbn [mbind result_bind].
  exists h0, p'. split; [done|]. split; [done|]. split; [done|].
  split; [done|]. intros y x Hy Hx. unfold pixel. rewrite HW.
  destruct (HF0 y x Hy Hx) as [Ha Hb]. by rewrite Ha, Hb.
Qed.

(** What [decrypt] returns on the quarter image and the differences of a
    permuted half image [p'] at quantization 1: the blocks [u] of the
    unmasked kept pixels in image order, their interpolation [w] and the
    image laid out from it. *)
Lemma decrypt_spec (c : compressedImage.t) (key : list Z) (bw bh : Z)
  (p' h0 : list Z) :
  0 <= bw -> 0 <= bh ->
  compressedImage.Width c = 2 * bw -> compressedImage.Height c = 2 * bh ->
  let n := Z.to_nat (bh * bw) in
  let mask := (Read (newRNG key (compressedImage.Salt c)) (replicate n 0)).1 in
  let rng1 := (Read (newRNG key (compressedImage.Salt c)) (replicate n 0)).2 in
  length (compressedImage.Quarterimage c) = n ->
  length (compressedImage.Qdiffs c) = n ->
  compressedImage.Qtable c = iota 256 ->
  (forall i, (i < n)%nat ->
     compressedImage.Quarterimage c !! i = Some (p' !!! (2 * i)%nat)) ->
  (forall i, (i < n)%nat ->
     compressedImage.Qdiffs c !! i
       = Some (byte_sub (p' !!! (2 * i + 1)%nat) (p' !!! (2 * i)%nat))) ->
  length p' = (2 * n)%nat -> length h0 = (2 * n)%nat ->
  blocks_with rebuilt p' = apply_swaps 0 (draws n rng1).1 (blocks_with rebuilt h0) ->
  exists u w image,
    decrypt c key
      = Ok (Image.mk image (compressedImage.Width c) (compressedImage.Height c)
              (compressedImage.PadWidth c) (compressedImage.PadHeight c)) /\
    len u = bh * bw /\
    (forall i, 0 <= i < bh * bw ->
       elem u i = B4 (byte_sub (e0 (rebuilt (elem h0 (2 * i)) (elem h0 (2 * i + 1))))
                               (elem mask i))
                     0 0
                     (byte_sub (e3 (rebuilt (elem h0 (2 * i)) (elem h0 (2 * i + 1))))
                               (elem mask i))) /\
    (forall y x, 0 <= y < bh -> 0 <= x < bw ->
       e0 (elem w (y * bw + x)) = e0 (elem u (y * bw + x)) /\
       e1 (elem w (y * bw + x)) = cai (neighbors_tr u bw y x) 20 /\
       e2 (elem w (y * bw + x)) = cai (neighbors_bl u bw bh y x) 20 /\
       e3 (elem w (y * bw + x)) = e3 (elem u (y * bw + x))) /\
    len image = bh * bw * 4 /\
    (forall y x, 0 <= y < bh -> 0 <= x < bw ->
       elem image (2 * y * (2 * bw) + 2 * x) = e0 (elem w (y * bw + x)) /\
       elem image (2 * y * (2 * bw) + (2 * x + 1)) = e1 (elem w (y * bw + x)) /\
       elem image ((2 * y + 1) * (2 * bw) + 2 * x) = e2 (elem w (y * bw + x)) /\
       elem image ((2 * y + 1) * (2 * bw) + (2 * x + 1)) = e3 (elem w (y * bw + x))).
Proof.
  intros Hbw Hbh HW HH n mask rng1 Hlq Hld Hqt Hq Hd Hlp Hlh Hperm.
  assert (0 <= bh * bw) as HN by nia.
  unfold decrypt.
  assert (len (compressedImage.Quarterimage c) = Z.of_nat n) as Hlenq
    by (unfold len; lia).
  rewrite Hlenq, !make_Ok by lia. cbn [mbind result_bind].
  rewrite Nat2Z.id, len_replicate.
  (* the first loop *)
  destruct (decrypt_blocks_loop (compressedImage.Quarterimage c)
              (compressedImage.Qdiffs c) (compressedImage.Qtable c) n Hlq Hld)
    as (b0 & Hb0 & Hlb0 & Hvb0).
  { intros i Hi. rewrite (list_lookup_total_correct _ _ _ (Hd i Hi)), Hqt.
    pose proof (byte_sub_is_byte (p' !!! (2 * i + 1)%nat) (p' !!! (2 * i)%nat)) as Hb.
    unfold is_byte in Hb. unfold len. rewrite length_iota. lia. }
  rewrite Hb0. cbn [mbind result_bind].
  assert (b0 = blocks_with rebuilt p') as ->.
  { apply list_eq. intros i. destruct (decide (i < n)%nat) as [Hi|Hi].
    - rewrite Hvb0 by done.
      rewrite lookup_blocks_with by (rewrite (half_length_div p' n); done).
      rewrite (list_lookup_total_correct _ _ _ (Hq i Hi)).
      rewrite (list_lookup_total_correct _ _ _ (Hd i Hi)), Hqt.
      fold (elem (iota 256)
              (byte_sub (p' !!! (2 * i + 1)%nat) (p' !!! (2 * i)%nat))).
      rewrite elem_iota by apply byte_sub_is_byte. done.
    - rewrite !lookup_ge_None_2; [done | | lia].
      rewrite length_blocks_with, (half_length_div p' n); [lia | done]. }
  (* the mask and the inverse permutation *)
  fold mask rng1.
  pose proof (Read_length (newRNG key (compressedImage.Salt c)) (replicate n 0))
    as Hml.
  rewrite length_replicate in Hml. fold mask in Hml.
  destruct (Read (newRNG key (compressedImage.Salt c)) (replicate n 0))
    as [mask0 r1] eqn:ERead.
  subst mask rng1. cbn [fst snd] in *.
  rewrite Hperm.
  pose proof (unpermuteBlocks_apply_swaps (blocks_with rebuilt h0) r1) as Hun.
  rewrite length_blocks_with, (half_length_div h0 n Hlh) in Hun.
  rewrite Hun. cbn [mbind result_bind].
  (* taking the mask off *)
  destruct (decrypt_unmask_loop mask0 (blocks_with rebuilt h0) n Hml)
    as (u & Hu & Hlu & Hvu).
  { by rewrite length_blocks_with, (half_length_div h0 n Hlh). }
  rewrite Hu. cbn [mbind result_bind].
  assert (len u = bh * bw) as Hlenu by (unfold len; lia).
  rewrite HW, HH.
  replace (Z.quot (2 * bw) 2) with bw by (apply Z.quot_unique_exact; lia).
  replace (Z.quot (2 * bh) 2) with bh by (apply Z.quot_unique_exact; lia).
  (* interpolation *)
  destruct (interpolateBlocks_spec u bw bh 20 Hbw Hbh Hlenu) as (w & Hw & Hlw & Hvw).
  rewrite Hw. cbn [mbind result_bind].
  (* the image *)
  replace (Z.of_nat n * 4) with (bh * bw * 4) by lia.
  destruct (decrypt_output_loop w bw bh Hbw Hbh Hlw) as (image & Him & Hli & Hvi).
  rewrite Him. cbn [mbind result_bind].
  exists u, w, image. split; [done|]. split; [done|].
  split; [|done].
  intros i Hi. unfold elem at 1.
  apply list_lookup_total_correct. rewrite Hvu by lia.
  rewrite (list_lookup_total_correct (blocks_with rebuilt h0) (Z.to_nat i)
             (rebuilt (elem h0 (2 * i)) (elem h0 (2 * i + 1)))).
  - done.
  - rewrite lookup_blocks_with by (rewrite (half_length_div h0 n Hlh); lia).
    unfold elem. do 2 f_equal; f_equal; lia.
Qed.

End Pipeline.

#[global] Instance stored_roundtrip : @fselib_roundtrip stored.
Proof.
  intros src. exists (len src), src. cbn [Encode Decode stored].
  split; [done|]. split; [unfold len; lia|].
  exists src. unfold len. rewrite Nat2Z.id, firstn_all. done.
Qed.

Section FullPipeline.
Context `{RandLaws R} `{!KeyedRand R} `{fselib} `{!fselib_roundtrip}.

(** C1. For an image of even width and height, any key and any salt, at
    quantization 1 and with an entropy codec that round-trips,
    [Decrypt (Compress (Encrypt img k) 1) k] returns an image of the same
    width and height that agrees with [img] at the top left pixel
    (2bx, 2by) and at the bottom right pixel (2bx+1, 2by+1) of every 2x2
    block; the two other pixels of the block are the [cai]
    interpolations of the kept pixels around them. *)
Theorem pipeline_keeps_kept_pixels (img : Image.t) (key salt : list Z) :
  Image_wf img ->
  Z.Even (Image.Width img) -> Z.Even (Image.Height img) ->
  exists enc comp dec,
    Encrypt (Ok salt) img key = Ok enc /\
    Compress enc 1 = Ok comp /\
    Decrypt comp key = Ok dec /\
    Image.Width dec = Image.Width img /\
    Image.Height dec = Image.Height img /\
    len (Image.Image dec) = Image.Width img * Image.Height img /\
    forall bx by_,
      0 <= bx -> 2 * bx < Image.Width img ->
      0 <= by_ -> 2 * by_ < Image.Height img ->
      At img (2 * bx) (2 * by_) = Ok (pixel img (2 * bx) (2 * by_)) /\
      At dec (2 * bx) (2 * by_) = Ok (pixel img (2 * bx) (2 * by_)) /\
      At img (2 * bx + 1) (2 * by_ + 1) = Ok (pixel img (2 * bx + 1) (2 * by_ + 1)) /\
      At dec (2 * bx + 1) (2 * by_ + 1) = Ok (pixel img (2 * bx + 1) (2 * by_ + 1)) /\
      At dec (2 * bx + 1) (2 * by_) = Ok (cai (kept_around_tr img bx by_) 20) /\
      At dec (2 * bx) (2 * by_ + 1) = Ok (cai (kept_around_bl img bx by_) 20).
Proof.
  intros (HW0 & HH0 & Hlen & Hbytes) [bw HW] [bh HH].
  assert (0 <= bw) as Hbw by lia. assert (0 <= bh) as Hbh by lia.
  assert (0 <= bh * bw) as HN by nia.
  set (n := Z.to_nat (bh * bw)).
  (* encryption *)
  destruct (Encrypt_spec img key salt bw bh Hbw Hbh HW HH Hlen)
    as (h0 & p' & Henc & Hlp & Hperm & Hlh0 & Hh0).
  fold n in Henc, Hlp, Hperm, Hh0.
  set (mask := (Read (newRNG key salt) (replicate n 0)).1) in *.
  set (rng1 := (Read (newRNG key salt) (replicate n 0)).2) in *.
  set (enc := EncryptedImage.mk p' _ _ _ _ salt) in Henc.
  (* compression *)
  destruct (compress_spec enc 1 n Hlp eq_refl ltac:(lia))
    as (quarter & qdiffs & d & qtable & Hcomp & Hlq & Hlqd & Hq & Hqd & _ & Hqt).
  rewrite makeQtable_one in Hqt. injection Hqt as <-.
  destruct (roundtrip qdiffs) as (k & dst & Hencode & Hk & dst' & Hdecode & Htake).
  assert (exists comp, Compress enc 1 = Ok comp /\
            comp = CompressedImage.mk quarter (iota 256) (take (Z.to_nat k) dst)
                     salt (Image.Width img) (Image.Height img)
                     (Image.PadHeight img) (Image.PadHeight img))
    as (comp & Hcompress & Hcomp_eq).
  { unfold Compress. rewrite Hcomp. cbn [mbind result_bind].
    cbn [compressedImage.Qdiffs]. rewrite make_Ok by apply len_nonneg.
    cbn [mbind result_bind]. unfold len at 1. rewrite Nat2Z.id, Hencode.
    cbn [mbind result_bind]. rewrite slice_to_Ok by done.
    cbn [mbind result_bind]. eexists. split; reflexivity. }
  (* decryption *)
  destruct (decrypt_spec
              (compressedImage.mk quarter (iota 256) qdiffs salt
                 (Image.Width img) (Image.Height img)
                 (Image.PadHeight img) (Image.PadHeight img))
              key bw bh p' h0 Hbw Hbh HW HH Hlq Hlqd eq_refl Hq)
    as (u & w & image & Hdec & Hlu & Hu & Hw & Hli & Him).
  { intros i Hi. cbn [compressedImage.Qdiffs]. rewrite (Hqd i Hi).
    cbn [EncryptedImage.Halfimage enc]. unfold byte_shr.
    change (TrailingZeros8 1) with 0. by rewrite Z.shiftr_0_r. }
  { done. }
  { unfold len in Hlh0. lia. }
  { apply Hperm. }
  cbn [compressedImage.Salt compressedImage.Width compressedImage.Height
       compressedImage.PadWidth compressedImage.PadHeight] in Hdec, Hu.
  fold n mask in Hu.
  assert (Decrypt comp key
          = Ok (Image.mk image (Image.Width img) (Image.Height img)
                  (Image.PadHeight img) (Image.PadHeight img))) as HDec.
  { unfold Decrypt. rewrite Hcomp_eq.
    cbn [CompressedImage.Quarterimage CompressedImage.EncQdiffs
         CompressedImage.Qtable CompressedImage.Salt CompressedImage.Width
         CompressedImage.Height CompressedImage.PadHeight].
    rewrite make_Ok by apply len_nonneg. cbn [mbind result_bind].
    unfold len at 1. rewrite Nat2Z.id, Hlq, <- Hlqd, Hdecode.
    cbn [mbind result_bind].
    assert (length qdiffs <= length dst')%nat as Hle.
    { rewrite <- Htake at 1. rewrite length_take. lia. }
    rewrite slice_to_Ok by (unfold len; lia). cbn [mbind result_bind].
    unfold len. rewrite Nat2Z.id, Htake. exact Hdec. }
  exists enc, comp. eexists. split; [done|]. split; [done|]. split; [exact HDec|].
  split; [done|]. split; [done|].
  cbn [Image.Image]. split; [rewrite Hli, HW, HH; lia|].
  (* the kept pixels of the blocks *)
  assert (forall y x, 0 <= y < bh -> 0 <= x < bw ->
            0 <= 2 * y * (2 * bw) + 2 * x /\
            (2 * y + 1) * (2 * bw) + (2 * x + 1) < len (Image.Image img))
    as Hcell by (intros; rewrite Hlen, HW, HH; nia).
  assert (forall x y, 0 <= x < 2 * bw -> 0 <= y < 2 * bh ->
            is_byte (pixel img x y)) as Hpix.
  { intros x y Hx Hy. unfold pixel. eapply Forall_lookup_1; [exact Hbytes|].
    apply elem_lookup. rewrite Hlen, HW, HH. nia. }
  assert (forall y x, 0 <= y < bh -> 0 <= x < bw ->
            e0 (elem u (y * bw + x)) = pixel img (2 * x) (2 * y) /\
            e3 (elem u (y * bw + x)) = pixel img (2 * x + 1) (2 * y + 1))
    as Hkept.
  { intros y x Hy Hx. pose proof (grid_lt bw bh y x Hy Hx) as Hg.
    rewrite (Hu _ Hg). destruct (Hh0 y x Hy Hx) as [-> ->].
    unfold rebuilt. cbn [e0 e3].
    rewrite byte_add_sub by apply byte_add_is_byte.
    rewrite !byte_sub_add by (apply Hpix; lia). done. }
  intros bx by_ Hbx0 Hbx Hby0 Hby.
  assert (0 <= by_ < bh) as Hy by lia. assert (0 <= bx < bw) as Hx by lia.
  destruct (Hcell by_ bx Hy Hx) as [Hc0 Hc1].
  destruct (Him by_ bx Hy Hx) as (Hi0 & Hi1 & Hi2 & Hi3).
  destruct (Hw by_ bx Hy Hx) as (Hw0 & Hw1 & Hw2 & Hw3).
  destruct (Hkept by_ bx Hy Hx) as [Hk0 Hk3].
  unfold At, pixel in *. cbn [Image.Image Image.Width]. rewrite HW in *.
  assert (len image = len (Image.Image img)) as Hlen'
    by (rewrite Hli, Hlen, ?HW, ?HH; lia).
  rewrite !index_elem by (rewrite ?Hlen'; nia).
  rewrite Hi0, Hi1, Hi2, Hi3, Hw0, Hw1, Hw2, Hw3, Hk0, Hk3.
  repeat split; try done.
  - do 2 f_equal. unfold neighbors_tr, kept_around_tr, pixel. rewrite HW.
    replace (Z.quot (2 * bw) 2) with bw by (apply Z.quot_unique_exact; lia).
    rewrite Hk0, Hk3. f_equal.
    + destruct (Z.gtb_spec by_ 0); [|done].
      destruct (Hkept (by_ - 1) bx ltac:(lia) Hx) as [_ ->].
      f_equal. lia.
    + destruct (Z.ltb_spec bx (bw - 1)); [|done].
      replace (by_ * bw + bx + 1) with (by_ * bw + (bx + 1)) by lia.
      destruct (Hkept by_ (bx + 1) Hy ltac:(lia)) as [-> _].
      f_equal. lia.
  - do 2 f_equal. unfold neighbors_bl, kept_around_bl, pixel. rewrite HW, HH.
    replace (Z.quot (2 * bh) 2) with bh by (apply Z.quot_unique_exact; lia).
    rewrite Hk0, Hk3. f_equal.
    + destruct (Z.ltb_spec by_ (bh - 1)); [|done].
      destruct (Hkept (by_ + 1) bx ltac:(lia) Hx) as [-> _].
      f_equal. lia.
    + destruct (Z.gtb_spec bx 0); [|done].
      replace (by_ * bw + bx - 1) with (by_ * bw + (bx - 1)) by lia.
      destruct (Hkept by_ (bx - 1) Hy ltac:(lia)) as [_ ->].
      f_equal. lia.
Qed.

End FullPipeline.

Lemma pipeline_keeps_kept_pixels_witness :
  let img := Image.mk [10; 20; 30; 40; 50; 60; 70; 80] 4 2 false false in
  let key := [73; 32; 97; 109] in
  let salt := replicate 16 0 in
  exists enc comp dec,
    Encrypt (Ok salt) img key = Ok enc /\
    @Compress stored enc 1 = Ok comp /\
    @Decrypt _ _ cyclic_newRNG stored comp key = Ok dec /\
    Image.Width dec = Image.Width img /\
    Image.Height dec = Image.Height img /\
    len (Image.Image dec) = Image.Width img * Image.Height img /\
    forall bx by_,
      0 <= bx -> 2 * bx < Image.Width img ->
      0 <= by_ -> 2 * by_ < Image.Height img ->
      At img (2 * bx) (2 * by_) = Ok (pixel img (2 * bx) (2 * by_)) /\
      At dec (2 * bx) (2 * by_) = Ok (pixel img (2 * bx) (2 * by_)) /\
      At img (2 * bx + 1) (2 * by_ + 1) = Ok (pixel img (2 * bx + 1) (2 * by_ + 1)) /\
      At dec (2 * bx + 1) (2 * by_ + 1) = Ok (pixel img (2 * bx + 1) (2 * by_ + 1)) /\
      At dec (2 * bx + 1) (2 * by_) = Ok (cai (kept_around_tr img bx by_) 20) /\
      At dec (2 * bx) (2 * by_ + 1) = Ok (cai (kept_around_bl img bx by_) 20).
Proof.
  apply (@pipeline_keeps_kept_pixels Reader Reader_Rand Reader_RandLaws
           cyclic_newRNG stored stored_roundtrip
           (Image.mk [10; 20; 30; 40; 50; 60; 70; 80] 4 2 false false)
           [73; 32; 97; 109] (replicate 16 0)).
  - split; [simpl; lia|]. split; [simpl; lia|]. split; [reflexivity|].
    repeat constructor; unfold is_byte; lia.
  - exists 2. reflexivity.
  - exists 1. reflexivity.
Defined.

(** ** The tests of the repository, run on the model *)

Example TestMinMaxMedian :
  forallb (fun p =>
             let '(min, max, median) := minmaxmedian p in
             (min =? 1) && (max =? 4) && ((median =? 2) || (median =? 3)))
          arrangements_1234 = true.
Proof. reflexivity. Qed.

(** With quantization 1, [cai] reconstructs a gradient in one direction
    exactly; the outcome does not depend on the generator. *)
Example TestDecryptGradient :
  let key := [73; 32; 97; 109] in
  Image.Image <$>
    (img ← NewImage gradient 16 16;
     enc ← Encrypt (Ok (replicate 16 0)) img key;
     comp ← compress enc 1;
     @decrypt Reader Reader_Rand cyclic_newRNG comp key)
  = Ok gradient.
Proof. vm_compute. reflexivity. Qed.

(** * Further properties of the code *)

(** ** NewImage: errors and odd dimensions *)

Lemma foldM_no_Err {A S} (body : A -> S -> result S) (xs : list A) (s : S) (e : string) :
  (forall x s e, body x s <> Err e) -> foldM body xs s <> Err e.
Proof.
  intros Hbody. revert s. induction xs as [|x xs IH]; intros s; simpl; [done|].
  destruct (body x s) as [s1|e1|] eqn:E; simpl; [apply IH | | done].
  by apply Hbody in E.
Qed.

Lemma NewImage_Err_inv (data : list Z) (width height : Z) (e : string) :
  NewImage data width height = Err e ->
  len data <> width * height /\ e = "invalid image data"%string.
Proof.
  unfold NewImage.
  destruct (Z.eqb_spec (len data) (width * height)) as [Heq|Hne]; simpl.
  - intros H. exfalso.
    destruct (_ && _); [done|].
    unfold make_cap in H. destruct (_ || _); [done|]. simpl in H.
    destruct (negb _); [|done].
    match type of H with
    | foldM ?b ?xs ?s ≫= _ = _ =>
        destruct (foldM b xs s) eqn:E; [done | | done]
    end.
    revert E. apply foldM_no_Err. intros y s e0.
    unfold slice_from, slice.
    repeat (match goal with
            | |- context [if ?c then _ else _] => destruct c
            end; cbn [mbind result_bind]); discriminate.
  - by intros [= <-].
Qed.

Lemma NewImage_odd_shape (data : list Z) (width height : Z)
  (img : Image.t) :
  NewImage data width height = Ok img ->
  Z.rem width 2 <> 0 \/ Z.rem height 2 <> 0 ->
  img = Image.mk [] (width + Z.rem width 2) (height + Z.rem height 2)
          (negb (Z.rem width 2 =? 0)) (negb (Z.rem height 2 =? 0)).
Proof.
  intros Hnew Hodd. pose proof (NewImage_odd_empty _ _ _ _ Hnew Hodd) as Hempty.
  unfold NewImage in Hnew. destruct (negb (len data =? _)); [done|].
  destruct (Z.eqb_spec (Z.rem width 2) 0), (Z.eqb_spec (Z.rem height 2) 0);
    simpl in Hnew; try lia.
  all: apply bind_Ok_inv in Hnew as (p0 & _ & Hnew).
  2,3: apply bind_Ok_inv in Hnew as (p1 & _ & Hnew).
  all: injection Hnew as <-; simpl in Hempty; by subst.
Qed.


(** X2. Whenever a dimension is odd and [NewImage] returns, the image holds
    no pixel at all, while its width and height are the given ones
    rounded away from zero to even and the pad flags tell which
    dimension was odd. *)
Theorem NewImage_odd_returns_empty (data : list Z) (width height : Z)
  (img : Image.t) :
  NewImage data width height = Ok img ->
  Z.rem width 2 <> 0 \/ Z.rem height 2 <> 0 ->
  img = Image.mk [] (width + Z.rem width 2) (height + Z.rem height 2)
          (negb (Z.rem width 2 =? 0)) (negb (Z.rem height 2 =? 0)).
Proof. apply NewImage_odd_shape. Qed.

Lemma NewImage_odd_returns_empty_witness :
  Image.mk [] 2 2 true true
  = Image.mk [] (1 + Z.rem 1 2) (1 + Z.rem 1 2)
      (negb (Z.rem 1 2 =? 0)) (negb (Z.rem 1 2 =? 0)).
Proof.
  apply (NewImage_odd_returns_empty [7] 1 1 (Image.mk [] 2 2 true true)).
  - reflexivity.
  - left. vm_compute. discriminate.
Defined.

Lemma slice_from_nil {A} (lo : Z) :
  slice_from (@nil A) lo = if lo =? 0 then Ok [] else Panic.
Proof.
  unfold slice_from, len. change (Z.of_nat (length (@nil A))) with 0.
  destruct (Z.eqb_spec lo 0) as [->|Hne]; [done|].
  destruct (Z.leb_spec 0 lo), (Z.leb_spec lo 0); cbn [andb]; try lia; done.
Qed.

Lemma slice_Ok {A} (l : list A) (lo hi : Z) :
  0 <= lo <= hi -> hi <= len l ->
  slice l lo hi = Ok (take (Z.to_nat (hi - lo)) (drop (Z.to_nat lo) l)).
Proof.
  intros H1 H2. unfold slice.
  destruct (Z.leb_spec 0 lo), (Z.leb_spec lo hi), (Z.leb_spec hi (len l));
    simpl; try lia; done.
Qed.

Lemma range_two (n : Z) : 2 <= n -> exists rest, range n = 0 :: 1 :: rest.
Proof.
  intros Hn. unfold range.
  destruct (Z.to_nat n) as [|[|m]] eqn:Hm; [lia | lia |].
  eexists. reflexivity.
Qed.

(** X3. An odd width with two rows or more makes [NewImage] panic: the
    second row is copied to [padded[pw:]], beyond the zero length of
    [padded]. *)
Theorem NewImage_odd_width_panics (data : list Z) (width height : Z) :
  len data = width * height -> Z.rem width 2 <> 0 -> 2 <= height ->
  NewImage data width height = Panic.
Proof.
  intros Hlen Hodd Hh.
  assert (0 <= len data) as Hnn by (unfold len; lia).
  assert (1 <= width) as Hw.
  { destruct (Z.lt_ge_cases width 1) as [Hlt|]; [|done].
    assert (width = 0 \/ width < 0) as [-> | Hneg] by lia; [done | nia]. }
  assert (Z.rem width 2 = 1) as Hrem.
  { pose proof (Z.rem_bound_pos width 2 ltac:(lia) ltac:(lia)). lia. }
  pose proof (Z.rem_bound_pos height 2 ltac:(lia) ltac:(lia)) as Hrh.
  unfold NewImage. rewrite Hlen, Z.eqb_refl, Hrem. cbn [negb Z.eqb andb].
  unfold make_cap.
  destruct (Z.ltb_spec ((width + 1) * (height + Z.rem height 2)) 0); [nia|].
  cbn [Z.ltb Z.compare orb Z.to_nat replicate mbind result_bind].
  destruct (range_two height Hh) as [rest ->].
  change (replicate (Z.to_nat 0) 0) with (@nil Z).
  rewrite foldM_cons. cbv beta. rewrite slice_from_nil.
  cbn [Z.mul Z.eqb mbind result_bind].
  rewrite slice_Ok by (rewrite ?Hlen; nia).
  cbn [mbind result_bind]. rewrite copy_at_nil, Z.mul_0_l.
  cbn [Z.eqb mbind result_bind]. rewrite foldM_cons. cbv beta.
  rewrite slice_from_nil.
  destruct (Z.eqb_spec (1 * (width + 1)) 0); [lia|]. reflexivity.
Qed.

Lemma NewImage_odd_width_panics_witness : NewImage [7; 8; 9] 1 3 = Panic.
Proof.
  apply (NewImage_odd_width_panics [7; 8; 9] 1 3); [reflexivity | | lia].
  vm_compute. discriminate.
Defined.

Lemma Encrypt_empty_panics `{KeyedRand R} (width height : Z) (pw ph : bool)
  (key salt : list Z) :
  0 < width -> 0 < height ->
  Encrypt (Ok salt) (Image.mk [] width height pw ph) key = Panic.
Proof.
  intros Hw Hh.
  unfold Encrypt. cbn [mbind result_bind Image.Image Image.Width Image.Height].
  change (len (@nil Z)) with 0.
  change (Z.quot 0 4) with 0. change (Z.quot 0 2) with 0.
  change (make 0 0) with (Ok (@nil Z)). cbn [mbind result_bind].
  destruct (Read (newRNG key salt) []) as [mask rng].
  unfold range2.
  destruct (Z.to_nat ((height + 1) / 2)) as [|a] eqn:Ha.
  { assert (1 <= (height + 1) / 2) by (apply Z.div_le_lower_bound; lia). lia. }
  destruct (Z.to_nat ((width + 1) / 2)) as [|b] eqn:Hb.
  { assert (1 <= (width + 1) / 2) by (apply Z.div_le_lower_bound; lia). lia. }
  cbn [seq fmap list_fmap]. rewrite !foldM_cons. reflexivity.
Qed.

(** X4. [Encrypt] panics on every image with pixels to visit that
    [NewImage] returns for an odd dimension: the image is empty and the
    first pixel read is out of range. *)
Theorem Encrypt_panics_after_padding `{KeyedRand R} (data : list Z)
  (width height : Z) (img : Image.t) (key salt : list Z) :
  NewImage data width height = Ok img ->
  Z.rem width 2 <> 0 \/ Z.rem height 2 <> 0 ->
  0 < width -> 0 < height ->
  Encrypt (Ok salt) img key = Panic.
Proof.
  intros Hnew Hodd Hw Hh.
  rewrite (NewImage_odd_shape _ _ _ _ Hnew Hodd).
  pose proof (Z.rem_bound_pos width 2 ltac:(lia) ltac:(lia)) as Hrw.
  pose proof (Z.rem_bound_pos height 2 ltac:(lia) ltac:(lia)) as Hrh.
  apply Encrypt_empty_panics; lia.
Qed.

Lemma Encrypt_panics_after_padding_witness :
  @Encrypt Reader Reader_Rand cyclic_newRNG (Ok (replicate 16 0))
    (Image.mk [] 2 2 true true) [1; 2; 3] = Panic.
Proof.
  apply (@Encrypt_panics_after_padding Reader Reader_Rand cyclic_newRNG
           [7] 1 1 (Image.mk [] 2 2 true true) [1; 2; 3] (replicate 16 0)).
  - reflexivity.
  - left. vm_compute. discriminate.
  - lia.
  - lia.
Defined.

(** ** compress: the order of its checks, its output, its loss *)

Lemma range2_odd (n : nat) :
  range2 (2 * Z.of_nat n + 1)
  = range2 (2 * Z.of_nat n) ++ [2 * Z.of_nat n].
Proof.
  unfold range2.
  replace (Z.to_nat ((2 * Z.of_nat n + 1 + 1) / 2)) with (S n)
    by (Z.div_mod_to_equations; lia).
  replace (Z.to_nat ((2 * Z.of_nat n + 1) / 2)) with n
    by (Z.div_mod_to_equations; lia).
  rewrite seq_S, fmap_app. simpl. done.
Qed.

Lemma foldM_snoc {A S} (body : A -> S -> result S) (xs : list A) (x : A) (s : S) :
  foldM body (xs ++ [x]) s = foldM body xs s ≫= body x.
Proof.
  revert s. induction xs as [|y xs IH]; intros s; simpl.
  - by destruct (body x s).
  - destruct (body y s); simpl; auto.
Qed.

(** X5. On a half image of odd length [compress] panics whatever the
    quantization, valid or not: the loop of the differences reads past
    the end before the quantization is checked. *)
Theorem compress_odd_panics (img : EncryptedImage.t) (q : Z) :
  Nat.Odd (length (EncryptedImage.Halfimage img)) ->
  compress img q = Panic.
Proof.
  intros [n Hn]. unfold compress.
  set (half := EncryptedImage.Halfimage img) in *.
  assert (len half = 2 * Z.of_nat n + 1) as Hl by (unfold len; lia).
  assert (Z.quot (len half) 2 = Z.of_nat n) as ->.
  { rewrite Hl. symmetry. apply (Z.quot_unique _ _ _ 1); lia. }
  rewrite make_Ok by lia. cbn [mbind result_bind]. rewrite Nat2Z.id.
  rewrite Hl, range2_odd, foldM_snoc.
  destruct (foldM_range2_inv
    (fun _ (d : list Z) => length d = n)
    (fun i diffs =>
       a ← index half (i + 1); b ← index half i;
       assign diffs (Z.quot i 2) (byte_sub a b))
    (Z.of_nat n) (replicate n 0)) as (d & -> & Hd).
  - lia.
  - by rewrite length_replicate.
  - cbv beta. intros i d Hi Hd.
    rewrite !index_total by lia. cbn [mbind result_bind].
    rewrite Z.mul_comm, Z.quot_mul by lia.
    rewrite assign_Ok by (unfold len; lia).
    eexists. split; [done|]. by rewrite length_insert.
  - cbn [mbind result_bind].
    assert (index half (2 * Z.of_nat n + 1) = Panic) as ->; [|done].
    unfold index. destruct (Z.ltb_spec (2 * Z.of_nat n + 1) 0); [done|].
    by rewrite lookup_ge_None_2 by lia.
Qed.

Lemma compress_odd_panics_witness :
  compress (EncryptedImage.mk [1; 2; 3] 2 2 false false []) 3 = Panic.
Proof.
  apply (compress_odd_panics (EncryptedImage.mk [1; 2; 3] 2 2 false false []) 3).
  exists 1%nat. reflexivity.
Defined.

Lemma byte_shl_small (k m : Z) :
  0 <= m -> 0 <= k * 2 ^ m < 256 -> byte_shl k m = k * 2 ^ m.
Proof.
  intros Hm Hk. unfold byte_shl. rewrite Z.shiftl_mul_pow2 by done.
  by apply Z.mod_small.
Qed.

(** The table of a power of two [2 ^ m]: every entry lies in the bucket
    of its index. *)
Lemma makeQtable_buckets (d : list Z) (q m : Z) :
  length d = 256%nat -> 0 <= m <= 7 -> q = 2 ^ m -> TrailingZeros8 q = m ->
  exists t,
    makeQtable d q = Ok t /\
    len t = 2 ^ (8 - m) /\
    forall k, 0 <= k < 2 ^ (8 - m) -> k * q <= elem t k < (k + 1) * q.
Proof.
  intros Hd Hm Hq Htz. unfold makeQtable. rewrite Htz.
  assert (0 < q) as Hqpos by (subst q; apply Z.pow_pos_nonneg; lia).
  set (L := 2 ^ (8 - m)).
  assert (0 < L) as HLpos by (apply Z.pow_pos_nonneg; lia).
  assert (L * q = 256) as HLq.
  { subst q. unfold L. rewrite <- Z.pow_add_r by lia.
    by replace (8 - m + m) with 8 by lia. }
  assert (to_byte m = m) as -> by (apply to_byte_small; lia).
  assert (Z.shiftr 256 m = L) as ->.
  { rewrite Z.shiftr_div_pow2 by lia. rewrite <- Hq, <- HLq. apply Z.div_mul. lia. }
  rewrite make_Ok by lia. cbn [mbind result_bind]. rewrite len_replicate, Z2Nat.id by lia.
  set (inb := fun (t : list Z) (k : Z) => k * q <= elem t k < (k + 1) * q).
  match goal with
  | |- exists t, foldM ?body _ _ = _ /\ _ =>
    destruct (foldM_range_inv
      (fun i (t : list Z) => len t = L /\ forall k, 0 <= k < i -> inb t k)
      body L (replicate (Z.to_nat L) 0)) as (t & Ht & Hlt & Hin)
  end.
  - lia.
  - split; [rewrite len_replicate; lia | intros; lia].
  - cbv beta. intros k t Hk [Hlt Hin].
    assert (byte_shl (to_byte k) m = k * q) as Hbase.
    { rewrite (to_byte_small k) by nia. rewrite Hq.
      apply byte_shl_small; [lia|]. rewrite <- Hq. nia. }
    rewrite assign_Ok by lia. cbn [mbind result_bind].
    destruct (foldM_total
      (fun t' : list Z => len t' = L /\ (forall k', 0 <= k' < k -> inb t' k') /\ inb t' k)
      (fun j qtable =>
         dj ← index d j;
         qk ← index qtable k;
         dq ← index d qk;
         if dj <? dq
         then assign qtable k (byte_add (byte_shl (to_byte k) m) j)
         else Ok qtable)
      (range_from 1 q) (<[Z.to_nat k := byte_shl (to_byte k) m]> t))
      as (t' & Ht' & Hlt' & Hin' & Hk').
    + split; [by rewrite len_insert|]. split.
      * intros k' Hk''. unfold inb. rewrite elem_insert_ne by lia. by apply Hin.
      * unfold inb. rewrite elem_insert_eq by lia. rewrite Hbase. lia.
    + intros j t' Hj%elem_of_range_from (Hlt' & Hin' & Hk').
      assert (0 <= elem t' k < 256) as Hb by (unfold inb in Hk'; nia).
      rewrite (index_elem t') by lia.
      assert (q <= 256) by nia.
      assert (len d = 256) as Hld by (unfold len; rewrite Hd; done).
      rewrite (index_elem d j) by lia. cbn [mbind result_bind].
      rewrite (index_elem d (elem t' k)) by lia.
      cbn [mbind result_bind].
      match goal with |- context [if ?c then _ else _] => destruct c end;
        [|eauto].
      rewrite assign_Ok by lia. eexists. split; [done|].
      split; [by rewrite len_insert|]. split.
      * intros k' Hk''. unfold inb. rewrite elem_insert_ne by lia. by apply Hin'.
      * unfold inb. rewrite elem_insert_eq by lia. rewrite Hbase.
        unfold byte_add. rewrite Z.mod_small by nia. lia.
    + exists t'. split; [done|]. split; [done|].
      intros k' Hk''. destruct (decide (k' = k)) as [->|]; [done|].
      apply Hin'. lia.
  - exists t. split; [done|]. split; [done|]. intros k Hk. by apply Hin.
Qed.

Lemma power_of_two_log (q : Z) :
  0 <= q < 256 -> power_of_two q ->
  exists m, 0 <= m <= 7 /\ q = 2 ^ m /\ TrailingZeros8 q = m /\ OnesCount8 q = 1.
Proof.
  intros Hq Hp. apply power_of_two_byte in Hp; [|done].
  rewrite !elem_of_cons, elem_of_nil in Hp.
  destruct Hp as [->|[->|[->|[->|[->|[->|[->|[->|[]]]]]]]]];
    [exists 0 | exists 1 | exists 2 | exists 3 | exists 4 | exists 5
    | exists 6 | exists 7]; (split; [lia|]); repeat split; reflexivity.
Qed.

(** X6. For a power of two [q] the quantization table has one entry for each
    of the [256 / q] buckets of [q] consecutive differences, and the
    entry of bucket [k] is a difference of that bucket, whatever the
    distortions say. *)
Theorem makeQtable_entry_in_bucket (distortions : list Z) (q : Z) :
  length distortions = 256%nat -> 0 <= q < 256 -> power_of_two q ->
  exists qtable,
    makeQtable distortions q = Ok qtable /\
    len qtable = 256 / q /\
    forall k, 0 <= k < 256 / q ->
      k * q <= elem qtable k < (k + 1) * q.
Proof.
  intros Hd Hq Hp.
  destruct (power_of_two_log q Hq Hp) as (m & Hm & Hqm & Htz & _).
  destruct (makeQtable_buckets distortions q m Hd Hm Hqm Htz) as (t & Ht & Hl & Hin).
  assert (256 / q = 2 ^ (8 - m)) as ->.
  { assert (2 ^ (8 - m) * q = 256) as <-.
    { subst q. rewrite <- Z.pow_add_r by lia. by replace (8 - m + m) with 8 by lia. }
    apply Z.div_mul. subst q. apply Z.pow_nonzero; lia. }
  by exists t.
Qed.

Lemma makeQtable_entry_in_bucket_witness :
  exists qtable,
    makeQtable (replicate 256 0) 64 = Ok qtable /\
    len qtable = 256 / 64 /\
    forall k, 0 <= k < 256 / 64 ->
      k * 64 <= elem qtable k < (k + 1) * 64.
Proof.
  apply (makeQtable_entry_in_bucket (replicate 256 0) 64).
  - reflexivity.
  - lia.
  - exists 6. split; [lia | reflexivity].
Defined.

Lemma pow_split (m : Z) : 0 <= m <= 7 -> 2 ^ (8 - m) * 2 ^ m = 256.
Proof.
  intros Hm. rewrite <- Z.pow_add_r by lia. by replace (8 - m + m) with 8 by lia.
Qed.

(** Quantizing the difference of [b] from [a] and adding the table
    entry of its bucket back to [a] gives [b] with an error below [q],
    modulo 256. *)
Lemma requantize (qtable : list Z) (q m a b : Z) :
  0 <= m <= 7 -> q = 2 ^ m ->
  (forall k, 0 <= k < 2 ^ (8 - m) -> k * q <= elem qtable k < (k + 1) * q) ->
  let k := byte_shr (byte_sub b a) m in
  k = byte_sub b a / q /\
  0 <= k < 2 ^ (8 - m) /\
  exists e, - q < e < q /\ byte_add a (elem qtable k) = (b + e) mod 256.
Proof.
  intros Hm Hq Hin k.
  assert (0 < q) as Hqpos by (subst q; apply Z.pow_pos_nonneg; lia).
  pose proof (pow_split m Hm) as Hsplit. rewrite <- Hq in Hsplit.
  set (dv := byte_sub b a) in *.
  assert (0 <= dv < 256) as Hdvb by (apply Z.mod_pos_bound; lia).
  assert (k = dv / q) as Hk.
  { unfold k, byte_shr. by rewrite Z.shiftr_div_pow2, <- Hq by lia. }
  assert (0 <= dv / q < 2 ^ (8 - m)) as Hkr.
  { split; [apply Z.div_pos; lia|].
    apply Z.div_lt_upper_bound; [done|]. lia. }
  split; [done|]. rewrite Hk. split; [done|].
  pose proof (Hin (dv / q) Hkr) as Hentry.
  pose proof (Z.div_mod dv q ltac:(lia)) as Hdm.
  pose proof (Z.mod_pos_bound dv q Hqpos) as Hmb.
  exists (elem qtable (dv / q) - dv). split; [nia|].
  unfold byte_add.
  assert (exists c, dv = b - a + 256 * c) as [c Hcdv].
  { exists (- ((b - a) / 256)). unfold dv, byte_sub.
    rewrite Z.mod_eq by lia. lia. }
  replace (b + (elem qtable (dv / q) - dv))
    with (a + elem qtable (dv / q) + (- c) * 256) by lia.
  by rewrite Z.mod_add by lia.
Qed.

(** X7. What [compress] returns for a valid quantization [q] on a half image
    of [n] pairs: the first pixel of every pair is kept as it is, the
    second as the number of the bucket of its difference from the first,
    which is an index into the table; adding the table entry back to the
    first pixel gives the second pixel with an error below [q],
    modulo 256. *)
Theorem compress_output (img : EncryptedImage.t) (q : Z) (n : nat) :
  length (EncryptedImage.Halfimage img) = (2 * n)%nat ->
  0 <= q < 256 -> power_of_two q ->
  exists c,
    compress img q = Ok c /\
    len (compressedImage.Quarterimage c) = Z.of_nat n /\
    len (compressedImage.Qdiffs c) = Z.of_nat n /\
    len (compressedImage.Qtable c) = 256 / q /\
    compressedImage.Salt c = EncryptedImage.Salt img /\
    compressedImage.Width c = EncryptedImage.Width img /\
    compressedImage.Height c = EncryptedImage.Height img /\
    forall i, 0 <= i < Z.of_nat n ->
      let a := elem (EncryptedImage.Halfimage img) (2 * i) in
      let b := elem (EncryptedImage.Halfimage img) (2 * i + 1) in
      let k := elem (compressedImage.Qdiffs c) i in
      elem (compressedImage.Quarterimage c) i = a /\
      k = byte_sub b a / q /\
      0 <= k < len (compressedImage.Qtable c) /\
      exists e, - q < e < q /\
        byte_add a (elem (compressedImage.Qtable c) k) = (b + e) mod 256.
Proof.
  intros Hlen Hq Hp.
  destruct (power_of_two_log q Hq Hp) as (m & Hm & Hqm & Htz & Hones).
  destruct (compress_spec img q n Hlen Hones ltac:(lia))
    as (quarter & qdiffs & d & qtable & Hc & Hql & Hdl & Hqv & Hdv & Hd & Ht).
  destruct (makeQtable_buckets d q m Hd Hm Hqm Htz) as (t & Ht' & Htl & Hin).
  rewrite Ht in Ht'. injection Ht' as <-.
  assert (256 / q = 2 ^ (8 - m)) as HL.
  { rewrite <- (pow_split m Hm), <- Hqm. apply Z.div_mul. subst q.
    apply Z.pow_nonzero; lia. }
  eexists. split; [exact Hc|]. cbn.
  split; [unfold len; lia|]. split; [unfold len; lia|].
  split; [by rewrite HL|]. do 3 (split; [done|]).
  intros i Hi.
  set (a := elem (EncryptedImage.Halfimage img) (2 * i)).
  set (b := elem (EncryptedImage.Halfimage img) (2 * i + 1)).
  assert (elem qdiffs i = byte_shr (byte_sub b a) m) as Hk.
  { unfold elem at 1. apply list_lookup_total_correct.
    rewrite Hdv by lia. f_equal. rewrite Htz.
    unfold a, b, elem. do 3 f_equal; lia. }
  split.
  { unfold elem at 1. apply list_lookup_total_correct.
    rewrite Hqv by lia. unfold a, elem. do 2 f_equal. lia. }
  rewrite Hk, Htl.
  exact (requantize qtable q m a b Hm Hqm Hin).
Qed.

Lemma compress_output_witness :
  let img := EncryptedImage.mk [10; 200; 7; 3] 4 2 false false [5] in
  exists c,
    compress img 16 = Ok c /\
    len (compressedImage.Quarterimage c) = Z.of_nat 2 /\
    len (compressedImage.Qdiffs c) = Z.of_nat 2 /\
    len (compressedImage.Qtable c) = 256 / 16 /\
    compressedImage.Salt c = EncryptedImage.Salt img /\
    compressedImage.Width c = EncryptedImage.Width img /\
    compressedImage.Height c = EncryptedImage.Height img /\
    forall i, 0 <= i < Z.of_nat 2 ->
      let a := elem (EncryptedImage.Halfimage img) (2 * i) in
      let b := elem (EncryptedImage.Halfimage img) (2 * i + 1) in
      let k := elem (compressedImage.Qdiffs c) i in
      elem (compressedImage.Quarterimage c) i = a /\
      k = byte_sub b a / 16 /\
      0 <= k < len (compressedImage.Qtable c) /\
      exists e, - 16 < e < 16 /\
        byte_add a (elem (compressedImage.Qtable c) k) = (b + e) mod 256.
Proof.
  apply (compress_output (EncryptedImage.mk [10; 200; 7; 3] 4 2 false false [5])
           16 2).
  - reflexivity.
  - lia.
  - exists 4. split; [lia | reflexivity].
Defined.

(** ** The permutation: what it keeps, where it fails, and its inverse *)

Lemma lswap_Permutation {A} (l : list A) (i j : nat) : lswap l i j ≡ₚ l.
Proof.
  destruct (decide (i < length l /\ j < length l)%nat) as [[Hi Hj]|Hout].
  - apply Permutation_inj. split; [apply length_lswap|].
    exists (transpose i j). split.
    + intros a b Hab. apply (f_equal (transpose i j)) in Hab.
      by rewrite !transpose_involutive in Hab.
    + intros k. by apply lookup_lswap.
  - unfold lswap. destruct (l !! i) eqn:Ei; [|done].
    destruct (l !! j) eqn:Ej; [|done].
    apply lookup_lt_Some in Ei, Ej. lia.
Qed.

Lemma apply_swaps_Permutation {A} (off : nat) (vs : list Z) (l : list A) :
  apply_swaps off vs l ≡ₚ l.
Proof.
  revert off l. induction vs as [|v vs IH]; intros off l; simpl; [done|].
  by rewrite IH, lswap_Permutation.
Qed.

Lemma lswap_involutive {A} (l : list A) (i j : nat) :
  lswap (lswap l i j) i j = l.
Proof.
  destruct (decide (i < length l /\ j < length l)%nat) as [[Hi Hj]|Hout].
  - apply list_eq. intros k.
    rewrite lookup_lswap by (by rewrite length_lswap).
    rewrite lookup_lswap by done. by rewrite transpose_involutive.
  - assert (lswap l i j = l) as Hid.
    { unfold lswap. destruct (l !! i) eqn:Ei; [|done].
      destruct (l !! j) eqn:Ej; [|done].
      apply lookup_lt_Some in Ei, Ej. lia. }
    by rewrite !Hid.
Qed.

Lemma length_undo_swaps {A} (off : nat) (vs : list Z) (l : list A) :
  length (undo_swaps off vs l) = length l.
Proof.
  revert off. induction vs as [|v vs IH]; intros off; simpl; [done|].
  by rewrite length_lswap, IH.
Qed.

Lemma undo_swaps_Permutation {A} (off : nat) (vs : list Z) (l : list A) :
  undo_swaps off vs l ≡ₚ l.
Proof.
  revert off. induction vs as [|v vs IH]; intros off; simpl; [done|].
  by rewrite lswap_Permutation, IH.
Qed.

Lemma apply_undo_swaps {A} (off : nat) (vs : list Z) (l : list A) :
  apply_swaps off vs (undo_swaps off vs l) = l.
Proof.
  revert off. induction vs as [|v vs IH]; intros off; simpl; [done|].
  by rewrite lswap_involutive, IH.
Qed.

Lemma undo_apply_swaps {A} (off : nat) (vs : list Z) (l : list A) :
  undo_swaps off vs (apply_swaps off vs l) = l.
Proof.
  revert off l. induction vs as [|v vs IH]; intros off l; simpl; [done|].
  by rewrite IH, lswap_involutive.
Qed.

Lemma unpermuteBlocks_undo_swaps `{RandLaws R} (blocks : list byte4) (rng : R) :
  unpermuteBlocks blocks rng
  = Ok (undo_swaps 0 (draws (length blocks) rng).1 blocks,
        (draws (length blocks) rng).2).
Proof.
  set (vs := (draws (length blocks) rng).1).
  pose proof (unpermuteBlocks_apply_swaps (undo_swaps 0 vs blocks) rng) as Hu.
  rewrite length_undo_swaps in Hu. fold vs in Hu.
  by rewrite apply_undo_swaps in Hu.
Qed.

(** X8. [unpermuteBlocks] returns on every sequence of blocks, with a
    generator that honours the contract of [Intn]: its result is a
    rearrangement of its input, namely the swaps of the draws taken back
    in reverse order, and it leaves the generator where
    [permuteHalfimage] leaves it. *)
Theorem unpermuteBlocks_rearranges `{RandLaws R} (blocks : list byte4) (rng : R) :
  exists out,
    unpermuteBlocks blocks rng = Ok (out, (draws (length blocks) rng).2) /\
    out ≡ₚ blocks /\
    apply_swaps 0 (draws (length blocks) rng).1 out = blocks.
Proof.
  eexists. split; [apply unpermuteBlocks_undo_swaps|]. split.
  - apply undo_swaps_Permutation.
  - apply apply_undo_swaps.
Qed.

Lemma blocks_with_cons2 mk (a b : Z) (p : list Z) :
  blocks_with mk (a :: b :: p) = mk a b :: blocks_with mk p.
Proof.
  unfold blocks_with. cbn [length].
  replace (S (S (length p)) / 2)%nat with (S (length p / 2)).
  2:{ change (S (S (length p))) with (2 + length p)%nat.
      replace (2 + length p)%nat with (1 * 2 + length p)%nat by lia.
      rewrite Nat.div_add_l by lia. lia. }
  cbn [seq fmap list_fmap]. f_equal.
  rewrite <- fmap_S_seq, <- list_fmap_compose.
  apply list_fmap_ext. intros _ i _. cbn [compose].
  replace (2 * S i)%nat with (S (S (2 * i))) by lia.
  replace (2 * S i + 1)%nat with (S (S (2 * i + 1))) by lia.
  done.
Qed.

Lemma pairs_of_blocks_of (n : nat) (p : list Z) :
  length p = (2 * n)%nat -> pairs_of (blocks_of p) = p.
Proof.
  revert p. induction n as [|n IH]; intros p Hp.
  - by destruct p.
  - destruct p as [|a [|b p]]; [done | simpl in Hp; lia |].
    unfold blocks_of. rewrite blocks_with_cons2. unfold pairs_of.
    cbn [mbind list_bind app e0 e1]. f_equal. f_equal.
    apply IH. simpl in Hp. lia.
Qed.

Section PermutedPairs.
Context `{RandLaws R}.

(** X9. [permuteHalfimage] on a half image of even length returns, and moves
    the pixels pair by pair: the pairs of the result are a rearrangement
    of the pairs of the input, hence so are its bytes. *)
Theorem permuteHalfimage_rearranges_pairs (p : list Z) (rng : R) :
  Nat.Even (length p) ->
  exists p' rng',
    permuteHalfimage p rng = Ok (p', rng') /\
    length p' = length p /\
    blocks_of p' ≡ₚ blocks_of p /\
    p' ≡ₚ p.
Proof.
  intros [n Hn].
  destruct (permuteHalfimage_spec p n rng Hn) as (p' & Hp' & Hl' & Hb').
  exists p', (draws n rng).2. split; [done|]. split; [lia|].
  assert (blocks_of p' ≡ₚ blocks_of p) as Hperm.
  { unfold blocks_of. rewrite Hb'. apply apply_swaps_Permutation. }
  split; [done|].
  rewrite <- (pairs_of_blocks_of n p' Hl'), <- (pairs_of_blocks_of n p Hn).
  unfold pairs_of. by rewrite Hperm.
Qed.

(** X10. On a half image of odd length [permuteHalfimage] panics: the last
    iteration asks the generator for an integer below 0. *)
Theorem permuteHalfimage_odd_panics (p : list Z) (rng : R) :
  Nat.Odd (length p) -> permuteHalfimage p rng = Panic.
Proof.
  intros [n Hn]. unfold permuteHalfimage.
  assert (len p = 2 * Z.of_nat n + 1) as Hl by (unfold len; lia).
  rewrite Hl, range2_odd, foldM_snoc.
  assert (forall k off (p0 : list Z) (rng0 : R),
            length p0 = (2 * n + 1)%nat -> (off + k)%nat = n ->
            exists p1 rng1,
              foldM (fun off '(p, rng) =>
                       let lenp := len p - off in
                       '(v, rng) ← rand_Intn rng (Z.quot lenp 2);
                       let n := v * 2 in
                       p ← swap p (off + 0) (off + n);
                       p ← swap p (off + 1) (off + (n + 1));
                       Ok (p, rng))
                    ((fun i => 2 * Z.of_nat i) <$> seq off k) (p0, rng0)
                = Ok (p1, rng1) /\
              length p1 = (2 * n + 1)%nat) as Hloop.
  { induction k as [|k IH]; intros off p0 rng0 Hp0 Hoff.
    { exists p0, rng0. done. }
    cbn [seq fmap list_fmap foldM].
    assert (Z.quot (len p0 - 2 * Z.of_nat off) 2 = Z.of_nat (S k)) as ->.
    { unfold len. symmetry. apply (Z.quot_unique _ _ _ 1); lia. }
    unfold rand_Intn. destruct (Z.leb_spec (Z.of_nat (S k)) 0); [lia|].
    pose proof (Intn_range rng0 (Z.of_nat (S k)) ltac:(lia)) as Hv.
    destruct (Intn rng0 (Z.of_nat (S k))) as [v rng1]. cbn [fst] in Hv.
    cbn [mbind result_bind].
    rewrite swap_Ok by (unfold len; lia). cbn [mbind result_bind].
    rewrite swap_Ok by (unfold len; rewrite length_lswap; lia).
    cbn [mbind result_bind].
    apply IH; [by rewrite !length_lswap | lia]. }
  unfold range2.
  replace (Z.to_nat ((2 * Z.of_nat n + 1) / 2)) with n
    by (Z.div_mod_to_equations; lia).
  destruct (Hloop n 0%nat p rng Hn eq_refl) as (p1 & rng1 & Hfold & Hl1).
  cbv zeta in Hfold |- *. rewrite Hfold.
  cbn [mbind result_bind].
  assert (len p1 - 2 * Z.of_nat n = 1) as -> by (unfold len; lia).
  done.
Qed.

Lemma blocks_of_pairs_of (bs : list byte4) :
  Forall (fun b => e2 b = 0 /\ e3 b = 0) bs -> blocks_of (pairs_of bs) = bs.
Proof.
  induction 1 as [|[a b c d] bs [Hc Hd] _ IH]; [done|].
  cbn [e2 e3] in Hc, Hd. subst c d.
  unfold pairs_of. cbn [mbind list_bind app e0 e1].
  unfold blocks_of. rewrite blocks_with_cons2. f_equal. exact IH.
Qed.

Lemma length_pairs_of (bs : list byte4) :
  length (pairs_of bs) = (2 * length bs)%nat.
Proof.
  induction bs as [|b bs IH]; [done|].
  unfold pairs_of in *. cbn [mbind list_bind app length]. rewrite IH. lia.
Qed.

(** X11. The other round trip: unpermuting the blocks of a half image and
    permuting the half image of the result, with the generator in the
    same state, gives the half image back. *)
Theorem unpermute_then_permute (p : list Z) (rng : R) :
  Nat.Even (length p) ->
  exists out rng',
    unpermuteBlocks (blocks_of p) rng = Ok (out, rng') /\
    permuteHalfimage (pairs_of out) rng = Ok (p, rng').
Proof.
  intros [n Hn].
  assert (length (blocks_of p) = n) as Hlb
    by (unfold blocks_of; by rewrite length_blocks_with, (half_length_div p n)).
  set (vs := (draws n rng).1).
  exists (undo_swaps 0 vs (blocks_of p)), (draws n rng).2.
  split. { rewrite unpermuteBlocks_undo_swaps, Hlb. done. }
  set (out := undo_swaps 0 vs (blocks_of p)).
  assert (Forall (fun b => e2 b = 0 /\ e3 b = 0) out) as Hzero.
  { unfold out. rewrite undo_swaps_Permutation.
    apply Forall_forall. intros b Hb. unfold blocks_of, blocks_with in Hb.
    apply list_elem_of_fmap in Hb as (i & -> & _). done. }
  assert (length out = n) as Hlo by (unfold out; by rewrite length_undo_swaps).
  destruct (permuteHalfimage_spec (pairs_of out) n rng) as (p' & Hp' & Hl' & Hb').
  { rewrite length_pairs_of. lia. }
  specialize (Hb' (fun a b => B4 a b 0 0)). fold (blocks_of p') in Hb'.
  fold (blocks_of (pairs_of out)) in Hb'.
  rewrite (blocks_of_pairs_of out Hzero) in Hb'. unfold out in Hb'.
  fold vs in Hb'. rewrite apply_undo_swaps in Hb'.
  rewrite Hp'. do 2 f_equal.
  by rewrite <- (pairs_of_blocks_of n p' Hl'), Hb', (pairs_of_blocks_of n p Hn).
Qed.

End PermutedPairs.

Lemma permuteHalfimage_rearranges_pairs_witness :
  let p := [68; 111; 32; 73; 32; 108; 111; 111] in
  let rng := cyclic_newRNG [73; 32; 97; 109] (replicate 16 0) in
  exists p' rng',
    permuteHalfimage p rng = Ok (p', rng') /\
    length p' = length p /\
    blocks_of p' ≡ₚ blocks_of p /\
    p' ≡ₚ p.
Proof.
  apply (@permuteHalfimage_rearranges_pairs Reader Reader_Rand Reader_RandLaws
           [68; 111; 32; 73; 32; 108; 111; 111]
           (cyclic_newRNG [73; 32; 97; 109] (replicate 16 0))).
  exists 4%nat. reflexivity.
Defined.

Lemma permuteHalfimage_odd_panics_witness :
  permuteHalfimage [68; 111; 32]
    (cyclic_newRNG [73; 32; 97; 109] (replicate 16 0)) = Panic.
Proof.
  apply (@permuteHalfimage_odd_panics Reader Reader_Rand Reader_RandLaws
           [68; 111; 32] (cyclic_newRNG [73; 32; 97; 109] (replicate 16 0))).
  exists 1%nat. reflexivity.
Defined.

Lemma unpermute_then_permute_witness :
  let p := [68; 111; 32; 73; 32; 108; 111; 111] in
  let rng := cyclic_newRNG [73; 32; 97; 109] (replicate 16 0) in
  exists out rng',
    unpermuteBlocks (blocks_of p) rng = Ok (out, rng') /\
    permuteHalfimage (pairs_of out) rng = Ok (p, rng').
Proof.
  apply (@unpermute_then_permute Reader Reader_Rand Reader_RandLaws
           [68; 111; 32; 73; 32; 108; 111; 111]
           (cyclic_newRNG [73; 32; 97; 109] (replicate 16 0))).
  exists 4%nat. reflexivity.
Defined.

(** ** The entropy coder and the metadata *)

Lemma compress_salt (img : EncryptedImage.t) (q : Z) (c : compressedImage.t) :
  compress img q = Ok c -> compressedImage.Salt c = EncryptedImage.Salt img.
Proof.
  unfold compress. intros Hc. inv_binds Hc.
  destruct (negb _); [done|]. inv_binds Hc. by injection Hc as <-.
Qed.

Lemma Compress_shape `{fselib} (img : EncryptedImage.t) (q : Z)
  (comp : CompressedImage.t) :
  Compress img q = Ok comp ->
  CompressedImage.Width comp = EncryptedImage.Width img /\
  CompressedImage.Height comp = EncryptedImage.Height img /\
  CompressedImage.PadWidth comp = EncryptedImage.PadHeight img /\
  CompressedImage.PadHeight comp = EncryptedImage.PadHeight img /\
  CompressedImage.Salt comp = EncryptedImage.Salt img.
Proof.
  unfold Compress. intros Hc.
  apply bind_Ok_inv in Hc as (c & Hcomp & Hc).
  apply compress_shape in Hcomp as (HW & HH & HPW & HPH).
  inv_binds Hc. injection Hc as <-. cbn. by rewrite HW, HH, HPW, HPH.
Qed.

(** X12. Whatever the image, the key, the quantization and the coder: when
    the three stages return, the decrypted image has the width and the
    height of the input, the compressed image carries the salt of the
    encryption, and both pad flags of the result are the [PadHeight] of
    the input. *)
Theorem metadata_through_pipeline `{KeyedRand R, fselib}
  (img : Image.t) (key salt : list Z) (q : Z)
  (enc : EncryptedImage.t) (comp : CompressedImage.t) (dec : Image.t) :
  Encrypt (Ok salt) img key = Ok enc ->
  Compress enc q = Ok comp ->
  Decrypt comp key = Ok dec ->
  Image.Width dec = Image.Width img /\
  Image.Height dec = Image.Height img /\
  EncryptedImage.Salt enc = salt /\
  CompressedImage.Salt comp = salt /\
  Image.PadWidth dec = Image.PadHeight img /\
  Image.PadHeight dec = Image.PadHeight img.
Proof.
  intros Henc Hcomp Hdec.
  assert (EncryptedImage.Salt enc = salt) as Hsalt.
  { revert Henc. unfold Encrypt. cbn [mbind result_bind]. intros Henc.
    inv_binds Henc. by injection Henc as <-. }
  apply Encrypt_shape in Henc as (HW1 & HH1 & HPW1 & HPH1).
  apply Compress_shape in Hcomp as (HW2 & HH2 & HPW2 & HPH2 & HS2).
  apply Decrypt_shape in Hdec as (HW3 & HH3 & HPW3 & HPH3).
  repeat split; congruence.
Qed.

Lemma metadata_through_pipeline_witness :
  let img := Image.mk [7; 0; 9; 0] 2 2 true false in
  let dec := Image.mk [7; 4; 4; 0] 2 2 false false in
  Image.Width dec = Image.Width img /\
  Image.Height dec = Image.Height img /\
  replicate 16 0 = replicate 16 0 /\
  replicate 16 0 = replicate 16 0 /\
  Image.PadWidth dec = Image.PadHeight img /\
  Image.PadHeight dec = Image.PadHeight img.
Proof.
  apply (@metadata_through_pipeline Reader Reader_Rand cyclic_newRNG stored
           (Image.mk [7; 0; 9; 0] 2 2 true false) [73; 32; 97; 109]
           (replicate 16 0) 1
           (EncryptedImage.mk [80; 73] 2 2 false false (replicate 16 0))
           (CompressedImage.mk [80] (iota 256) [249] (replicate 16 0) 2 2
              false false)
           (Image.mk [7; 4; 4; 0] 2 2 false false));
    vm_compute; reflexivity.
Defined.

(** ** The pipeline at every valid quantization *)

Section Quantized.
Context `{RandLaws R} `{!KeyedRand R}.

(** What [decrypt] returns when the blocks of its first loop are the
    blocks [mk] of the pairs of a permuted half image [p']: the blocks
    [u] of the unmasked pixels in image order, their interpolation [w]
    and the image laid out from it. *)
Lemma decrypt_spec_with (mk : Z -> Z -> byte4) (c : compressedImage.t)
  (key : list Z) (bw bh : Z) (p' h0 : list Z) :
  0 <= bw -> 0 <= bh ->
  compressedImage.Width c = 2 * bw -> compressedImage.Height c = 2 * bh ->
  let n := Z.to_nat (bh * bw) in
  let mask := (Read (newRNG key (compressedImage.Salt c)) (replicate n 0)).1 in
  let rng1 := (Read (newRNG key (compressedImage.Salt c)) (replicate n 0)).2 in
  length (compressedImage.Quarterimage c) = n ->
  length (compressedImage.Qdiffs c) = n ->
  (forall i, (i < n)%nat ->
     0 <= compressedImage.Qdiffs c !!! i < len (compressedImage.Qtable c)) ->
  (forall i, (i < n)%nat ->
     B4 (compressedImage.Quarterimage c !!! i) 0 0
        (byte_add (compressedImage.Quarterimage c !!! i)
           (compressedImage.Qtable c
              !!! Z.to_nat (compressedImage.Qdiffs c !!! i)))
     = mk (p' !!! (2 * i)%nat) (p' !!! (2 * i + 1)%nat)) ->
  length p' = (2 * n)%nat -> length h0 = (2 * n)%nat ->
  blocks_with mk p' = apply_swaps 0 (draws n rng1).1 (blocks_with mk h0) ->
  exists u w image,
    decrypt c key
      = Ok (Image.mk image (compressedImage.Width c) (compressedImage.Height c)
              (compressedImage.PadWidth c) (compressedImage.PadHeight c)) /\
    len u = bh * bw /\
    (forall i, 0 <= i < bh * bw ->
       elem u i =
         B4 (byte_sub (e0 (mk (elem h0 (2 * i)) (elem h0 (2 * i + 1)))) (elem mask i))
            (e1 (mk (elem h0 (2 * i)) (elem h0 (2 * i + 1))))
            (e2 (mk (elem h0 (2 * i)) (elem h0 (2 * i + 1))))
            (byte_sub (e3 (mk (elem h0 (2 * i)) (elem h0 (2 * i + 1)))) (elem mask i))) /\
    (forall y x, 0 <= y < bh -> 0 <= x < bw ->
       e0 (elem w (y * bw + x)) = e0 (elem u (y * bw + x)) /\
       e1 (elem w (y * bw + x)) = cai (neighbors_tr u bw y x) 20 /\
       e2 (elem w (y * bw + x)) = cai (neighbors_bl u bw bh y x) 20 /\
       e3 (elem w (y * bw + x)) = e3 (elem u (y * bw + x))) /\
    len image = bh * bw * 4 /\
    (forall y x, 0 <= y < bh -> 0 <= x < bw ->
       elem image (2 * y * (2 * bw) + 2 * x) = e0 (elem w (y * bw + x)) /\
       elem image (2 * y * (2 * bw) + (2 * x + 1)) = e1 (elem w (y * bw + x)) /\
       elem image ((2 * y + 1) * (2 * bw) + 2 * x) = e2 (elem w (y * bw + x)) /\
       elem image ((2 * y + 1) * (2 * bw) + (2 * x + 1)) = e3 (elem w (y * bw + x))).
Proof.
  intros Hbw Hbh HW HH n mask rng1 Hlq Hld Hrange Hmk Hlp Hlh Hperm.
  assert (0 <= bh * bw) as HN by nia.
  unfold decrypt.
  assert (len (compressedImage.Quarterimage c) = Z.of_nat n) as Hlenq
    by (unfold len; lia).
  rewrite Hlenq, !make_Ok by lia. cbn [mbind result_bind].
  rewrite Nat2Z.id, len_replicate.
  (* the first loop *)
  destruct (decrypt_blocks_loop (compressedImage.Quarterimage c)
              (compressedImage.Qdiffs c) (compressedImage.Qtable c) n Hlq Hld Hrange)
    as (b0 & Hb0 & Hlb0 & Hvb0).
  rewrite Hb0. cbn [mbind result_bind].
  assert (b0 = blocks_with mk p') as ->.
  { apply list_eq. intros i. destruct (decide (i < n)%nat) as [Hi|Hi].
    - rewrite Hvb0 by done.
      rewrite lookup_blocks_with by (rewrite (half_length_div p' n); done).
      f_equal. by apply Hmk.
    - rewrite !lookup_ge_None_2; [done | | lia].
      rewrite length_blocks_with, (half_length_div p' n); [lia | done]. }
  (* the mask and the inverse permutation *)
  fold mask rng1.
  pose proof (Read_length (newRNG key (compressedImage.Salt c)) (replicate n 0))
    as Hml.
  rewrite length_replicate in Hml. fold mask in Hml.
  destruct (Read (newRNG key (compressedImage.Salt c)) (replicate n 0))
    as [mask0 r1] eqn:ERead.
  subst mask rng1. cbn [fst snd] in *.
  rewrite Hperm.
  pose proof (unpermuteBlocks_apply_swaps (blocks_with mk h0) r1) as Hun.
  rewrite length_blocks_with, (half_length_div h0 n Hlh) in Hun.
  rewrite Hun. cbn [mbind result_bind].
  (* taking the mask off *)
  destruct (decrypt_unmask_loop mask0 (blocks_with mk h0) n Hml)
    as (u & Hu & Hlu & Hvu).
  { by rewrite length_blocks_with, (half_length_div h0 n Hlh). }
  rewrite Hu. cbn [mbind result_bind].
  assert (len u = bh * bw) as Hlenu by (unfold len; lia).
  rewrite HW, HH.
  replace (Z.quot (2 * bw) 2) with bw by (apply Z.quot_unique_exact; lia).
  replace (Z.quot (2 * bh) 2) with bh by (apply Z.quot_unique_exact; lia).
  (* interpolation *)
  destruct (interpolateBlocks_spec u bw bh 20 Hbw Hbh Hlenu) as (w & Hw & Hlw & Hvw).
  rewrite Hw. cbn [mbind result_bind].
  (* the image *)
  replace (Z.of_nat n * 4) with (bh * bw * 4) by lia.
  destruct (decrypt_output_loop w bw bh Hbw Hbh Hlw) as (image & Him & Hli & Hvi).
  rewrite Him. cbn [mbind result_bind].
  exists u, w, image. split; [done|]. split; [done|].
  split; [|done].
  intros i Hi. unfold elem at 1.
  apply list_lookup_total_correct. rewrite Hvu by lia.
  rewrite (list_lookup_total_correct (blocks_with mk h0) (Z.to_nat i)
             (mk (elem h0 (2 * i)) (elem h0 (2 * i + 1)))).
  - done.
  - rewrite lookup_blocks_with by (rewrite (half_length_div h0 n Hlh); lia).
    unfold elem. do 2 f_equal; f_equal; lia.
Qed.

End Quantized.

Section Codec.
Context `{KeyedRand R} `{fselib} `{!fselib_roundtrip}.

(** With a coder that round-trips, [Compress] and [Decrypt] are
    [compress] and [decrypt] with the differences stored encoded. *)
Lemma codec_transparent (enc : EncryptedImage.t) (q : Z) (c : compressedImage.t) :
  compress enc q = Ok c ->
  length (compressedImage.Quarterimage c) = length (compressedImage.Qdiffs c) ->
  exists comp,
    Compress enc q = Ok comp /\
    CompressedImage.Quarterimage comp = compressedImage.Quarterimage c /\
    CompressedImage.Qtable comp = compressedImage.Qtable c /\
    forall key, Decrypt comp key = decrypt c key.
Proof.
  intros Hc Hlen.
  pose proof (compress_shape enc q c Hc) as (HW & HH & HPW & HPH).
  pose proof (compress_salt enc q c Hc) as HS.
  destruct (roundtrip (compressedImage.Qdiffs c))
    as (k & dst & Hencode & Hk & dst' & Hdecode & Htake).
  unfold Compress. rewrite Hc. cbn [mbind result_bind].
  rewrite make_Ok by apply len_nonneg. cbn [mbind result_bind].
  unfold len at 1. rewrite Nat2Z.id, Hencode. cbn [mbind result_bind].
  rewrite slice_to_Ok by done. cbn [mbind result_bind].
  eexists. split; [reflexivity|]. split; [done|]. split; [done|].
  intros key. unfold Decrypt.
  cbn [CompressedImage.Quarterimage CompressedImage.EncQdiffs
       CompressedImage.Qtable CompressedImage.Salt CompressedImage.Width
       CompressedImage.Height CompressedImage.PadHeight].
  rewrite make_Ok by apply len_nonneg. cbn [mbind result_bind].
  unfold len at 1. rewrite Nat2Z.id, Hlen, Hdecode. cbn [mbind result_bind].
  assert (length (compressedImage.Qdiffs c) <= length dst')%nat as Hle.
  { rewrite <- Htake at 1. rewrite length_take. lia. }
  rewrite slice_to_Ok by (unfold len; lia). cbn [mbind result_bind].
  unfold len. rewrite Nat2Z.id, Htake.
  f_equal. destruct c; cbn in *. congruence.
Qed.

(** X13. For a half image of even length and a valid quantization, with a
    coder that round-trips, [Compress] returns what [compress] returns
    with the differences encoded, and [Decrypt] of it is [decrypt] of
    the output of [compress], for every key. *)
Theorem Decrypt_of_Compress (enc : EncryptedImage.t) (q : Z) :
  Nat.Even (length (EncryptedImage.Halfimage enc)) ->
  0 <= q < 256 -> power_of_two q ->
  exists c comp,
    compress enc q = Ok c /\
    Compress enc q = Ok comp /\
    CompressedImage.Quarterimage comp = compressedImage.Quarterimage c /\
    CompressedImage.Qtable comp = compressedImage.Qtable c /\
    forall key, Decrypt comp key = decrypt c key.
Proof.
  intros [n Hn] Hq Hp.
  destruct (power_of_two_log q Hq Hp) as (m & _ & _ & _ & Hones).
  destruct (compress_spec enc q n Hn Hones ltac:(lia))
    as (quarter & qdiffs & d & qtable & Hc & Hql & Hdl & _).
  destruct (codec_transparent enc q _ Hc) as (comp & Hcomp & Hrest).
  { cbn. lia. }
  eexists _, comp. split; [exact Hc|]. split; [exact Hcomp|]. exact Hrest.
Qed.

End Codec.

Lemma Decrypt_of_Compress_witness :
  let enc := EncryptedImage.mk [80; 73] 2 2 false false (replicate 16 0) in
  exists c comp,
    compress enc 4 = Ok c /\
    @Compress stored enc 4 = Ok comp /\
    CompressedImage.Quarterimage comp = compressedImage.Quarterimage c /\
    CompressedImage.Qtable comp = compressedImage.Qtable c /\
    forall key, @Decrypt _ _ cyclic_newRNG stored comp key = decrypt c key.
Proof.
  apply (@Decrypt_of_Compress Reader Reader_Rand cyclic_newRNG stored
           stored_roundtrip
           (EncryptedImage.mk [80; 73] 2 2 false false (replicate 16 0)) 4).
  - exists 1%nat. reflexivity.
  - lia.
  - exists 2. split; [lia | reflexivity].
Defined.

Section QuantizedPipeline.
Context `{RandLaws R} `{!KeyedRand R} `{fselib} `{!fselib_roundtrip}.

(** X14. For an image of even width and height, any key, any salt and any
    valid quantization [q], with a coder that round-trips,
    [Decrypt (Compress (Encrypt img k) q) k] returns an image of the
    same width and height in which the top left pixel of every 2x2
    block is the pixel of [img], the bottom right pixel is the pixel of
    [img] with an error below [q], modulo 256, and the two other pixels
    are the [cai] interpolations of the kept pixels of the decrypted
    image around them. *)
Theorem pipeline_error_below_quantization (img : Image.t) (key salt : list Z)
  (q : Z) :
  Image_wf img ->
  Z.Even (Image.Width img) -> Z.Even (Image.Height img) ->
  0 <= q < 256 -> power_of_two q ->
  exists enc comp dec,
    Encrypt (Ok salt) img key = Ok enc /\
    Compress enc q = Ok comp /\
    Decrypt comp key = Ok dec /\
    Image.Width dec = Image.Width img /\
    Image.Height dec = Image.Height img /\
    len (Image.Image dec) = Image.Width img * Image.Height img /\
    forall bx by_,
      0 <= bx -> 2 * bx < Image.Width img ->
      0 <= by_ -> 2 * by_ < Image.Height img ->
      At dec (2 * bx) (2 * by_) = Ok (pixel img (2 * bx) (2 * by_)) /\
      (exists e, - q < e < q /\
         At dec (2 * bx + 1) (2 * by_ + 1)
           = Ok ((pixel img (2 * bx + 1) (2 * by_ + 1) + e) mod 256)) /\
      At dec (2 * bx + 1) (2 * by_) = Ok (cai (kept_around_tr dec bx by_) 20) /\
      At dec (2 * bx) (2 * by_ + 1) = Ok (cai (kept_around_bl dec bx by_) 20).
Proof.
  intros (HW0 & HH0 & Hlen & Hbytes) [bw HW] [bh HH] Hq Hp.
  assert (0 <= bw) as Hbw by lia. assert (0 <= bh) as Hbh by lia.
  assert (0 <= bh * bw) as HN by nia.
  set (n := Z.to_nat (bh * bw)).
  destruct (power_of_two_log q Hq Hp) as (m & Hm & Hqm & Htz & Hones).
  (* encryption *)
  destruct (Encrypt_spec img key salt bw bh Hbw Hbh HW HH Hlen)
    as (h0 & p' & Henc & Hlp & Hperm & Hlh0 & Hh0).
  fold n in Henc, Hlp, Hperm, Hh0.
  set (mask := (Read (newRNG key salt) (replicate n 0)).1) in *.
  set (rng1 := (Read (newRNG key salt) (replicate n 0)).2) in *.
  set (enc := EncryptedImage.mk p' _ _ _ _ salt) in Henc.
  (* compression *)
  destruct (compress_spec enc q n Hlp Hones ltac:(lia))
    as (quarter & qdiffs & d & qtable & Hcomp & Hlq & Hlqd & Hqv & Hqd & Hdl & Hqt).
  destruct (makeQtable_buckets d q m Hdl Hm Hqm Htz) as (t & Ht & Htl & Hin).
  rewrite Hqt in Ht. injection Ht as <-.
  cbn [EncryptedImage.Halfimage EncryptedImage.Salt EncryptedImage.Width
       EncryptedImage.Height EncryptedImage.PadHeight enc] in Hcomp, Hqv, Hqd.
  rewrite Htz in Hqd.
  destruct (codec_transparent enc q _ Hcomp) as (comp & Hcompress & _ & _ & HDec).
  { cbn. lia. }
  (* decryption *)
  destruct (decrypt_spec_with (rebuilt_with qtable m)
              (compressedImage.mk quarter qtable qdiffs salt
                 (Image.Width img) (Image.Height img)
                 (Image.PadHeight img) (Image.PadHeight img))
              key bw bh p' h0 Hbw Hbh HW HH Hlq Hlqd)
    as (u & w & image & Hdec & Hlu & Hu & Hw & Hli & Him).
  { intros i Hi. cbn [compressedImage.Qdiffs compressedImage.Qtable].
    rewrite (list_lookup_total_correct _ _ _ (Hqd i Hi)), Htl.
    apply (requantize qtable q m _ _ Hm Hqm Hin). }
  { intros i Hi.
    cbn [compressedImage.Qdiffs compressedImage.Qtable
         compressedImage.Quarterimage].
    rewrite (list_lookup_total_correct _ _ _ (Hqd i Hi)).
    rewrite (list_lookup_total_correct _ _ _ (Hqv i Hi)). done. }
  { done. }
  { unfold len in Hlh0. lia. }
  { apply Hperm. }
  cbn [compressedImage.Salt compressedImage.Width compressedImage.Height
       compressedImage.PadWidth compressedImage.PadHeight] in Hdec, Hu.
  fold n mask in Hu.
  set (dec := Image.mk image (Image.Width img) (Image.Height img)
                (Image.PadHeight img) (Image.PadHeight img)) in *.
  exists enc, comp, dec. split; [done|]. split; [done|].
  split; [by rewrite HDec|]. split; [done|]. split; [done|].
  cbn [Image.Image dec]. split; [rewrite Hli, HW, HH; lia|].
  (* the kept pixels of the blocks *)
  assert (forall x y, 0 <= x < 2 * bw -> 0 <= y < 2 * bh ->
            is_byte (pixel img x y)) as Hpix.
  { intros x y Hx Hy. unfold pixel. eapply Forall_lookup_1; [exact Hbytes|].
    apply elem_lookup. rewrite Hlen, HW, HH. nia. }
  assert (forall y x, 0 <= y < bh -> 0 <= x < bw ->
            e0 (elem u (y * bw + x)) = pixel img (2 * x) (2 * y) /\
            exists e, - q < e < q /\
              e3 (elem u (y * bw + x))
                = (pixel img (2 * x + 1) (2 * y + 1) + e) mod 256)
    as Hkept.
  { intros y x Hy Hx. pose proof (grid_lt bw bh y x Hy Hx) as Hg.
    rewrite (Hu _ Hg). destruct (Hh0 y x Hy Hx) as [-> ->].
    cbn [e0 e3 rebuilt_with]. split.
    - apply byte_sub_add, Hpix; lia.
    - destruct (requantize qtable q m
                  (byte_add (pixel img (2 * x) (2 * y)) (elem mask (y * bw + x)))
                  (byte_add (pixel img (2 * x + 1) (2 * y + 1))
                     (elem mask (y * bw + x))) Hm Hqm Hin)
        as (_ & _ & e & He & ->).
      exists e. split; [done|]. unfold byte_sub, byte_add.
      rewrite Zplus_mod_idemp_l, Zminus_mod_idemp_l. f_equal. lia. }
  assert (forall y x, 0 <= y < bh -> 0 <= x < bw ->
            pixel dec (2 * x) (2 * y) = e0 (elem u (y * bw + x)) /\
            pixel dec (2 * x + 1) (2 * y + 1) = e3 (elem u (y * bw + x)))
    as Hdecpix.
  { intros y x Hy Hx.
    destruct (Him y x Hy Hx) as (Hi0 & _ & _ & Hi3).
    destruct (Hw y x Hy Hx) as (Hw0 & _ & _ & Hw3).
    unfold pixel. cbn [Image.Image Image.Width dec]. rewrite HW.
    by rewrite Hi0, Hi3, Hw0, Hw3. }
  intros bx by_ Hbx0 Hbx Hby0 Hby.
  assert (0 <= by_ < bh) as Hy by lia. assert (0 <= bx < bw) as Hx by lia.
  destruct (Him by_ bx Hy Hx) as (Hi0 & Hi1 & Hi2 & Hi3).
  destruct (Hw by_ bx Hy Hx) as (Hw0 & Hw1 & Hw2 & Hw3).
  destruct (Hkept by_ bx Hy Hx) as [Hk0 (e & He & Hk3)].
  destruct (Hdecpix by_ bx Hy Hx) as [Hd0 Hd3].
  unfold At. cbn [Image.Image Image.Width dec]. rewrite HW.
  rewrite !index_elem by (rewrite Hli; nia).
  rewrite Hi0, Hi1, Hi2, Hi3, Hw0, Hw1, Hw2, Hw3, Hk0.
  split; [done|]. split; [exists e; by rewrite Hk3|]. split.
  - do 2 f_equal. unfold neighbors_tr, kept_around_tr.
    cbn [Image.Width dec]. rewrite HW.
    replace (Z.quot (2 * bw) 2) with bw by (apply Z.quot_unique_exact; lia).
    rewrite Hd0, Hd3. f_equal.
    + destruct (Z.gtb_spec by_ 0); [|done].
      replace (2 * by_ - 1) with (2 * (by_ - 1) + 1) by lia.
      by destruct (Hdecpix (by_ - 1) bx ltac:(lia) Hx) as [_ ->].
    + destruct (Z.ltb_spec bx (bw - 1)); [|done].
      replace (2 * bx + 2) with (2 * (bx + 1)) by lia.
      destruct (Hdecpix by_ (bx + 1) Hy ltac:(lia)) as [-> _].
      do 2 f_equal. lia.
  - do 2 f_equal. unfold neighbors_bl, kept_around_bl.
    cbn [Image.Width Image.Height dec]. rewrite HH.
    replace (Z.quot (2 * bh) 2) with bh by (apply Z.quot_unique_exact; lia).
    rewrite Hd0, Hd3. f_equal.
    + destruct (Z.ltb_spec by_ (bh - 1)); [|done].
      replace (2 * by_ + 2) with (2 * (by_ + 1)) by lia.
      by destruct (Hdecpix (by_ + 1) bx ltac:(lia) Hx) as [-> _].
    + destruct (Z.gtb_spec bx 0); [|done].
      replace (2 * bx - 1) with (2 * (bx - 1) + 1) by lia.
      destruct (Hdecpix by_ (bx - 1) Hy ltac:(lia)) as [_ ->].
      do 2 f_equal. lia.
Qed.

End QuantizedPipeline.

Lemma pipeline_error_below_quantization_witness :
  let img := Image.mk [10; 20; 30; 40; 50; 60; 70; 80] 4 2 false false in
  let key := [73; 32; 97; 109] in
  let salt := replicate 16 0 in
  exists enc comp dec,
    Encrypt (Ok salt) img key = Ok enc /\
    @Compress stored enc 8 = Ok comp /\
    @Decrypt _ _ cyclic_newRNG stored comp key = Ok dec /\
    Image.Width dec = Image.Width img /\
    Image.Height dec = Image.Height img /\
    len (Image.Image dec) = Image.Width img * Image.Height img /\
    forall bx by_,
      0 <= bx -> 2 * bx < Image.Width img ->
      0 <= by_ -> 2 * by_ < Image.Height img ->
      At dec (2 * bx) (2 * by_) = Ok (pixel img (2 * bx) (2 * by_)) /\
      (exists e, - 8 < e < 8 /\
         At dec (2 * bx + 1) (2 * by_ + 1)
           = Ok ((pixel img (2 * bx + 1) (2 * by_ + 1) + e) mod 256)) /\
      At dec (2 * bx + 1) (2 * by_) = Ok (cai (kept_around_tr dec bx by_) 20) /\
      At dec (2 * bx) (2 * by_ + 1) = Ok (cai (kept_around_bl dec bx by_) 20).
Proof.
  apply (@pipeline_error_below_quantization Reader Reader_Rand Reader_RandLaws
           cyclic_newRNG stored stored_roundtrip
           (Image.mk [10; 20; 30; 40; 50; 60; 70; 80] 4 2 false false)
           [73; 32; 97; 109] (replicate 16 0) 8).
  - split; [simpl; lia|]. split; [simpl; lia|]. split; [reflexivity|].
    repeat constructor; unfold is_byte; lia.
  - exists 2. reflexivity.
  - exists 1. reflexivity.
  - lia.
  - exists 3. split; [lia | reflexivity].
Defined.

(** ** What encryption leaves visible *)

Lemma byte_sub_masked (a b m : Z) :
  byte_sub (byte_add b m) (byte_add a m) = byte_sub b a.
Proof.
  unfold byte_sub, byte_add.
  rewrite Zminus_mod_idemp_l, Zminus_mod_idemp_r. f_equal. lia.
Qed.

Section Visible.
Context `{RandLaws R} `{!KeyedRand R}.

(** X15. [Encrypt] on a well-formed image of even width and height returns a
    half image of bytes, half as long as the image, in which the mask
    cancels within every pair: the differences [compress] takes of the
    pairs are, up to their order, the differences between the bottom
    right and the top left pixel of the blocks of the plain image. *)
Theorem Encrypt_keeps_differences (img : Image.t) (key salt : list Z) :
  Image_wf img ->
  Z.Even (Image.Width img) -> Z.Even (Image.Height img) ->
  exists enc,
    Encrypt (Ok salt) img key = Ok enc /\
    2 * len (EncryptedImage.Halfimage enc) = Image.Width img * Image.Height img /\
    Forall is_byte (EncryptedImage.Halfimage enc) /\
    pair_diffs (EncryptedImage.Halfimage enc) ≡ₚ block_diffs img.
Proof.
  intros (HW0 & HH0 & Hlen & Hbytes) [bw HW] [bh HH].
  assert (0 <= bw) as Hbw by lia. assert (0 <= bh) as Hbh by lia.
  assert (0 <= bh * bw) as HN by nia.
  set (n := Z.to_nat (bh * bw)).
  destruct (Encrypt_spec img key salt bw bh Hbw Hbh HW HH Hlen)
    as (h0 & p' & Henc & Hlp & Hperm & Hlh0 & Hh0).
  fold n in Henc, Hlp, Hperm, Hh0.
  set (mask := (Read (newRNG key salt) (replicate n 0)).1) in *.
  assert (length h0 = (2 * n)%nat) as Hlh by (unfold len in Hlh0; lia).
  assert (blocks_of p' ≡ₚ blocks_of h0) as Hblocks.
  { unfold blocks_of. rewrite Hperm. apply apply_swaps_Permutation. }
  assert (forall i, 0 <= i < bh * bw ->
            0 <= i / bw < bh /\ 0 <= i mod bw < bw /\ i / bw * bw + i mod bw = i)
    as Hcell.
  { intros i Hi. assert (0 < bw) as Hpos by nia.
    pose proof (Z.div_mod i bw ltac:(lia)) as Hdm.
    pose proof (Z.mod_pos_bound i bw Hpos) as Hmb.
    split; [|split; [done | lia]]. split; [apply Z.div_pos; lia|].
    apply Z.div_lt_upper_bound; [done | nia]. }
  eexists. split; [exact Henc|]. cbn [EncryptedImage.Halfimage].
  split; [unfold len; rewrite Hlp, HW, HH; lia|]. split.
  - rewrite <- (pairs_of_blocks_of n p' Hlp). unfold pairs_of.
    rewrite Hblocks. fold (pairs_of (blocks_of h0)).
    rewrite (pairs_of_blocks_of n h0 Hlh).
    apply Forall_lookup_2. intros j v Hj.
    assert (j < 2 * n)%nat as Hjn by (apply lookup_lt_Some in Hj; lia).
    apply list_lookup_total_correct in Hj. subst v.
    set (i := Z.of_nat (j / 2)).
    assert (0 <= i < bh * bw) as Hi.
    { unfold i. pose proof (Nat.Div0.div_lt_upper_bound j 2 n ltac:(lia)). lia. }
    destruct (Hcell i Hi) as (Hy & Hx & Hyx).
    destruct (Hh0 _ _ Hy Hx) as [He Ho]. rewrite Hyx in He, Ho.
    pose proof (Nat.div_mod_eq j 2) as Hj2.
    pose proof (Nat.mod_upper_bound j 2 ltac:(lia)) as Hj2b.
    destruct (decide (j mod 2 = 0)%nat) as [Hz|Hnz].
    + replace j with (Z.to_nat (2 * i)) by (unfold i; lia).
      fold (elem h0 (2 * i)). rewrite He. apply byte_add_is_byte.
    + replace j with (Z.to_nat (2 * i + 1)) by (unfold i; lia).
      fold (elem h0 (2 * i + 1)). rewrite Ho. apply byte_add_is_byte.
  - unfold pair_diffs. rewrite Hblocks.
    assert ((fun b => byte_sub (e1 b) (e0 b)) <$> blocks_of h0 = block_diffs img)
      as ->; [|done].
    unfold block_diffs, blocks_of, blocks_with, range. rewrite HW, HH.
    replace (Z.quot (2 * bw) 2) with bw by (apply Z.quot_unique_exact; lia).
    replace (Z.quot (2 * bh) 2) with bh by (apply Z.quot_unique_exact; lia).
    rewrite (half_length_div h0 n Hlh). fold n.
    rewrite <- !list_fmap_compose. apply list_fmap_ext.
    intros k i Hk. apply lookup_seq in Hk as [-> Hk]. cbn [compose e0 e1].
    rewrite Nat.add_0_l.
    assert (0 <= Z.of_nat k < bh * bw) as Hi by lia.
    destruct (Hcell _ Hi) as (Hy & Hx & Hyx).
    destruct (Hh0 _ _ Hy Hx) as [He Ho]. rewrite Hyx in He, Ho.
    unfold elem in He, Ho.
    replace (Z.to_nat (2 * Z.of_nat k)) with (2 * k)%nat in He by lia.
    replace (Z.to_nat (2 * Z.of_nat k + 1)) with (2 * k + 1)%nat in Ho by lia.
    rewrite He, Ho. apply byte_sub_masked.
Qed.

End Visible.

Lemma Encrypt_keeps_differences_witness :
  let img := Image.mk [10; 20; 30; 40; 50; 60; 70; 80] 4 2 false false in
  exists enc,
    Encrypt (Ok (replicate 16 0)) img [73; 32; 97; 109] = Ok enc /\
    2 * len (EncryptedImage.Halfimage enc) = Image.Width img * Image.Height img /\
    Forall is_byte (EncryptedImage.Halfimage enc) /\
    pair_diffs (EncryptedImage.Halfimage enc) ≡ₚ block_diffs img.
Proof.
  apply (@Encrypt_keeps_differences Reader Reader_Rand Reader_RandLaws
           cyclic_newRNG
           (Image.mk [10; 20; 30; 40; 50; 60; 70; 80] 4 2 false false)
           [73; 32; 97; 109] (replicate 16 0)).
  - split; [simpl; lia|]. split; [simpl; lia|]. split; [reflexivity|].
    repeat constructor; unfold is_byte; lia.
  - exists 2. reflexivity.
  - exists 1. reflexivity.
Defined.

(** ** Interpolation *)

(** X16. The values [minmaxmedian] returns, for all inputs: the minimum, the
    maximum, and as the median the smaller of the maximum of the first
    two and the maximum of the last two entries, so that which of the
    two middle values is returned depends on the order of the
    neighbours. *)
Theorem minmaxmedian_closed_form (a b c d : Z) :
  minmaxmedian (B4 a b c d)
  = (min4 a b c d, max4 a b c d, Z.min (Z.max a b) (Z.max c d)).
Proof.
  unfold minmaxmedian, min4, max4; simpl.
  destruct (Z.ltb_spec a b), (Z.ltb_spec c d); simpl;
    repeat match goal with |- context [?x >? ?y] => destruct (Z.gtb_spec x y) end;
    simpl; repeat f_equal; lia.
Qed.

(** X17. [absdiff] of two bytes is their distance as integers: the byte
    subtraction never wraps, and the order of the arguments does not
    matter. *)
Theorem absdiff_is_distance (x y : Z) :
  is_byte x -> is_byte y ->
  absdiff x y = Z.abs (x - y) /\
  absdiff y x = absdiff x y /\
  0 <= absdiff x y <= 255.
Proof.
  intros Hx Hy. rewrite (absdiff_abs y x), (absdiff_abs x y) by done.
  unfold is_byte in *. lia.
Qed.

Lemma absdiff_is_distance_witness :
  absdiff 3 250 = Z.abs (3 - 250) /\
  absdiff 250 3 = absdiff 3 250 /\
  0 <= absdiff 3 250 <= 255.
Proof. apply (absdiff_is_distance 3 250); unfold is_byte; lia. Defined.

Lemma neighbors_tr_ext (u w : list byte4) (bw bh y x : Z) :
  0 <= y < bh -> 0 <= x < bw ->
  (forall y x, 0 <= y < bh -> 0 <= x < bw ->
     e0 (elem w (y * bw + x)) = e0 (elem u (y * bw + x)) /\
     e3 (elem w (y * bw + x)) = e3 (elem u (y * bw + x))) ->
  neighbors_tr w bw y x = neighbors_tr u bw y x.
Proof.
  intros Hy Hx Hkept. unfold neighbors_tr.
  destruct (Hkept y x Hy Hx) as [-> ->]. f_equal.
  - destruct (Z.gtb_spec y 0); [|done].
    by destruct (Hkept (y - 1) x ltac:(lia) Hx) as [_ ->].
  - destruct (Z.ltb_spec x (bw - 1)); [|done].
    replace (y * bw + x + 1) with (y * bw + (x + 1)) by lia.
    by destruct (Hkept y (x + 1) Hy ltac:(lia)) as [-> _].
Qed.

Lemma neighbors_bl_ext (u w : list byte4) (bw bh y x : Z) :
  0 <= y < bh -> 0 <= x < bw ->
  (forall y x, 0 <= y < bh -> 0 <= x < bw ->
     e0 (elem w (y * bw + x)) = e0 (elem u (y * bw + x)) /\
     e3 (elem w (y * bw + x)) = e3 (elem u (y * bw + x))) ->
  neighbors_bl w bw bh y x = neighbors_bl u bw bh y x.
Proof.
  intros Hy Hx Hkept. unfold neighbors_bl.
  destruct (Hkept y x Hy Hx) as [-> ->]. f_equal.
  - destruct (Z.ltb_spec y (bh - 1)); [|done].
    by destruct (Hkept (y + 1) x ltac:(lia) Hx) as [-> _].
  - destruct (Z.gtb_spec x 0); [|done].
    replace (y * bw + x - 1) with (y * bw + (x - 1)) by lia.
    by destruct (Hkept y (x - 1) Hy ltac:(lia)) as [_ ->].
Qed.

(** X18. [interpolateBlocks] on a grid of [bw] by [bh] blocks returns a grid
    of the same size in which the kept pixels of every block are
    untouched and the two other pixels are the [cai] interpolations of
    the kept pixels of the input around them: no interpolated value,
    given or computed on the way, is ever read. *)
Theorem interpolateBlocks_reads_kept_pixels (u : list byte4) (bw bh T : Z) :
  0 <= bw -> 0 <= bh -> len u = bh * bw ->
  exists w,
    interpolateBlocks u bw bh T = Ok w /\
    len w = len u /\
    forall y x, 0 <= y < bh -> 0 <= x < bw ->
      elem w (y * bw + x)
      = B4 (e0 (elem u (y * bw + x)))
           (cai (neighbors_tr u bw y x) T)
           (cai (neighbors_bl u bw bh y x) T)
           (e3 (elem u (y * bw + x))).
Proof.
  intros Hbw Hbh Hlu.
  destruct (interpolateBlocks_spec u bw bh T Hbw Hbh Hlu) as (w & Hw & Hlw & Hvw).
  exists w. split; [done|]. split; [lia|].
  intros y x Hy Hx. destruct (Hvw y x Hy Hx) as (H0 & H1 & H2 & H3).
  destruct (elem w (y * bw + x)). cbn in *. congruence.
Qed.

Lemma interpolateBlocks_reads_kept_pixels_witness :
  let u := [B4 10 0 0 20; B4 30 0 0 40] in
  exists w,
    interpolateBlocks u 2 1 20 = Ok w /\
    len w = len u /\
    forall y x, 0 <= y < 1 -> 0 <= x < 2 ->
      elem w (y * 2 + x)
      = B4 (e0 (elem u (y * 2 + x)))
           (cai (neighbors_tr u 2 y x) 20)
           (cai (neighbors_bl u 2 1 y x) 20)
           (e3 (elem u (y * 2 + x))).
Proof.
  apply (interpolateBlocks_reads_kept_pixels [B4 10 0 0 20; B4 30 0 0 40] 2 1 20);
    [lia | lia | reflexivity].
Defined.

(** X19. Interpolating an interpolated grid changes nothing. *)
Theorem interpolateBlocks_idempotent (u w : list byte4) (bw bh T : Z) :
  0 <= bw -> 0 <= bh -> len u = bh * bw ->
  interpolateBlocks u bw bh T = Ok w ->
  interpolateBlocks w bw bh T = Ok w.
Proof.
  intros Hbw Hbh Hlu Hw.
  destruct (interpolateBlocks_spec u bw bh T Hbw Hbh Hlu) as (w1 & Hw1 & Hlw & Hvw).
  rewrite Hw in Hw1. injection Hw1 as <-.
  destruct (interpolateBlocks_spec w bw bh T Hbw Hbh Hlw) as (w2 & Hw2 & Hlw2 & Hvw2).
  rewrite Hw2. f_equal.
  assert (forall y x, 0 <= y < bh -> 0 <= x < bw ->
            e0 (elem w (y * bw + x)) = e0 (elem u (y * bw + x)) /\
            e3 (elem w (y * bw + x)) = e3 (elem u (y * bw + x))) as Hkept.
  { intros y x Hy Hx. destruct (Hvw y x Hy Hx) as (H0 & _ & _ & H3). done. }
  apply list_eq. intros k.
  destruct (decide (k < length w)%nat) as [Hk|Hk].
  2:{ rewrite !lookup_ge_None_2; [done | lia | unfold len in *; lia]. }
  assert (0 < bw) as Hpos by (unfold len in Hlw; nia).
  set (i := Z.of_nat k).
  assert (0 <= i < bh * bw) as Hi by (unfold i, len in *; lia).
  pose proof (Z.div_mod i bw ltac:(lia)) as Hdm.
  pose proof (Z.mod_pos_bound i bw Hpos) as Hmb.
  assert (0 <= i / bw < bh) as Hy.
  { split; [apply Z.div_pos; lia|]. apply Z.div_lt_upper_bound; [done | nia]. }
  assert (i / bw * bw + i mod bw = i) as Hyx by lia.
  destruct (Hvw _ _ Hy Hmb) as (A0 & A1 & A2 & A3).
  destruct (Hvw2 _ _ Hy Hmb) as (B0 & B1 & B2 & B3).
  rewrite (neighbors_tr_ext u w bw bh _ _ Hy Hmb Hkept) in B1.
  rewrite (neighbors_bl_ext u w bw bh _ _ Hy Hmb Hkept) in B2.
  rewrite Hyx in *.
  pose proof (elem_lookup w i ltac:(lia)) as Lw.
  pose proof (elem_lookup w2 i ltac:(lia)) as Lw2.
  replace (Z.to_nat i) with k in Lw, Lw2 by (unfold i; lia).
  rewrite Lw, Lw2. f_equal.
  destruct (elem w2 i), (elem w i). cbn in *. congruence.
Qed.

Lemma interpolateBlocks_idempotent_witness :
  interpolateBlocks [B4 10 20 15 20; B4 30 35 30 40] 2 1 20
  = Ok [B4 10 20 15 20; B4 30 35 30 40].
Proof.
  apply (interpolateBlocks_idempotent [B4 10 0 0 20; B4 30 0 0 40]
           [B4 10 20 15 20; B4 30 35 30 40] 2 1 20);
    [lia | lia | reflexivity | vm_compute; reflexivity].
Defined.

(** ** The generator on a keystream it keeps rejecting *)

Lemma retry_rejects (fuel : nat) (max : Z) (src : Reader) :
  (forall j, draw31 src j > max) ->
  rand.retry fuel rand.Int31 max src = None.
Proof.
  revert src. induction fuel as [|fuel IH]; intros src Hrej; [done|].
  cbn [rand.retry]. rewrite Int31_draw.
  destruct (Z.gtb_spec (draw31 src 0) max) as [_|Hle].
  - apply IH. intros j. rewrite draw31_advance. apply Hrej.
  - specialize (Hrej 0%nat). lia.
Qed.

(** X20. [rand.Intn] over the shim [source] need not return: for a bound
    that is not a power of two, on a keystream all of whose 31-bit
    draws exceed the bound of the rejection loop, the loop is still
    rejecting however much fuel it is given. *)
Theorem Intn_rejects_forever (src : Reader) (n : Z) (fuel : nat) :
  1 <= n <= 2 ^ 31 - 1 ->
  Z.land n (n - 1) <> 0 ->
  (forall j, draw31 src j > reject_bound n) ->
  rand.Intn fuel src n = None.
Proof.
  intros Hn Hpow Hrej. unfold rand.Intn, rand.Int31n.
  destruct (Z.leb_spec n 0); [lia|].
  destruct (Z.leb_spec n (2 ^ 31 - 1)); [|lia].
  destruct (Z.eqb_spec (Z.land n (n - 1)) 0); [done|].
  fold (reject_bound n). by rewrite retry_rejects.
Qed.

Lemma Intn_rejects_forever_witness :
  rand.Intn 1000 (mkReader (fun _ => 255) 0) 3 = None.
Proof.
  apply (Intn_rejects_forever (mkReader (fun _ => 255) 0) 3 1000).
  - lia.
  - vm_compute. discriminate.
  - intros j. vm_compute. reflexivity.
Defined.

Lemma unpermuteBlocks_rearranges_witness :
  let blocks := [B4 1 0 0 2; B4 3 0 0 4; B4 5 0 0 6] in
  let rng := cyclic_newRNG [73; 32; 97; 109] (replicate 16 0) in
  exists out,
    unpermuteBlocks blocks rng = Ok (out, (draws (length blocks) rng).2) /\
    out ≡ₚ blocks /\
    apply_swaps 0 (draws (length blocks) rng).1 out = blocks.
Proof.
  exact (@unpermuteBlocks_rearranges Reader Reader_Rand Reader_RandLaws
           [B4 1 0 0 2; B4 3 0 0 4; B4 5 0 0 6]
           (cyclic_newRNG [73; 32; 97; 109] (replicate 16 0))).
Defined.

(** ** The command-line tool *)

(** X21. In its encrypt mode the tool panics on every picture with a
    positive odd width or height: [NewImage] panics or returns an image
    without pixels, on which [Encrypt] panics. *)
Theorem encryptMode_odd_panics `{KeyedRand R} (src : Gray.t)
  (key salt : list Z) :
  len (Gray.Pix src) = Dx src * Dy src ->
  0 < Dx src -> 0 < Dy src ->
  Z.rem (Dx src) 2 <> 0 \/ Z.rem (Dy src) 2 <> 0 ->
  encryptMode (Ok salt) src key = Panic.
Proof.
  intros Hlen Hw Hh Hodd. unfold encryptMode, imageFromGray.
  destruct (NewImage (Gray.Pix src) (Dx src) (Dy src)) as [img|e|] eqn:Hnew.
  - cbn [mbind result_bind].
    rewrite (NewImage_odd_shape _ _ _ _ Hnew Hodd).
    pose proof (Z.rem_bound_pos (Dx src) 2 ltac:(lia) ltac:(lia)).
    pose proof (Z.rem_bound_pos (Dy src) 2 ltac:(lia) ltac:(lia)).
    apply Encrypt_empty_panics; lia.
  - by apply NewImage_Err_inv in Hnew as [Hne _].
  - done.
Qed.

Lemma encryptMode_odd_panics_witness :
  @encryptMode Reader Reader_Rand cyclic_newRNG (Ok (replicate 16 0))
    (Gray.mk [1; 2; 3; 4; 5; 6] 3 0 0 3 2) [73; 32; 97; 109] = Panic.
Proof.
  apply (@encryptMode_odd_panics Reader Reader_Rand cyclic_newRNG
           (Gray.mk [1; 2; 3; 4; 5; 6] 3 0 0 3 2) [73; 32; 97; 109]
           (replicate 16 0)).
  - reflexivity.
  - reflexivity.
  - reflexivity.
  - left. vm_compute. discriminate.
Defined.



(** X23. Whatever mode [main] selects, the default output of that mode has
    an extension from which, with no mode flag, [main] infers the next
    stage: encrypt, then compress, then decrypt, then encrypt again. *)
Theorem default_output_selects_next_mode (encrypt decrypt compress : bool)
  (ext : string) (mode : Z) :
  selectMode encrypt decrypt compress ext = inr mode ->
  (mode = modeEncrypt \/ mode = modeCompress \/ mode = modeDecrypt) /\
  selectMode false false false ("." ++ outext mode)
  = inr (if mode =? modeEncrypt then modeCompress
         else if mode =? modeCompress then modeDecrypt
         else modeEncrypt).
Proof.
  intros Hsel.
  assert (mode = modeEncrypt \/ mode = modeCompress \/ mode = modeDecrypt)
    as Hmode.
  { revert Hsel. unfold selectMode.
    destruct encrypt, decrypt, compress; cbn;
      repeat (match goal with
              | |- context [if ?c then _ else _] => destruct c
              end);
      intros [= <-]; auto. }
  split; [done|].
  destruct Hmode as [-> | [-> | ->]]; reflexivity.
Qed.

Lemma default_output_selects_next_mode_witness :
  (modeEncrypt = modeEncrypt \/ modeEncrypt = modeCompress
   \/ modeEncrypt = modeDecrypt) /\
  selectMode false false false ("." ++ outext modeEncrypt) = inr modeCompress.
Proof.
  apply (default_output_selects_next_mode false false false ".jpeg" modeEncrypt).
  reflexivity.
Defined.

Section CompressMode.
Context `{fselib} `{!fselib_roundtrip}.

(** X24. The quantizations the compress mode of the tool accepts on a half
    image of even length, with a coder that round-trips, are exactly
    the powers of two up to 128: above 255 the flag is refused, below
    it is passed on unchanged and [Compress] refuses what is left. *)
Theorem compressMode_accepts_powers_of_two (quantization : Z)
  (enc : EncryptedImage.t) :
  0 <= quantization ->
  Nat.Even (length (EncryptedImage.Halfimage enc)) ->
  ((exists comp, compressMode quantization enc = inr (Ok comp))
   <-> quantization ∈ [1; 2; 4; 8; 16; 32; 64; 128]) /\
  (255 < quantization ->
   compressMode quantization enc = inl (Usage "invalid quantization")) /\
  (quantization <= 255 -> quantization ∉ [1; 2; 4; 8; 16; 32; 64; 128] ->
   compressMode quantization enc
   = inr (Err "quantization must be power of 2")).
Proof.
  intros Hq [n Hn]. unfold compressMode.
  destruct (Z.gtb_spec quantization 255) as [Hbig|Hsmall].
  - split; [|split; [done | lia]]. split.
    + intros [comp Hc]. discriminate.
    + rewrite !elem_of_cons, elem_of_nil. lia.
  - rewrite to_byte_small by lia.
    assert (0 <= quantization < 256) as Hbyte by lia.
    pose proof (OnesCount8_one quantization Hbyte) as Hones.
    destruct (decide (quantization ∈ [1; 2; 4; 8; 16; 32; 64; 128])) as [Hin|Hout].
    + split; [|split; [lia | done]]. split; [done|]. intros _.
      apply Hones in Hin.
      destruct (compress_spec enc quantization n Hn Hin ltac:(lia))
        as (quarter & qdiffs & d & qtable & Hc & Hql & Hdl & _).
      destruct (codec_transparent (R := Reader) enc quantization _ Hc)
        as (comp & -> & _).
      { cbn. lia. }
      by exists comp.
    + assert (OnesCount8 quantization <> 1) as Hne by (by rewrite Hones).
      assert (Compress enc quantization = Err "quantization must be power of 2")
        as Herr.
      { unfold Compress. by rewrite (compress_invalid enc quantization n Hn Hne). }
      rewrite Herr. split; [|split; [lia | done]]. split; [|done].
      intros [comp Hc]. discriminate.
Qed.

End CompressMode.

Lemma compressMode_accepts_powers_of_two_witness :
  let enc := EncryptedImage.mk [80; 73] 2 2 false false (replicate 16 0) in
  ((exists comp, @compressMode stored 3 enc = inr (Ok comp))
   <-> 3 ∈ [1; 2; 4; 8; 16; 32; 64; 128]) /\
  (255 < 3 ->
   @compressMode stored 3 enc = inl (Usage "invalid quantization")) /\
  (3 <= 255 -> 3 ∉ [1; 2; 4; 8; 16; 32; 64; 128] ->
   @compressMode stored 3 enc
   = inr (Err "quantization must be power of 2")).
Proof.
  apply (@compressMode_accepts_powers_of_two stored stored_roundtrip 3
           (EncryptedImage.mk [80; 73] 2 2 false false (replicate 16 0))).
  - lia.
  - exists 1%nat. reflexivity.
Defined.

(** ** Decrypting with another key *)

Lemma undo_swaps_fmap {A B} (f : A -> B) (off : nat) (vs : list Z) (l : list A) :
  f <$> undo_swaps off vs l = undo_swaps off vs (f <$> l).
Proof.
  revert off. induction vs as [|v vs IH]; intros off; simpl; [done|].
  by rewrite lswap_fmap, IH.
Qed.

Lemma blocks_with_fmap mk (p : list Z) :
  blocks_with mk p = (fun b => mk (e0 b) (e1 b)) <$> blocks_of p.
Proof.
  unfold blocks_of, blocks_with. rewrite <- list_fmap_compose.
  apply list_fmap_ext. intros _ i _. done.
Qed.

Section AnyKey.
Context `{RandLaws R} `{!KeyedRand R} `{fselib} `{!fselib_roundtrip}.

(** X25. Decryption does not tell a wrong key from the right one: for an
    image of even width and height encrypted under [key] and compressed
    at a valid quantization, [Decrypt] returns for every key [key'] an
    image of the same width and height with all its pixels. *)
Theorem Decrypt_returns_for_any_key (img : Image.t) (key key' salt : list Z)
  (q : Z) :
  Image_wf img ->
  Z.Even (Image.Width img) -> Z.Even (Image.Height img) ->
  0 <= q < 256 -> power_of_two q ->
  exists enc comp dec,
    Encrypt (Ok salt) img key = Ok enc /\
    Compress enc q = Ok comp /\
    Decrypt comp key' = Ok dec /\
    Image.Width dec = Image.Width img /\
    Image.Height dec = Image.Height img /\
    len (Image.Image dec) = Image.Width img * Image.Height img.
Proof.
  intros (HW0 & HH0 & Hlen & Hbytes) [bw HW] [bh HH] Hq Hp.
  assert (0 <= bw) as Hbw by lia. assert (0 <= bh) as Hbh by lia.
  assert (0 <= bh * bw) as HN by nia.
  set (n := Z.to_nat (bh * bw)).
  destruct (power_of_two_log q Hq Hp) as (m & Hm & Hqm & Htz & Hones).
  destruct (Encrypt_spec img key salt bw bh Hbw Hbh HW HH Hlen)
    as (h0 & p' & Henc & Hlp & _).
  fold n in Henc, Hlp.
  set (enc := EncryptedImage.mk p' _ _ _ _ salt) in Henc.
  destruct (compress_spec enc q n Hlp Hones ltac:(lia))
    as (quarter & qdiffs & d & qtable & Hcomp & Hlq & Hlqd & Hqv & Hqd & Hdl & Hqt).
  destruct (makeQtable_buckets d q m Hdl Hm Hqm Htz) as (t & Ht & Htl & Hin).
  rewrite Hqt in Ht. injection Ht as <-.
  cbn [EncryptedImage.Halfimage EncryptedImage.Salt EncryptedImage.Width
       EncryptedImage.Height EncryptedImage.PadHeight enc] in Hcomp, Hqv, Hqd.
  rewrite Htz in Hqd.
  destruct (codec_transparent enc q _ Hcomp) as (comp & Hcompress & _ & _ & HDec).
  { cbn. lia. }
  (* the half image that the swaps of [key'] would have turned into [p'] *)
  set (rng1 := (Read (newRNG key' salt) (replicate n 0)).2).
  set (vs := (draws n rng1).1).
  set (bs := undo_swaps 0 vs (blocks_of p')).
  assert (length bs = n) as Hlbs.
  { unfold bs, blocks_of.
    by rewrite length_undo_swaps, length_blocks_with, (half_length_div p' n). }
  assert (Forall (fun b => e2 b = 0 /\ e3 b = 0) bs) as Hzero.
  { unfold bs. rewrite undo_swaps_Permutation.
    apply Forall_forall. intros b Hb. unfold blocks_of, blocks_with in Hb.
    apply list_elem_of_fmap in Hb as (i & -> & _). done. }
  destruct (decrypt_spec_with (rebuilt_with qtable m)
              (compressedImage.mk quarter qtable qdiffs salt
                 (Image.Width img) (Image.Height img)
                 (Image.PadHeight img) (Image.PadHeight img))
              key' bw bh p' (pairs_of bs) Hbw Hbh HW HH Hlq Hlqd)
    as (u & w & image & Hdec & _ & _ & _ & Hli & _).
  { intros i Hi. cbn [compressedImage.Qdiffs compressedImage.Qtable].
    rewrite (list_lookup_total_correct _ _ _ (Hqd i Hi)), Htl.
    apply (requantize qtable q m _ _ Hm Hqm Hin). }
  { intros i Hi.
    cbn [compressedImage.Qdiffs compressedImage.Qtable
         compressedImage.Quarterimage].
    rewrite (list_lookup_total_correct _ _ _ (Hqd i Hi)).
    rewrite (list_lookup_total_correct _ _ _ (Hqv i Hi)). done. }
  { done. }
  { rewrite length_pairs_of. lia. }
  { cbn [compressedImage.Salt]. fold n rng1 vs.
    rewrite (blocks_with_fmap _ (pairs_of bs)), (blocks_of_pairs_of bs Hzero).
    unfold bs. rewrite undo_swaps_fmap, apply_undo_swaps.
    apply blocks_with_fmap. }
  cbn [compressedImage.Width compressedImage.Height
       compressedImage.PadWidth compressedImage.PadHeight] in Hdec.
  exists enc, comp. eexists. split; [done|]. split; [done|].
  split; [rewrite HDec; exact Hdec|]. split; [done|]. split; [done|].
  cbn [Image.Image]. rewrite Hli, HW, HH. lia.
Qed.

End AnyKey.

Lemma Decrypt_returns_for_any_key_witness :
  let img := Image.mk [10; 20; 30; 40; 50; 60; 70; 80] 4 2 false false in
  let key := [73; 32; 97; 109] in
  let key' := [1; 2; 3] in
  let salt := replicate 16 0 in
  exists enc comp dec,
    Encrypt (Ok salt) img key = Ok enc /\
    @Compress stored enc 2 = Ok comp /\
    @Decrypt _ _ cyclic_newRNG stored comp key' = Ok dec /\
    Image.Width dec = Image.Width img /\
    Image.Height dec = Image.Height img /\
    len (Image.Image dec) = Image.Width img * Image.Height img.
Proof.
  apply (@Decrypt_returns_for_any_key Reader Reader_Rand Reader_RandLaws
           cyclic_newRNG stored stored_roundtrip
           (Image.mk [10; 20; 30; 40; 50; 60; 70; 80] 4 2 false false)
           [73; 32; 97; 109] [1; 2; 3] (replicate 16 0) 2).
  - split; [simpl; lia|]. split; [simpl; lia|]. split; [reflexivity|].
    repeat constructor; unfold is_byte; lia.
  - exists 2. reflexivity.
  - exists 1. reflexivity.
  - lia.
  - exists 1. split; [lia | reflexivity].
Defined.

(** ** The distortions *)

Lemma range_from_zero (n : Z) : range_from 0 n = range n.
Proof.
  unfold range_from, range. rewrite Z.sub_0_r.
  apply list_fmap_ext. intros _ i _. lia.
Qed.

Lemma land_mask (a q m : Z) :
  0 <= m -> q = 2 ^ m -> Z.land a (q - 1) = a mod q.
Proof.
  intros Hm ->. rewrite <- Z.land_ones by done. f_equal.
  rewrite Z.ones_equiv. lia.
Qed.

(** One difference [v] adds its share to every entry of its bucket. *)
Lemma accumulate_step (q m v : Z) (D0 : list Z) :
  0 <= m <= 7 -> q = 2 ^ m -> is_byte v -> length D0 = 256%nat ->
  exists D1,
    foldM (fun j distortions =>
             let distortion := Z.land (byte_sub v j) (byte_sub q 1) in
             d ← index distortions (byte_add (byte_shl (byte_shr v m) m) j);
             assign distortions (byte_add (byte_shl (byte_shr v m) m) j)
               (d + byte_mul distortion distortion))
          (range_from 0 q) D0 = Ok D1 /\
    length D1 = 256%nat /\
    forall c, 0 <= c < 256 -> elem D1 c = elem D0 c + distortion_of q v c.
Proof.
  intros Hm Hq Hv HD0. unfold is_byte in Hv.
  assert (0 < q) as Hqpos by (subst q; apply Z.pow_pos_nonneg; lia).
  pose proof (pow_split m Hm) as Hsplit. rewrite <- Hq in Hsplit.
  set (L := 2 ^ (8 - m)) in *.
  assert (0 < L) as HLpos by (apply Z.pow_pos_nonneg; lia).
  set (k := v / q).
  assert (byte_shr v m = k) as Hk.
  { unfold byte_shr, k. by rewrite Z.shiftr_div_pow2, <- Hq by lia. }
  pose proof (Z.div_mod v q ltac:(lia)) as Hdm.
  pose proof (Z.mod_pos_bound v q Hqpos) as Hmb. fold k in Hdm.
  assert (0 <= k) as Hk0 by (apply Z.div_pos; lia).
  assert (k < L) as HkL by (apply Z.div_lt_upper_bound; lia).
  assert (byte_shl k m = k * q) as Hbase.
  { rewrite Hq. apply byte_shl_small; [lia|]. rewrite <- Hq. nia. }
  assert (byte_sub q 1 = q - 1) as Hmask.
  { unfold byte_sub. apply Z.mod_small. nia. }
  rewrite Hk, Hbase, Hmask, range_from_zero.
  destruct (foldM_range_inv
    (fun j (D : list Z) => length D = 256%nat /\
       forall c, 0 <= c < 256 ->
         elem D c = elem D0 c
                    + (if (c / q =? k) && (c mod q <? j)
                       then distortion_of q v c else 0))
    (fun j distortions =>
       let distortion := Z.land (byte_sub v j) (q - 1) in
       d ← index distortions (byte_add (k * q) j);
       assign distortions (byte_add (k * q) j)
         (d + byte_mul distortion distortion))
    q D0) as (D1 & HD1 & Hl1 & Hv1).
  - lia.
  - split; [done|]. intros c Hc.
    pose proof (Z.mod_pos_bound c q Hqpos).
    destruct (Z.ltb_spec (c mod q) 0); [lia|]. rewrite andb_false_r. lia.
  - cbv beta zeta. intros j D Hj [HlD HvD].
    assert (byte_add (k * q) j = k * q + j) as ->.
    { unfold byte_add. apply Z.mod_small. nia. }
    assert (0 <= k * q + j < 256) as Hidx by nia.
    rewrite index_elem by (unfold len; lia). cbn [mbind result_bind].
    rewrite assign_Ok by (unfold len; lia).
    eexists. split; [reflexivity|]. split; [by rewrite length_insert|].
    intros c Hc.
    assert ((k * q + j) / q = k /\ (k * q + j) mod q = j) as [Hdiv Hmod].
    { split.
      - symmetry. apply (Z.div_unique _ _ _ j); lia.
      - symmetry. apply (Z.mod_unique _ _ k); lia. }
    destruct (decide (c = k * q + j)) as [->|Hne].
    + rewrite elem_insert_eq by (unfold len; lia).
      rewrite (HvD _ Hidx), Hdiv, Hmod, Z.eqb_refl.
      destruct (Z.ltb_spec j j); [lia|].
      destruct (Z.ltb_spec j (j + 1)); [|lia]. cbn [andb].
      rewrite Z.add_0_r. f_equal.
      unfold distortion_of. fold k. rewrite Hdiv, Z.eqb_refl.
      rewrite (land_mask _ q m) by (done || lia).
      assert (byte_sub v j mod q = (v - (k * q + j)) mod q) as ->; [|done].
      unfold byte_sub.
      rewrite (Z.mod_mod_divide (v - j) 256 q) by (exists L; lia).
      replace (v - (k * q + j)) with (v - j + (- k) * q) by lia.
      by rewrite Z.mod_add by lia.
    + rewrite elem_insert_ne by lia. rewrite (HvD _ Hc).
      f_equal.
      destruct (Z.eqb_spec (c / q) k) as [Hck|]; [|done]. cbn [andb].
      pose proof (Z.div_mod c q ltac:(lia)) as Hcdm.
      destruct (Z.ltb_spec (c mod q) j), (Z.ltb_spec (c mod q) (j + 1));
        try done; try lia.
  - exists D1. split; [done|]. split; [done|].
    intros c Hc. rewrite (Hv1 c Hc). f_equal.
    pose proof (Z.mod_pos_bound c q Hqpos).
    destruct (Z.ltb_spec (c mod q) q); [|lia]. rewrite andb_true_r.
    unfold distortion_of. fold k. rewrite (Z.eqb_sym k).
    by destruct (c / q =? k).
Qed.

Lemma accumulate_loop (q m : Z) (diffs D0 : list Z) :
  0 <= m <= 7 -> q = 2 ^ m -> Forall is_byte diffs -> length D0 = 256%nat ->
  exists D,
    foldM (fun v distortions =>
             let k := byte_shr v m in
             let i := byte_shl k m in
             foldM (fun j distortions =>
                      let distortion := Z.land (byte_sub v j) (byte_sub q 1) in
                      d ← index distortions (byte_add i j);
                      assign distortions (byte_add i j)
                        (d + byte_mul distortion distortion))
                   (range_from 0 q) distortions)
          diffs D0 = Ok D /\
    length D = 256%nat /\
    forall c, 0 <= c < 256 ->
      elem D c = elem D0 c + foldr (fun v acc => distortion_of q v c + acc) 0 diffs.
Proof.
  intros Hm Hq Hbytes. revert D0.
  induction Hbytes as [|v diffs Hv _ IH]; intros D0 HD0.
  - exists D0. split; [done|]. split; [done|]. intros c _. simpl. lia.
  - cbn [foldM]. cbv zeta.
    destruct (accumulate_step q m v D0 Hm Hq Hv HD0) as (D1 & HD1 & Hl1 & Hv1).
    cbv zeta in HD1. rewrite HD1. cbn [mbind result_bind].
    destruct (IH D1 Hl1) as (D & HD & Hl & HvD).
    exists D. split; [exact HD|]. split; [done|].
    intros c Hc. rewrite (HvD c Hc), (Hv1 c Hc). simpl. lia.
Qed.

(** X26. The distortions [compress] hands to [makeQtable], for a valid
    quantization [q] and differences that are bytes: entry [c] is the
    sum, over the differences [v] of the bucket of [c], of the square
    of [(v - c) mod q], the square being taken modulo 256 as the byte
    multiplication of the code has it. *)
Theorem accumulate_sums (diffs : list Z) (q : Z) :
  0 <= q < 256 -> power_of_two q -> Forall is_byte diffs ->
  exists distortions,
    accumulate diffs q = Ok distortions /\
    len distortions = 256 /\
    forall c, 0 <= c < 256 ->
      elem distortions c
      = foldr (fun v acc => distortion_of q v c + acc) 0 diffs.
Proof.
  intros Hq Hp Hbytes.
  destruct (power_of_two_log q Hq Hp) as (m & Hm & Hqm & Htz & _).
  unfold accumulate. rewrite make_Ok by lia. cbn [mbind result_bind].
  rewrite Htz.
  destruct (accumulate_loop q m diffs (replicate (Z.to_nat 256) 0) Hm Hqm Hbytes)
    as (D & HD & Hl & HvD).
  { by rewrite length_replicate. }
  exists D. split; [exact HD|]. split; [unfold len; lia|].
  intros c Hc. rewrite (HvD c Hc).
  unfold elem at 1. rewrite lookup_total_replicate_2 by lia. lia.
Qed.

Lemma accumulate_sums_witness :
  exists distortions,
    accumulate [3; 0; 250] 2 = Ok distortions /\
    len distortions = 256 /\
    forall c, 0 <= c < 256 ->
      elem distortions c
      = foldr (fun v acc => distortion_of 2 v c + acc) 0 [3; 0; 250].
Proof.
  apply (accumulate_sums [3; 0; 250] 2).
  - lia.
  - exists 1. split; [lia | reflexivity].
  - repeat constructor; unfold is_byte; lia.
Defined.
